(** * ngmixer: DES MEDS image I/O (ngmixer/imageio/desmedsio.py)

    A shallow embedding of the flag reduction, PSF loading, geometry,
    bitmask propagation and flux conversion code of [desmedsio.py], and the
    properties of that code.

    Conventions of the embedding
    - Python integers and integer numpy arrays ('i4', 'i8') are [Z]; the
      values that occur (flag words, 0/1 masks, indices) stay far from the
      64-bit range, so no wrap-around is involved.
    - Floating-point scalars and arrays are exact rationals [Q]; equality of
      floats is [Qeq].
    - A 2-d numpy array is a [list (list A)] in row-major order.
    - An exception is a [Raise e] result.  What the module calls but does
      not define (the MEDS reader, ngmix, PIFF, fitsio, the file system,
      the resampler of [util]) enters as data: records of functions and
      function arguments.
    - An object that the code mutates in place is passed in and returned. *)

From Stdlib Require Import ZArith QArith Lia Ascii String.
From stdpp Require Import base option list gmap strings pretty.

Local Open Scope Z_scope.

(** ** Exceptions and results *)

Inductive exn : Type :=
| RuntimeError (msg : string)
| MissingDataError (msg : string)
| GMixFatalError (msg : string)
| LinAlgError
| AssertionError
| ValueError
| TypeError
| IndexError
| KeyError
| AttributeError.

Inductive result (A : Type) : Type :=
| Ok (a : A)
| Raise (e : exn).
Arguments Ok {A} a.
Arguments Raise {A} e.

Definition rbind {A B} (r : result A) (k : A → result B) : result B :=
  match r with
  | Ok a => k a
  | Raise e => Raise e
  end.

Notation "x ← r ;;; k" := (rbind r (λ x, k))
  (at level 20, r at level 100, k at level 200, right associativity,
   only parsing).

(** ** Module-level constants (desmedsio.py, lines 21-64) *)

Definition IMAGE_FLAGS_SET : Z := 2 ^ 0.
Definition PSF_IN_BLACKLIST : Z := 2 ^ 1.
Definition PSF_MISSING_S2N : Z := 2 ^ 2.
Definition PSF_LOW_S2N : Z := 2 ^ 3.
Definition PSF_FILE_READ_ERROR : Z := 2 ^ 4.

Definition DESY3_BADPIX_MAP : list (string * Z) :=
  [ ("BPM", 1); ("SATURATE", 2); ("INTERP", 4); ("BADAMP", 8);
    ("CRAY", 16); ("STAR", 32); ("TRAIL", 64); ("EDGEBLEED", 128);
    ("SSXTALK", 256); ("EDGE", 512); ("STREAK", 1024);
    ("SUSPECT", 2048) ].

(** [d[k]] on a dict literal: the first binding of [k]. *)
Fixpoint dict_get (d : list (string * Z)) (k : string) : option Z :=
  match d with
  | [] => None
  | (k', v) :: d' => if String.eqb k k' then Some v else dict_get d' k
  end.

(** [DESY3_BADPIX_MAP[name]] for the three names the mask code spells out;
    each of them is a key of the map (see [badpix_constants]). *)
Definition BADPIX (name : string) : Z :=
  default 0 (dict_get DESY3_BADPIX_MAP name).

(** ** Two-dimensional arrays *)

Section Array2.
Context {A : Type}.

Definition get2 (a : list (list A)) (i j : nat) : option A :=
  a !! i ≫= λ row, row !! j.

(** [a[i, j] = v] for in-range non-negative [i], [j]. *)
Definition set2 (a : list (list A)) (i j : nat) (v : A) : list (list A) :=
  alter (λ row, <[j := v]> row) i a.

(** numpy's [a.shape] of a 2-d array. *)
Definition shape (a : list (list A)) : Z * Z :=
  (Z.of_nat (length a), Z.of_nat (length (default [] (head a)))).

(** Every row has [m] entries. *)
Definition rect (m : nat) (a : list (list A)) : Prop :=
  Forall (λ row, length row = m) a.

(** [a[:, :] = v] *)
Definition fill2 (v : A) (a : list (list A)) : list (list A) :=
  (λ row : list A, (λ _ : A, v) <$> row) <$> a.

(** Column indices of a row where [P] holds, ascending. *)
Definition where1 (P : A → bool) (row : list A) : list nat :=
  omap id (imap (λ j x, if P x then Some j else None) row).

(** [numpy.where(cond)] on a 2-d array: the (row, col) pairs where the
    condition holds, in row-major order. *)
Definition where2 (P : A → bool) (a : list (list A)) : list (nat * nat) :=
  mjoin (imap (λ i row, (λ j, (i, j)) <$> where1 P row) a).

(** [a[q] = v] for an index tuple [q] produced by [numpy.where]. *)
Definition set_where (a : list (list A)) (q : list (nat * nat)) (v : A)
  : list (list A) :=
  foldl (λ acc p, set2 acc p.1 p.2 v) a q.
End Array2.

(** ** ngmix observations, as this module uses them *)

(** A float image or weight map, and an integer mask or segmentation map. *)
Abbreviation farray := (list (list Q)).
Abbreviation iarray := (list (list Z)).

(** The 2x2 matrix that [meds.get_jacobian_matrix] returns. *)
Record jacobian_matrix : Type := {
  jm_dudrow : Q; jm_dudcol : Q; jm_dvdrow : Q; jm_dvdcol : Q
}.

(** An [ngmix.Jacobian]: centre, matrix entries, and the pixel scale that
    ngmix derives from them and stores. *)
Record Jacobian : Type := {
  row0 : Q; col0 : Q;
  dudrow : Q; dudcol : Q; dvdrow : Q; dvdcol : Q;
  scale : Q
}.

(** [J.set_cen(row=r, col=c)]. *)
Definition set_cen (J : Jacobian) (r c : Q) : Jacobian :=
  {| row0 := r; col0 := c;
     dudrow := dudrow J; dudcol := dudcol J;
     dvdrow := dvdrow J; dvdcol := dvdcol J; scale := scale J |}.

(** [J.get_cen()]. *)
Definition get_cen (J : Jacobian) : Q * Q := (row0 J, col0 J).

(** The PSF observation attached to an observation. *)
Record psf_observation : Type := {
  psf_image : farray;
  psf_filename : string
}.

(** An attribute that the reader may or may not have attached to an
    observation object, and that may hold [None]. *)
Inductive attr (A : Type) : Type :=
| Missing
| PyNone
| Val (a : A).
Arguments Missing {A}.
Arguments PyNone {A}.
Arguments Val {A} a.

(** [ngmix.Observation] with the attributes [medsio] attaches to it.
    [image], [weight], [jacobian] and [psf] are properties of the class;
    [weight_raw], [weight_us], [weight_orig] and [seg] are plain attributes
    set by the reader. *)
Record Observation : Type := {
  image : farray;
  weight : farray;
  weight_raw : attr farray;
  weight_us : attr farray;
  weight_orig : attr farray;
  seg : iarray;
  jacobian : Jacobian;
  psf : psf_observation;
  meta_flags : Z;     (* obs.meta['flags'] *)
  meta_icut : Z       (* obs.meta['icut'] *)
}.

(** What a MEDS file gives for one object ([mindex] fixed): per-cutout
    centres, Jacobian matrices and bitmask cutouts. *)
Record meds_object : Type := {
  number : Z;         (* the object's id in the segmentation map *)
  ncutout : Z;
  box_size : Z;
  file_id : Z → Z;
  orig_row : Z → Q;
  orig_col : Z → Q;
  cutout_row : Z → Q;
  cutout_col : Z → Q;
  get_jacobian_matrix : Z → jacobian_matrix;
  get_cutout_bmask : Z → iarray
}.

(** The signature of [util.interpolate_image_diffsize]: source centre,
    Jacobian and image, destination centre, Jacobian and array; the result
    is the destination array after the call. *)
Definition interpolator : Type :=
  Q → Q → jacobian_matrix → iarray →
  Q → Q → jacobian_matrix → iarray → iarray.

(** [mapM] over a Python [for] loop whose body may raise. *)
Fixpoint for_each {A B} (f : A → result B) (l : list A) : result (list B) :=
  match l with
  | [] => Ok []
  | x :: l' => y ← f x ;;; ys ← for_each f l' ;;; Ok (y :: ys)
  end.

(** ** Python built-ins on strings, lists and floats *)

(** [s.split(sep)] for a one-character separator. *)
Fixpoint split_on (sep : ascii) (s : string) : list string :=
  match s with
  | EmptyString => [EmptyString]
  | String c s' =>
      if Ascii.eqb c sep then EmptyString :: split_on sep s'
      else match split_on sep s' with
           | [] => [String c EmptyString]
           | w :: ws => String c w :: ws
           end
  end.

(** [os.path.basename(path)]: what follows the last slash. *)
Definition basename (path : string) : string :=
  default EmptyString (last (split_on "/"%char path)).

(** [s[1:]] *)
Definition str_tail (s : string) : string :=
  match s with
  | EmptyString => EmptyString
  | String _ s' => s'
  end.

(** [s.replace(c, '')] for a one-character [c]. *)
Fixpoint str_remove (c : ascii) (s : string) : string :=
  match s with
  | EmptyString => EmptyString
  | String a s' =>
      if Ascii.eqb a c then str_remove c s' else String a (str_remove c s')
  end.

(** [c not in s] *)
Fixpoint sep_free (c : ascii) (s : string) : bool :=
  match s with
  | EmptyString => true
  | String a s' => negb (Ascii.eqb a c) && sep_free c s'
  end.

(** [l[-n:]] for [n > 0]. *)
Definition last_n {A} (n : nat) (l : list A) : list A :=
  drop (length l - n) l.

(** [l[i]] for a constant index [i >= 0]. *)
Definition index {A} (l : list A) (i : nat) : result A :=
  match l !! i with
  | Some x => Ok x
  | None => Raise IndexError
  end.

(** ['galsim' in s] *)
Fixpoint contains (sub s : string) : bool :=
  String.prefix sub s
  || match s with
     | EmptyString => false
     | String _ s' => contains sub s'
     end.

(** [s.strip()]: ASCII whitespace removed at both ends. *)
Definition is_space (c : ascii) : bool :=
  let n := nat_of_ascii c in
  (n =? 32)%nat || ((9 <=? n)%nat && (n <=? 13)%nat)
  || ((28 <=? n)%nat && (n <=? 31)%nat).
Fixpoint lstrip (s : string) : string :=
  match s with
  | String c s' => if is_space c then lstrip s' else s
  | EmptyString => EmptyString
  end.
Fixpoint rstrip (s : string) : string :=
  match s with
  | EmptyString => EmptyString
  | String c s' =>
      match rstrip s' with
      | EmptyString => if is_space c then EmptyString
                       else String c EmptyString
      | r => String c r
      end
  end.
Definition strip (s : string) : string := rstrip (lstrip s).

(** [int(x)] of a float: truncation towards zero. *)
Definition int_of_float (x : Q) : Z := Z.quot (Qnum x) (Z.pos (Qden x)).

(** Python's [l[start:stop]]: negative indices count from the end, and
    both ends are clipped to the list. *)
Definition slice_index (n i : Z) : Z :=
  if i <? 0 then Z.max (i + n) 0 else Z.min i n.
Definition py_slice {A} (l : list A) (start stop : Z) : list A :=
  let n := Z.of_nat (length l) in
  let lo := slice_index n start in
  let hi := slice_index n stop in
  take (Z.to_nat (hi - lo)) (drop (Z.to_nat lo) l).

(** [im[r0:r1, c0:c1]] *)
Definition py_slice2 {A} (im : list (list A)) (r0 r1 c0 c1 : Z)
  : list (list A) :=
  (λ row, py_slice row c0 c1) <$> py_slice im r0 r1.

(** Element-wise arithmetic of a float array with a scalar. *)
Definition amap (f : Q → Q) (a : farray) : farray :=
  (λ row : list Q, f <$> row) <$> a.

(** [a.sum()] *)
Definition asum (a : farray) : Q :=
  foldr Qplus 0%Q (foldr Qplus 0%Q <$> a).

(** Equality of float arrays, entry by entry. *)
Definition farray_eq (a b : farray) : Prop := Forall2 (Forall2 Qeq) a b.

(** ** numpy assignments and element-wise operations *)

(** [a[i, j] = v] with the bounds check of numpy. *)
Definition setitem2 {A} (a : list (list A)) (i j : nat) (v : A)
  : result (list (list A)) :=
  if bool_decide (is_Some (get2 a i j)) then Ok (set2 a i j v)
  else Raise IndexError.

(** [a[1:] = values] on a 1-d array: [values] has the length of the slice
    or is broadcast from length 1. *)
Definition assign_tail (a values : list Z) : result (list Z) :=
  let n := (length a - 1)%nat in
  if (length values =? n)%nat then Ok (take 1 a ++ values)
  else match values with
       | [v] => Ok (take 1 a ++ replicate n v)
       | _ => Raise ValueError
       end.

(** Element-wise [f(a, b)] of two arrays.  numpy requires the shapes to
    agree (shapes it would broadcast do not occur: both arrays are cutouts
    of one object); otherwise it raises [ValueError]. *)
Definition same_shape {A B} (a : list (list A)) (b : list (list B)) : bool :=
  bool_decide (length <$> a = length <$> b).
Definition zip2 {A B C} (f : A → B → C) (a : list (list A))
    (b : list (list B)) : result (list (list C)) :=
  if same_shape a b then Ok (zip_with (zip_with f) a b)
  else Raise ValueError.

(** [a[q] = v] on an array, raising [IndexError] if an index of [q] is out
    of bounds for [a]. *)
Definition assign_where {A} (a : list (list A)) (q : list (nat * nat))
    (v : A) : result (list (list A)) :=
  if forallb (λ p, bool_decide (is_Some (get2 a p.1 p.2))) q
  then Ok (set_where a q v) else Raise IndexError.

(** ** Configuration and environment *)

(** The entries of [self.conf] that the code below reads. *)
Record config : Type := {
  image_flags2check : Z;
  fit_coadd_galaxy : bool;
  replacement_flags : option string;
  psfs_type : string;            (* conf['imageio']['psfs']['type'] *)
  psfs_piff_run : string;        (* conf['imageio']['psfs']['piff_run'] *)
  psfs_allow_missing : bool;     (* conf['imageio']['psfs']['allow_missing'] *)
  psfs_stamp_size : Z;           (* conf['imageio']['psfs']['stamp_size'] *)
  image_type : string;           (* conf['imageio']['image_type'] *)
  fitter_type : string;
  trim_psf_dims : option (Q * Q) (* conf['trim_psf']['dims'] *)
}.

(** A row of the [info] table of a PIFF exposure summary file. *)
Record piff_info : Type := {
  ccdnum : Z;
  flag : Z;
  piff_file : string
}.

(** A model read by [piff.read]: [draw(x, y, stamp_size)] as the pixel
    array of the image it returns. *)
Definition piff_model : Type := Z → Z → Z → farray.

(** What lies outside the module: the file system, the process
    environment, the [files] helper, [fitsio], [piff], [ngmix], and the
    built-ins [int(str)] and ['%.16g' % float]. *)
Record environment : Type := {
  path_exists : string → bool;
  fitsio_read_info : string → list piff_info;
  get_piff_exp_summary_file : string → Z → string;
  PIFF_DATA_DIR : option string;
  int_of_string : string → option Z;
  piff_read : string → piff_model;
  format_g16 : Q → string;
  (* ngmix: the message of the GMixFatalError that [obs.set_weight(w)]
     raises, if it raises one *)
  set_weight_error : farray → option string
}.

Module PIFFWrapper.

(** The wrapper object: the PIFF model, the two dictionary entries and
    the centre cache, a Python dict whose keys are whatever
    [_get_center_cache_key] returns ([None] or a string). *)
Record t : Type := {
  piff_obj : piff_model;
  filename : string;
  stamp_size : Z;
  center_cache : gmap (option string) (Q * Q)
}.

(** [__init__(self, psf_path, stamp_size)] *)
Definition __init__ (env : environment) (psf_path : string) (size : Z) : t :=
  {| piff_obj := piff_read env psf_path;
     filename := psf_path;
     stamp_size := size;
     center_cache := ∅ |}.

(** [_get_center_cache_key], lines 1475-1476: the key string is built and
    the function ends without a [return], so the call evaluates to
    [None]. *)
Definition _get_center_cache_key (env : environment) (row col : Q)
  : option string :=
  let key := (format_g16 env row ++ "-" ++ format_g16 env col)%string in
  None.

(** The key that the format string describes. *)
Definition formatted_key (env : environment) (row col : Q) : string :=
  (format_g16 env row ++ "-" ++ format_g16 env col)%string.

(** [_cache_center], lines 1465-1473. *)
Definition _cache_center (env : environment) (self : t) (row col : Q)
    (im : farray) : t :=
  let key := _get_center_cache_key env row col in
  let cen := ((inject_Z (shape im).1 - 1) / 2,
              (inject_Z (shape im).2 - 1) / 2)%Q in
  {| piff_obj := piff_obj self; filename := filename self;
     stamp_size := stamp_size self;
     center_cache := <[key := cen]> (center_cache self) |}.

(** [get_rec], lines 1420-1444: the normalised image, and the wrapper
    with the centre cached.  (For an image that sums to zero numpy gives
    inf or nan pixels; here [1 / 0] is 0.) *)
Definition get_rec (env : environment) (self : t) (row col : Q)
  : t * farray :=
  let im := piff_obj self (int_of_float (col + 0.5))
              (int_of_float (row + 0.5)) (stamp_size self) in
  let im := amap (λ x, x * (1 / asum im))%Q im in
  (_cache_center env self row col im, im).

(** [get_center], lines 1446-1457. *)
Definition get_center (env : environment) (self : t) (row col : Q)
  : t * result (Q * Q) :=
  let key := _get_center_cache_key env row col in
  let self :=
    if bool_decide (key ∈ dom (center_cache self)) then self
    else (get_rec env self row col).1 in
  match center_cache self !! key with
  | Some cen => (self, Ok cen)
  | None => (self, Raise KeyError)
  end.

(** [get_sigma], lines 1459-1463, with [numpy.sqrt] as [sqrt]. *)
Definition get_sigma (sqrt : Q → Q) : Q := sqrt (4 / 2)%Q.

End PIFFWrapper.

(** A loaded PSF object: a PIFF wrapper or a PSFEx model. *)
Inductive psf_object : Type :=
| PIFF (w : PIFFWrapper.t)
| PSFEx (path : string).

Module Y3DESMEDSImageIO.

(** [_get_expccd_and_key], lines 1375-1388. *)
Definition _get_expccd_and_key (image_path : string)
  : result (string * string * string) :=
  let bname := basename image_path in
  let fs := split_on "_"%char bname in
  r ← (if String.eqb (substring 0 3 bname) "DES" then
         expname ← index fs 2 ;;; f4 ← index fs 4 ;;;
         Ok (expname, str_tail f4)
       else
         expname ← index fs 0 ;;; f2 ← index fs 2 ;;;
         Ok (expname, str_tail f2)) ;;;
  let expname := r.1 in
  let ccd := r.2 in
  let key := (expname ++ "-" ++ ccd)%string in
  Ok (expname, ccd, key).

End Y3DESMEDSImageIO.

(** The replacement-flag reader of [imageio.util] and the PSFEx branch of
    the PSF loader (path lookup, lines 672-678, and [_get_psfex_object]),
    as the functions they are called as. *)
Definition flags_reader : Type := string → list string → Z → list Z.
Definition psfex_loader : Type :=
  nat → string → result (option psf_object * Z).

Module SVDESMEDSImageIO.

(** *** Image flags *)

(** [_get_replacement_flags(filenames)], lines 690-699. *)
Definition _get_replacement_flags (conf : config) (reader : flags_reader)
    (fname : string) (filenames : list string) : list Z :=
  let default := image_flags2check conf in
  reader fname filenames default.

(** [_load_meds_files], lines 728-733, for one band: the flags of the
    single-epoch images are replaced when a replacement file is
    configured. *)
Definition replace_image_flags (conf : config) (reader : flags_reader)
    (image_path : list string) (image_flags : list Z) : result (list Z) :=
  match replacement_flags conf with
  | Some fname =>
      if (1 <? length image_flags)%nat then
        assign_tail image_flags
          (_get_replacement_flags conf reader fname (drop 1 image_path))
      else Ok image_flags
  | None => Ok image_flags
  end.

(** Lines 735-745: the flags of the cutouts are reduced to zero or
    [IMAGE_FLAGS_SET] and copied back. *)
Definition reduce_image_flags (conf : config) (image_flags : list Z)
  : list Z :=
  let cimage_flags := drop 1 image_flags in
  let w :=
    where1 (λ f, negb (Z.land f (image_flags2check conf) =? 0))
      cimage_flags in
  let cimage_flags := (λ _ : Z, 0) <$> cimage_flags in
  let cimage_flags :=
    if (0 <? length w)%nat
    then foldl (λ c k, <[k := IMAGE_FLAGS_SET]> c) cimage_flags w
    else cimage_flags in
  take 1 image_flags ++ cimage_flags.

(** From the [image_flags] and [image_path] columns of the image info
    table of a band to the entry appended to [self.all_image_flags]. *)
Definition load_image_flags (conf : config) (reader : flags_reader)
    (image_path : list string) (image_flags : list Z) : result (list Z) :=
  image_flags ← replace_image_flags conf reader image_path image_flags ;;;
  Ok (reduce_image_flags conf image_flags).

(** *** Extra mask flags *)

(** The loop [flags = 0; for name in flag_list: flags += MAP[name]] of
    [_set_extra_mask_flags], lines 98-100, and of
    [_set_propagate_saturated_stars], lines 822-824. *)
Fixpoint add_flags (flags : Z) (flag_list : list string) : result Z :=
  match flag_list with
  | [] => Ok flags
  | flagname :: rest =>
      match dict_get DESY3_BADPIX_MAP flagname with
      | None => Raise KeyError
      | Some b => add_flags (flags + b) rest
      end
  end.

(** [_set_extra_mask_flags], lines 93-102, on
    [conf.get('extra_mask_flag_list', None)]: the value stored under
    [conf['extra_mask_flags']], if one is stored. *)
Definition _set_extra_mask_flags (flag_list : option (list string))
  : result (option Z) :=
  match flag_list with
  | None => Ok None
  | Some flag_list => flags ← add_flags 0 flag_list ;;; Ok (Some flags)
  end.

(** *** PIFF models *)

(** [self._piff_info]: exposure name to summary table, or to [None] for a
    tolerated missing summary file. *)
Abbreviation piff_cache := (gmap string (option (list piff_info))).

(** [_extract_piff_key(psf_path)], lines 491-501. *)
Definition _extract_piff_key (psf_path : string) : result string :=
  let bname := basename psf_path in
  let bs := split_on "_"%char bname in
  exp ← index bs 0 ;;;
  f2 ← index bs 2 ;;;
  let ccd := str_remove "c"%char f2 in
  let key := (exp ++ "-" ++ ccd)%string in
  Ok key.

(** [_read_piff_exp_info(expname)], lines 503-519. *)
Definition _read_piff_exp_info (env : environment) (conf : config)
    (expname : string) : result (option (list piff_info)) :=
  match int_of_string env (str_tail expname) with
  | None => Raise ValueError
  | Some expnum =>
      let fname := get_piff_exp_summary_file env (psfs_piff_run conf) expnum in
      if negb (path_exists env fname) then
        if psfs_allow_missing conf then Ok None
        else Raise (RuntimeError ("Missing piff exposure: " ++ fname))
      else Ok (Some (fitsio_read_info env fname))
  end.

(** [_get_piff_info(expname, ccd)], lines 521-538.  The cache is part of
    the result, also when the call raises. *)
Definition _get_piff_info (env : environment) (conf : config)
    (all_info : piff_cache) (expname ccd : string)
  : piff_cache * result (option piff_info) :=
  let loaded :=
    match all_info !! expname with
    | Some _ => Ok all_info
    | None =>
        v ← _read_piff_exp_info env conf expname ;;;
        Ok (<[expname := v]> all_info)
    end in
  match loaded with
  | Raise e => (all_info, Raise e)
  | Ok all_info =>
      match all_info !! expname with
      | None => (all_info, Raise KeyError)
      | Some None => (all_info, Ok None)
      | Some (Some expinfo) =>
          match int_of_string env ccd with
          | None => (all_info, Raise ValueError)
          | Some n =>
              match filter (λ r, ccdnum r = n) expinfo with
              | [] => (all_info,
                       Raise (RuntimeError ("piff info for " ++ expname
                                            ++ " " ++ ccd ++ " not found")))
              | r :: _ => (all_info, Ok (Some r))
              end
          end
      end
  end.

(** [_replace_piff_dir(path)], lines 540-549. *)
Definition _replace_piff_dir (env : environment) (path : string)
  : result string :=
  match PIFF_DATA_DIR env with
  | None => Raise KeyError
  | Some edir =>
      let paths := last_n 3 (split_on "/"%char path) in
      let paths := edir :: paths in
      Ok (String.concat "/" paths)
  end.

(** [_get_piff_path(info)], lines 551-554. *)
Definition _get_piff_path (env : environment) (info : piff_info)
  : result string :=
  _replace_piff_dir env (piff_file info).

(** [_get_piff_object(impath)], lines 557-583. *)
Definition _get_piff_object (env : environment) (conf : config)
    (all_info : piff_cache) (impath : string)
  : piff_cache * result (option psf_object * Z) :=
  match Y3DESMEDSImageIO._get_expccd_and_key impath with
  | Raise e => (all_info, Raise e)
  | Ok (expname, ccd, key) =>
      let (all_info, info) := _get_piff_info env conf all_info expname ccd in
      (all_info,
       info ← info ;;;
       match info with
       | None => Ok (None, PSF_IN_BLACKLIST)
       | Some info =>
           if negb (flag info =? 0) || (ccdnum info =? 31) then
             Ok (None, PSF_IN_BLACKLIST)
           else
             psf_path ← _get_piff_path env info ;;;
             if negb (path_exists env psf_path) then
               Raise (MissingDataError ("missing psf file: " ++ psf_path))
             else
               Ok (Some (PIFF (PIFFWrapper.__init__ env psf_path
                                 (psfs_stamp_size conf))), 0)
       end)
  end.

(** *** PSF objects of a band *)

(** The state of the loop of [_get_psf_objects]: the flags of the band
    ([self.all_image_flags[band]]), [psf_list], [nflagged] and the PIFF
    cache. *)
Record psf_loop : Type := {
  band_flags : list Z;
  psf_list : list (option psf_object);
  nflagged : Z;
  piff_infos : piff_cache
}.

(** The loop body, lines 654-685, for image [i] with path entry [path]. *)
Definition psf_step (env : environment) (conf : config)
    (psfex : psfex_loader) (st : psf_loop) (i : nat) (path : string)
  : result psf_loop :=
  flags ← index (band_flags st) i ;;;
  if (i =? 0)%nat && negb (fit_coadd_galaxy conf) then
    Ok {| band_flags := alter (λ f, Z.lor f 1) i (band_flags st);
          psf_list := psf_list st ++ [None];
          nflagged := nflagged st; piff_infos := piff_infos st |}
  else if Z.land flags (image_flags2check conf) =? 0 then
    let impath := strip path in
    let (cache, loaded) :=
      if String.eqb (psfs_type conf) "piff"
      then _get_piff_object env conf (piff_infos st) impath
      else (piff_infos st, psfex i impath) in
    r ← loaded ;;;
    let psf_obj := r.1 in
    let psf_flags := r.2 in
    if negb (psf_flags =? 0) then
      Ok {| band_flags := alter (λ f, Z.lor f psf_flags) i (band_flags st);
            psf_list := psf_list st ++ [psf_obj];
            nflagged := nflagged st + 1; piff_infos := cache |}
    else
      Ok {| band_flags := band_flags st;
            psf_list := psf_list st ++ [psf_obj];
            nflagged := nflagged st; piff_infos := cache |}
  else
    Ok {| band_flags := band_flags st;
          psf_list := psf_list st ++ [None];
          nflagged := nflagged st; piff_infos := piff_infos st |}.

Fixpoint psf_steps (env : environment) (conf : config)
    (psfex : psfex_loader) (st : psf_loop) (i : nat) (paths : list string)
  : result psf_loop :=
  match paths with
  | [] => Ok st
  | path :: rest =>
      st ← psf_step env conf psfex st i path ;;;
      psf_steps env conf psfex st (S i) rest
  end.

(** [_get_psf_objects(meds, band)], lines 641-688: [image_path] is the
    column of the image info table, [flags] the entry of the band in
    [self.all_image_flags]. *)
Definition _get_psf_objects (env : environment) (conf : config)
    (psfex : psfex_loader) (cache : piff_cache)
    (image_path : list string) (flags : list Z) : result psf_loop :=
  psf_steps env conf psfex
    {| band_flags := flags; psf_list := []; nflagged := 0;
       piff_infos := cache |}
    0 image_path.

(** *** PSF trimming *)

(** [_trim_psf(im, cen)], lines 374-395, with [dims] the configured
    [conf['trim_psf']['dims']]. *)
Definition _trim_psf (dims : Q * Q) (im : farray) (cen : Q * Q)
  : farray * (Q * Q) :=
  let rowstart := int_of_float (cen.1 - dims.1 / 2 + 0.5)%Q in
  let rowend := int_of_float (cen.1 + dims.1 / 2 + 0.5)%Q in
  let colstart := int_of_float (cen.2 - dims.2 / 2 + 0.5)%Q in
  let colend := int_of_float (cen.2 + dims.2 / 2 + 0.5)%Q in
  let newim := py_slice2 im rowstart rowend colstart colend in
  let newcen := cen in
  let newcen := (cen.1 - inject_Z rowstart, newcen.2)%Q in
  let newcen := (newcen.1, cen.2 - inject_Z rowstart)%Q in
  (newim, newcen).

(** [_get_psf_image], lines 369-370: the PSF of a single-epoch cutout is
    trimmed when [trim_psf] is configured. *)
Definition trim_if_configured (conf : config) (icut : Z) (im : farray)
    (cen : Q * Q) : farray * (Q * Q) :=
  match trim_psf_dims conf with
  | Some dims => if 0 <? icut then _trim_psf dims im cen else (im, cen)
  | None => (im, cen)
  end.

(** [_get_psf_image(band, mindex, icut)], lines 340-372, for a PSF type
    other than 'infile' and 'psfex' and the PIFF wrapper [psf_obj] of the
    image: the image, its centre, [sigma_pix] and the file name, and the
    wrapper with its cache. *)
Definition _get_psf_image (env : environment) (conf : config)
    (sqrt : Q → Q) (m : meds_object) (psf_obj : PIFFWrapper.t) (icut : Z)
  : PIFFWrapper.t * result (farray * (Q * Q) * Q * string) :=
  let row := orig_row m icut in
  let col := orig_col m icut in
  let rec := PIFFWrapper.get_rec env psf_obj row col in
  let im := rec.2 in
  let got := PIFFWrapper.get_center env rec.1 row col in
  (got.1,
   cen ← got.2 ;;;
   let sigma_pix := PIFFWrapper.get_sigma sqrt in
   let trimmed := trim_if_configured conf icut im cen in
   Ok (trimmed.1, trimmed.2, sigma_pix, PIFFWrapper.filename got.1)).

(** *** Flux and surface brightness *)

(** [obs.set_image(image, update_pixels=False)]. *)
Definition set_image (obs : Observation) (im : farray) : Observation :=
  {| image := im; weight := weight obs; weight_raw := weight_raw obs;
     weight_us := weight_us obs; weight_orig := weight_orig obs;
     seg := seg obs; jacobian := jacobian obs; psf := psf obs;
     meta_flags := meta_flags obs; meta_icut := meta_icut obs |}.

(** [obs.set_weight(weight)]: ngmix may reject the weight map with a
    [GMixFatalError]. *)
Definition set_weight (env : environment) (obs : Observation) (w : farray)
  : result Observation :=
  match set_weight_error env w with
  | Some msg => Raise (GMixFatalError msg)
  | None =>
      Ok {| image := image obs; weight := w; weight_raw := weight_raw obs;
            weight_us := weight_us obs; weight_orig := weight_orig obs;
            seg := seg obs; jacobian := jacobian obs; psf := psf obs;
            meta_flags := meta_flags obs; meta_icut := meta_icut obs |}
  end.

(** The [try] block, lines 274-284 and 303-313. *)
Definition set_image_and_weight (env : environment) (obs : Observation)
    (im w : farray) : result Observation :=
  let obs := set_image obs im in
  match set_weight env obs w with
  | Raise (GMixFatalError err) =>
      w ← setitem2 w 0 0 1%Q ;;;
      set_weight env obs w
  | r => r
  end.

(** [if obs.w is not None: obs.w op= pixel_scale4], lines 286-289 and
    315-318. *)
Definition scale_attr (f : Q → Q) (w : attr farray) : result (attr farray) :=
  match w with
  | Missing => Raise AttributeError
  | PyNone => Ok PyNone
  | Val a => Ok (Val (amap f a))
  end.

(** The body of the two conversion loops, lines 267-289 and 296-318; the
    loops differ in the two operators only ([*] and [/] for surface
    brightness to flux, [/] and [*] for flux to surface brightness).  For a
    zero pixel scale numpy divides to inf or nan; here [x / 0] is 0. *)
Definition convert_obs (env : environment) (op_image op_weight : Q → Q → Q)
    (obs : Observation) : result Observation :=
  if meta_flags obs =? 0 then
    let pixel_scale2 := Qpower (scale (jacobian obs)) 2 in
    let pixel_scale4 := (pixel_scale2 * pixel_scale2)%Q in
    let im := amap (λ x, op_image x pixel_scale2) (image obs) in
    let w := amap (λ x, op_weight x pixel_scale4) (weight obs) in
    obs ← set_image_and_weight env obs im w ;;;
    w_raw ← scale_attr (λ x, op_weight x pixel_scale4) (weight_raw obs) ;;;
    w_us ← scale_attr (λ x, op_weight x pixel_scale4) (weight_us obs) ;;;
    Ok {| image := image obs; weight := weight obs; weight_raw := w_raw;
          weight_us := w_us; weight_orig := weight_orig obs;
          seg := seg obs; jacobian := jacobian obs; psf := psf obs;
          meta_flags := meta_flags obs; meta_icut := meta_icut obs |}
  else Ok obs.

Definition to_flux (env : environment) : Observation → result Observation :=
  convert_obs env Qmult Qdiv.
Definition to_surface_brightness (env : environment)
  : Observation → result Observation :=
  convert_obs env Qdiv Qmult.

(** [_get_band_observations(band, mindex)], lines 246-320, on the two
    lists that the base class returns. *)
Definition _get_band_observations (env : environment) (conf : config)
    (coadd_obs_list obs_list : list Observation)
  : result (list Observation * list Observation) :=
  let imtype := image_type conf in
  let fitter := fitter_type conf in
  if String.eqb imtype "surface_brightness" && contains "galsim" fitter then
    c ← for_each (to_flux env) coadd_obs_list ;;;
    o ← for_each (to_flux env) obs_list ;;;
    Ok (c, o)
  else if negb (String.eqb imtype "surface_brightness")
          && negb (contains "galsim" fitter) then
    c ← for_each (to_surface_brightness env) coadd_obs_list ;;;
    o ← for_each (to_surface_brightness env) obs_list ;;;
    Ok (c, o)
  else Ok (coadd_obs_list, obs_list).

(** A weight attribute with [f] applied to the array it holds, if any. *)
Definition attr_map (f : farray → farray) (w : attr farray) : attr farray :=
  match w with
  | Val a => Val (f a)
  | PyNone => PyNone
  | Missing => Missing
  end.

(** What the conversion loop does with an observation once its image and
    weight are set: the two optional weight maps are scaled. *)
Definition scale_weights (f : Q → Q) (obs : Observation)
  : result Observation :=
  w_raw ← scale_attr f (weight_raw obs) ;;;
  w_us ← scale_attr f (weight_us obs) ;;;
  Ok {| image := image obs; weight := weight obs; weight_raw := w_raw;
        weight_us := w_us; weight_orig := weight_orig obs;
        seg := seg obs; jacobian := jacobian obs; psf := psf obs;
        meta_flags := meta_flags obs; meta_icut := meta_icut obs |}.

(** Equality of a weight attribute before and after, entry by entry. *)
Definition attr_eq (w w' : attr farray) : Prop :=
  match w, w' with
  | Missing, Missing => True
  | PyNone, PyNone => True
  | Val a, Val a' => farray_eq a a'
  | _, _ => False
  end.

(** Vocabulary for the conversion of an observation [obs] into [obs']:
    the attributes that no conversion touches, and the signal-to-noise
    ratio of the pixels other than (0, 0), as [image^2 * weight]. *)
Definition same_frame (obs obs' : Observation) : Prop :=
  seg obs' = seg obs ∧ jacobian obs' = jacobian obs ∧ psf obs' = psf obs
  ∧ meta_flags obs' = meta_flags obs ∧ meta_icut obs' = meta_icut obs
  ∧ weight_orig obs' = weight_orig obs.
Definition s2n_kept (obs obs' : Observation) : Prop :=
  ∀ i j x w, (i, j) ≠ (0, 0)%nat →
    get2 (image obs) i j = Some x → get2 (weight obs) i j = Some w →
    ∃ x' w', get2 (image obs') i j = Some x'
             ∧ get2 (weight obs') i j = Some w'
             ∧ (x' * x' * w' == x * x * w)%Q.
Definition converted (obs obs' : Observation) : Prop :=
  same_frame obs obs'
  ∧ (meta_flags obs ≠ 0 → obs' = obs)
  ∧ (¬ (scale (jacobian obs) == 0)%Q → s2n_kept obs obs').

End SVDESMEDSImageIO.

Module Y1DESMEDSImageIO.

(** [_set_propagate_saturated_stars], lines 821-826: the ignore mask is the
    sum of the map entries of the configured flag names. *)
Fixpoint ignore_when_set_mask (flag_list : list string) : result Z :=
  match flag_list with
  | [] => Ok 0
  | flag :: rest =>
      match dict_get DESY3_BADPIX_MAP flag with
      | None => Raise KeyError
      | Some b => m ← ignore_when_set_mask rest ;;; Ok (b + m)
      end
  end.

(** Lines 1092-1104: the per-pixel condition under [numpy.where].  In
    Python [&] binds tighter than [!=] and [==]. *)
Definition is_sat_or_interp (v : Z) : bool :=
  negb (Z.land v (BADPIX "SATURATE") =? 0)
  || negb (Z.land v (BADPIX "INTERP") =? 0).
Definition is_bright_star (v : Z) : bool :=
  negb (Z.land v (BADPIX "STAR") =? 0).
Definition not_other_bits (msk v : Z) : bool :=
  Z.land v msk =? 0.
Definition keep_pixel (msk v : Z) : bool :=
  is_sat_or_interp v && is_bright_star v && not_other_bits msk v.

(** The pixel condition in terms of the bits of the pixel value:
    (SATURATE or INTERP) and STAR and no bit of the ignore mask. *)
Definition star_saturation_bits (msk v : Z) : Prop :=
  (Z.testbit v 1 = true ∨ Z.testbit v 2 = true)
  ∧ Z.testbit v 5 = true
  ∧ ∀ k, 0 ≤ k → Z.testbit msk k = true → Z.testbit v k = false.

(** Lines 1098-1107: [q = where(...)], [im1[:,:] = 0], [im1[q] = 1]. *)
Definition reduce_mask (msk : Z) (im1 : iarray) : iarray :=
  let q := where2 (keep_pixel msk) im1 in
  let im1 := fill2 0 im1 in
  set_where im1 q 1.

(** [_interpolate_maskbits(iobj, m1, icutout1, m2, icutout2)]; the
    assertion on the object ids compares [m1['id'][iobj]] with
    [m2['id'][iobj]], given here as [id1] and [id2]. *)
Definition _interpolate_maskbits (interp : interpolator) (msk : Z)
    (id1 id2 : Z) (m1 : meds_object) (icutout1 : Z)
    (m2 : meds_object) (icutout2 : Z) : result iarray :=
  let rowcen1 := cutout_row m1 icutout1 in
  let colcen1 := cutout_col m1 icutout1 in
  let jacob1 := get_jacobian_matrix m1 icutout1 in
  let rowcen2 := cutout_row m2 icutout2 in
  let colcen2 := cutout_col m2 icutout2 in
  let jacob2 := get_jacobian_matrix m2 icutout2 in
  let im1 := get_cutout_bmask m1 icutout1 in
  let im2 := get_cutout_bmask m2 icutout2 in
  let im2 := fill2 0 im2 in
  let im1 := reduce_mask msk im1 in
  if id1 =? id2 then
    Ok (interp rowcen1 colcen1 jacob1 im1 rowcen2 colcen2 jacob2 im2)
  else Raise AssertionError.

(** [_expand_mask], lines 1157-1179.  The innermost body sets
    [cbmask[iix, iiy] = 1] and appends the pixel to [qx], [qy]. *)
Definition expand_dy (shp : Z * Z) (iix iy : Z)
    (st : iarray * list (Z * Z)) (dy : Z) : iarray * list (Z * Z) :=
  let iiy := iy + dy in
  if (0 <=? iiy) && (iiy <? shp.2) then
    (set2 st.1 (Z.to_nat iix) (Z.to_nat iiy) 1, st.2 ++ [(iix, iiy)])
  else st.

Definition expand_dx (shp : Z * Z) (ix iy : Z)
    (st : iarray * list (Z * Z)) (dx : Z) : iarray * list (Z * Z) :=
  let iix := ix + dx in
  if (0 <=? iix) && (iix <? shp.1) then
    foldl (expand_dy shp iix iy) st [-1; 0; 1]
  else st.

Definition expand_pixel (shp : Z * Z)
    (st : iarray * list (Z * Z)) (p : Z * Z) : iarray * list (Z * Z) :=
  foldl (expand_dx shp p.1 p.2) st [-1; 0; 1].

(** One pass of the [for r in xrange(rounds)] loop: from the mask and the
    previous pixel list to the mask and the new pixel list. *)
Definition expand_round (shp : Z * Z) (cbmask : iarray)
    (q_prev : list (Z * Z)) : iarray * list (Z * Z) :=
  foldl (expand_pixel shp) (cbmask, []) q_prev.

Fixpoint expand_rounds (shp : Z * Z) (rounds : nat) (cbmask : iarray)
    (q_prev : list (Z * Z)) : iarray :=
  match rounds with
  | O => cbmask
  | S r =>
      let st := expand_round shp cbmask q_prev in
      expand_rounds shp r st.1 st.2
  end.

Definition nonzero_pixels (a : iarray) : list (Z * Z) :=
  (λ p : nat * nat, (Z.of_nat p.1, Z.of_nat p.2))
    <$> where2 (λ v, negb (v =? 0)) a.

Definition _expand_mask (bmask : iarray) (rounds : nat) : iarray :=
  let cbmask := bmask in
  expand_rounds (shape bmask) rounds cbmask (nonzero_pixels cbmask).

(** [if hasattr(obs, name): obs.name[q] = 0.0], lines 1217-1227. *)
Definition zero_attr (w : attr farray) (q : list (nat * nat))
  : result (attr farray) :=
  match w with
  | Missing => Ok Missing
  | PyNone => Raise TypeError
  | Val a => a' ← assign_where a q 0%Q ;;; Ok (Val a')
  end.

(** Lines 1192-1211: the coadd-frame mask [bmask] of the band, reprojected
    into the cutout of [obs] and dilated by two rounds. *)
Definition dilated_mask (interp : interpolator) (m : meds_object)
    (bmask : iarray) (obs : Observation) : iarray :=
  let icut := meta_icut obs in
  let rowcen1 := cutout_row m 0 in
  let colcen1 := cutout_col m 0 in
  let jacob1 := get_jacobian_matrix m 0 in
  let rowcen2 := cutout_row m icut in
  let colcen2 := cutout_col m icut in
  let jacob2 := get_jacobian_matrix m icut in
  let bmaski := get_cutout_bmask m 0 in
  let bmaski := fill2 0 bmaski in
  let bmaski :=
    interp rowcen1 colcen1 jacob1 bmask rowcen2 colcen2 jacob2 bmaski in
  _expand_mask bmaski 2.

(** The body of the inner loop of [_prop_extra_bitmasks], lines
    1190-1227, for one observation. *)
Definition prop_obs (interp : interpolator) (m : meds_object)
    (bmask : iarray) (obs : Observation) : result Observation :=
  if meta_flags obs =? 0 then
    let bmaski := dilated_mask interp m bmask obs in
    cond ← zip2 (λ b s, negb (b =? 0) && (s =? 0)) bmaski (seg obs) ;;;
    let q := where2 (λ c : bool, c) cond in
    if (0 <? Z.of_nat (length q)) then
      w_raw ← zero_attr (weight_raw obs) q ;;;
      w_us ← zero_attr (weight_us obs) q ;;;
      w ← assign_where (weight obs) q 0%Q ;;;
      w_orig ← zero_attr (weight_orig obs) q ;;;
      Ok {| image := image obs; weight := w; weight_raw := w_raw;
            weight_us := w_us; weight_orig := w_orig; seg := seg obs;
            jacobian := jacobian obs; psf := psf obs;
            meta_flags := meta_flags obs; meta_icut := meta_icut obs |}
    else Ok obs
  else Ok obs.

(** [_prop_extra_bitmasks(bmasks, mb_obs_list)]: every observation of every
    band is updated in place; the result is the list of updated
    observations. *)
Definition prop_band (interp : interpolator) (meds_list : list meds_object)
    (bmasks : list iarray) (band_obs : nat * list Observation)
  : result (list Observation) :=
  match meds_list !! band_obs.1 with
  | None => Raise IndexError
  | Some m =>
      match bmasks !! band_obs.1 with
      | None => Raise IndexError
      | Some bmask => for_each (prop_obs interp m bmask) band_obs.2
      end
  end.

Definition _prop_extra_bitmasks (interp : interpolator)
    (meds_list : list meds_object) (bmasks : list iarray)
    (mb_obs_list : list (list Observation))
  : result (list (list Observation)) :=
  for_each (prop_band interp meds_list bmasks) (imap pair mb_obs_list).

(** The relation between a weight attribute before and after: absent stays
    absent, an array stays an array and the two are related by [R]. *)
Definition attr_rel (R : farray → farray → Prop) (w w' : attr farray)
  : Prop :=
  match w, w' with
  | Missing, Missing => True
  | Val a, Val a' => R a a'
  | _, _ => False
  end.

(** Every weight variant of [obs'] is related by [R] to that of [obs]. *)
Definition weights_rel (R : farray → farray → Prop) (obs obs' : Observation)
  : Prop :=
  R (weight obs) (weight obs')
  ∧ attr_rel R (weight_raw obs) (weight_raw obs')
  ∧ attr_rel R (weight_us obs) (weight_us obs')
  ∧ attr_rel R (weight_orig obs) (weight_orig obs').

(** Vocabulary for what the propagation may do to an observation: a
    weight map keeps its shape and each pixel is kept or set to zero;
    nothing else changes; a flagged observation is not touched. *)
Definition kept_or_zeroed (a a' : farray) : Prop :=
  length <$> a' = length <$> a
  ∧ ∀ i j, get2 a' i j = get2 a i j ∨ get2 a' i j = Some 0%Q.
Definition attr_masked (w w' : attr farray) : Prop :=
  match w, w' with
  | Missing, Missing => True
  | PyNone, PyNone => True
  | Val a, Val a' => kept_or_zeroed a a'
  | _, _ => False
  end.
Definition masked (obs obs' : Observation) : Prop :=
  image obs' = image obs ∧ seg obs' = seg obs
  ∧ jacobian obs' = jacobian obs ∧ psf obs' = psf obs
  ∧ meta_flags obs' = meta_flags obs ∧ meta_icut obs' = meta_icut obs
  ∧ kept_or_zeroed (weight obs) (weight obs')
  ∧ attr_masked (weight_raw obs) (weight_raw obs')
  ∧ attr_masked (weight_us obs) (weight_us obs')
  ∧ attr_masked (weight_orig obs) (weight_orig obs')
  ∧ (meta_flags obs ≠ 0 → obs' = obs).

(** A weight variant that is present has the shape of [d]. *)
Definition attr_shape (d : iarray) (w : attr farray) : Prop :=
  match w with
  | Missing => True
  | PyNone => False
  | Val a => same_shape d a = true
  end.

(** Vocabulary for the dilation: a pixel inside the array, a pixel within
    Chebyshev distance [r] of another, and [a[p]] at integer indices. *)
Definition in_bounds (shp p : Z * Z) : Prop :=
  0 ≤ p.1 < shp.1 ∧ 0 ≤ p.2 < shp.2.
Definition near (r : Z) (p s : Z * Z) : Prop :=
  Z.abs (p.1 - s.1) ≤ r ∧ Z.abs (p.2 - s.2) ≤ r.
Definition pixel (a : iarray) (p : Z * Z) : option Z :=
  get2 a (Z.to_nat p.1) (Z.to_nat p.2).

(** The pixels one source pixel reaches, in the order the two inner loops
    visit them, and the effect of visiting a list of pixels. *)
Definition neighbours (shp p : Z * Z) : list (Z * Z) :=
  dx ← [-1; 0; 1];
  if (0 <=? p.1 + dx) && (p.1 + dx <? shp.1) then
    dy ← [-1; 0; 1];
    if (0 <=? p.2 + dy) && (p.2 + dy <? shp.2) then [(p.1 + dx, p.2 + dy)]
    else []
  else [].
Definition visit (st : iarray * list (Z * Z)) (q : Z * Z)
  : iarray * list (Z * Z) :=
  (set2 st.1 (Z.to_nat q.1) (Z.to_nat q.2) 1, st.2 ++ [q]).

(** *** Off-chip neighbours *)

(** The sky side of the placement: the WCS of the coadd ([None] when its
    file was missing), [util.radec_to_unitvecs_ruv] and [numpy.pi]. *)
Record sky : Type := {
  coadd_wcs : Z → option (Q → Q → Q * Q);
  radec_to_unitvecs_ruv : Q → Q → (Q * Q * Q) * (Q * Q * Q) * (Q * Q * Q);
  numpy_pi : Q
}.

Definition dot3 (a b : Q * Q * Q) : Q :=
  (a.1.1 * b.1.1 + a.1.2 * b.1.2 + a.2 * b.2)%Q.

(** Lines 990-1008: the offset of the neighbour from the central object in
    the tangent plane of the central object, in arcsec. *)
Definition uv_offset (s : sky) (image2sky : Q → Q → Q * Q)
    (cen nbr : meds_object) : Q * Q :=
  let row_cen := orig_row cen 0 in
  let col_cen := orig_col cen 0 in
  let radec_cen := image2sky (col_cen + 1)%Q (row_cen + 1)%Q in
  let row_nbr := orig_row nbr 0 in
  let col_nbr := orig_col nbr 0 in
  let radec_nbr := image2sky (col_nbr + 1)%Q (row_nbr + 1)%Q in
  let ruv_cen := radec_to_unitvecs_ruv s radec_cen.1 radec_cen.2 in
  let ruv_nbr := radec_to_unitvecs_ruv s radec_nbr.1 radec_nbr.2 in
  let rhat_cen := ruv_cen.1.1 in
  let uhat_cen := ruv_cen.1.2 in
  let vhat_cen := ruv_cen.2 in
  let rhat_nbr := ruv_nbr.1.1 in
  let cosang := dot3 rhat_cen rhat_nbr in
  let u_nbr :=
    (dot3 rhat_nbr uhat_cen / cosang / numpy_pi s * 180 * 60 * 60)%Q in
  let v_nbr :=
    (dot3 rhat_nbr vhat_cen / cosang / numpy_pi s * 180 * 60 * 60)%Q in
  (u_nbr, v_nbr).

(** [numpy.linalg.inv] of a 2x2 matrix [[a, b], [c, d]], in exact
    arithmetic; a singular matrix raises [LinAlgError]. *)
Definition inv2 (a b c d : Q) : result (Q * Q * (Q * Q)) :=
  let det := (a * d - b * c)%Q in
  if Qeq_bool det 0 then Raise LinAlgError
  else Ok ((d / det, - b / det), (- c / det, a / det))%Q.

(** [numpy.dot(M, x)] for a 2x2 matrix and a 2-vector. *)
Definition dot2 (M : Q * Q * (Q * Q)) (x : Q * Q) : Q * Q :=
  (M.1.1 * x.1 + M.1.2 * x.2, M.2.1 * x.1 + M.2.2 * x.2)%Q.

(** [_get_offchip_nbr_psf_obs_and_jac], lines 978-1030, for the central
    object [cen] and the neighbour [nbr] in one band; [(None, None)] is
    [None]. *)
Definition _get_offchip_nbr_psf_obs_and_jac (s : sky)
    (cen nbr : meds_object) (cen_obs : Observation)
  : result (option (psf_observation * Jacobian)) :=
  if ncutout nbr =? 0 then Ok None
  else if negb (file_id cen 0 =? file_id nbr 0) then Raise AssertionError
  else
    match coadd_wcs s (file_id cen 0) with
    | None => Raise AttributeError
    | Some image2sky =>
        let uv_nbr := uv_offset s image2sky cen nbr in
        let J := jacobian cen_obs in
        Jinv ← inv2 (dudrow J) (dudcol J) (dvdrow J) (dvdcol J) ;;;
        let cen0 := get_cen J in
        let rowcol_nbr :=
          ((dot2 Jinv uv_nbr).1 + cen0.1, (dot2 Jinv uv_nbr).2 + cen0.2)%Q in
        let J_nbr := set_cen J rowcol_nbr.1 rowcol_nbr.2 in
        Ok (Some (psf cen_obs, J_nbr))
    end.

(** *** The combined mask of an object *)

(** A loop whose body updates an accumulator and may raise. *)
Fixpoint fold_result {A B} (f : A → B → result A) (acc : A) (l : list B)
  : result A :=
  match l with
  | [] => Ok acc
  | x :: l' => acc ← f acc x ;;; fold_result f acc l'
  end.

(** [bmask |= x] on arrays of one shape: the cutouts of one object in one
    MEDS file, as for [zip2]. *)
Definition or_into (bmask x : iarray) : result iarray :=
  zip2 Z.lor bmask x.

(** [numpy.zeros((n, n)).astype('i4')] *)
Definition zeros2 (n : Z) : result iarray :=
  if n <? 0 then Raise ValueError
  else Ok (replicate (Z.to_nat n) (replicate (Z.to_nat n) 0)).

(** Lines 1143-1151 for one observation of band [band]: its star mask is
    reduced, reprojected into the coadd cutout of the target band [mt] and
    ORed into [bmask].  [marr] lists the MEDS files with the id each gives
    the object. *)
Definition add_obs_mask (interp : interpolator) (msk : Z)
    (marr : list (Z * meds_object)) (idt : Z) (mt : meds_object)
    (band : nat) (bmask : iarray) (obs : Observation) : result iarray :=
  if meta_flags obs =? 0 then
    m ← index marr band ;;;
    bmaski ← _interpolate_maskbits interp msk m.1 idt m.2 (meta_icut obs)
               mt 0 ;;;
    or_into bmask bmaski
  else Ok bmask.

(** The body of the loop over target bands, lines 1136-1153. *)
Definition extra_bitmask (interp : interpolator) (msk : Z)
    (marr : list (Z * meds_object))
    (coadd_mb_obs_list mb_obs_list : list (list Observation))
    (bandt : nat) (t : Z * meds_object) : result iarray :=
  let mt := t.2 in
  bmask ← zeros2 (box_size mt) ;;;
  coadd_list ← index coadd_mb_obs_list bandt ;;;
  bmask ←
    (match coadd_list with
     | obs0 :: _ =>
         if meta_flags obs0 =? 0 then or_into bmask (get_cutout_bmask mt 0)
         else Ok bmask
     | [] => Ok bmask
     end) ;;;
  fold_result
    (λ bmask (b : nat * list Observation),
       fold_result (add_obs_mask interp msk marr t.1 mt b.1) bmask b.2)
    bmask (imap pair mb_obs_list).

(** [_get_extra_bitmasks(coadd_mb_obs_list, mb_obs_list)], lines
    1130-1155. *)
Definition _get_extra_bitmasks (interp : interpolator) (msk : Z)
    (marr : list (Z * meds_object))
    (coadd_mb_obs_list mb_obs_list : list (list Observation))
  : result (list iarray) :=
  for_each
    (λ t : nat * (Z * meds_object),
       extra_bitmask interp msk marr coadd_mb_obs_list mb_obs_list t.1 t.2)
    (imap pair marr).

(** Bit [k] of pixel [(i, j)] of a mask is set. *)
Definition bit_set (a : iarray) (i j : nat) (k : Z) : Prop :=
  ∃ v, get2 a i j = Some v ∧ Z.testbit v k = true.

(** An unflagged observation of [mb_obs_list] whose reduced star mask,
    reprojected into the coadd cutout of the target band, has bit [k] of
    pixel [(i, j)] set. *)
Definition mask_contribution (interp : interpolator) (msk : Z)
    (marr : list (Z * meds_object)) (idt : Z) (mt : meds_object)
    (mb_obs_list : list (list Observation)) (i j : nat) (k : Z) : Prop :=
  ∃ band obs_list obs m im,
    mb_obs_list !! band = Some obs_list ∧ obs ∈ obs_list
    ∧ meta_flags obs = 0 ∧ marr !! band = Some m
    ∧ _interpolate_maskbits interp msk m.1 idt m.2 (meta_icut obs) mt 0
      = Ok im
    ∧ bit_set im i j k.

(** *** Segmentation maps that touch a masked stellar halo *)







End Y1DESMEDSImageIO.

(** ** Example data *)

Module Examples.

(** A resampler for cutouts that share one pixel grid: the destination
    receives the source image. *)
Definition same_grid : interpolator :=
  λ _ _ _ im1 _ _ _ _, im1.

Definition unit_jacobian_matrix : jacobian_matrix :=
  {| jm_dudrow := 1; jm_dudcol := 0; jm_dvdrow := 0; jm_dvdcol := 1 |}.

(** Object number 3 with a coadd cutout and one single-epoch cutout, each
    one row of four pixels. *)
Definition meds3 : meds_object :=
  {| number := 3; ncutout := 2; box_size := 4;
     file_id := λ icut, icut;
     orig_row := λ _, 100%Q; orig_col := λ _, 200%Q;
     cutout_row := λ _, 0%Q; cutout_col := λ _, 1%Q;
     get_jacobian_matrix := λ _, unit_jacobian_matrix;
     get_cutout_bmask := λ _, [[34; 0; 0; 0]] |}.

Definition unit_jacobian : Jacobian :=
  {| row0 := 0; col0 := 1; dudrow := 1; dudcol := 0; dvdrow := 0;
     dvdcol := 1; scale := 1 |}.

Definition psf0 : psf_observation :=
  {| psf_image := [[1%Q]]; psf_filename := "psf.fits" |}.

(** An observation whose segmentation map has background at pixel 0, the
    object itself (3) at pixel 1 and another object (7) at pixel 2. *)
Definition obs3 : Observation :=
  {| image := [[1; 2; 3; 4]]%Q;
     weight := [[5; 5; 5; 5]]%Q;
     weight_raw := Val [[6; 6; 6; 6]]%Q;
     weight_us := Missing;
     weight_orig := Val [[5; 5; 5; 5]]%Q;
     seg := [[0; 3; 7; 0]];
     jacobian := unit_jacobian;
     psf := psf0;
     meta_flags := 0;
     meta_icut := 1 |}.

(** The combined coadd-frame mask of the band: one flagged pixel. *)
Definition bmask3 : iarray := [[1; 0; 0; 0]].


Definition meds_1x1 : meds_object :=
  {| number := 3; ncutout := 2; box_size := 1;
     file_id := λ icut, icut;
     orig_row := λ _, 100%Q; orig_col := λ _, 200%Q;
     cutout_row := λ _, 0%Q; cutout_col := λ _, 0%Q;
     get_jacobian_matrix := λ _, unit_jacobian_matrix;
     get_cutout_bmask := λ icut, if icut =? 0 then [[1]] else [[34]] |}.

Definition obs_1x1 : Observation :=
  {| image := [[1]]%Q; weight := [[5]]%Q;
     weight_raw := Val [[6]]%Q; weight_us := PyNone;
     weight_orig := Missing; seg := [[3]];
     jacobian := unit_jacobian; psf := psf0;
     meta_flags := 0; meta_icut := 1 |}.

(** [int(s)] on strings of decimal digits. *)
Fixpoint digits (s : string) (acc : Z) : option Z :=
  match s with
  | EmptyString => Some acc
  | String c s' =>
      let n := nat_of_ascii c in
      if (48 <=? n)%nat && (n <=? 57)%nat
      then digits s' (10 * acc + Z.of_nat (n - 48))
      else None
  end.
Definition decimal (s : string) : option Z :=
  match s with
  | EmptyString => None
  | _ => digits s 0
  end.

(** A constant 3x3 PIFF model, and an environment with one exposure
    summary file, listing CCDs 30 to 33, and the model file of CCD 30 on
    disk.  Floats print as fractions in lowest terms, and ngmix rejects a
    weight map with no positive entry. *)
Definition flat_model : piff_model :=
  λ _ _ _, [[1; 1; 1]; [1; 1; 1]; [1; 1; 1]]%Q.

Definition summary243626 : list piff_info :=
  [ {| ccdnum := 30; flag := 0;
       piff_file := "/old/base/y3/243626/D00243626_i_c30_piff.fits" |};
    {| ccdnum := 31; flag := 0;
       piff_file := "/old/base/y3/243626/D00243626_i_c31_piff.fits" |};
    {| ccdnum := 32; flag := 0;
       piff_file := "/old/base/y3/243626/D00243626_i_c32_piff.fits" |};
    {| ccdnum := 33; flag := 1;
       piff_file := "/old/base/y3/243626/D00243626_i_c33_piff.fits" |} ].

Definition env0 : environment :=
  {| path_exists := λ p,
       String.eqb p "/piff/run1/243626/exp_psf_cat_243626.fits"
       || String.eqb p "/data/y3/243626/D00243626_i_c30_piff.fits";
     fitsio_read_info := λ _, summary243626;
     get_piff_exp_summary_file := λ run expnum,
       if expnum =? 243626
       then "/piff/run1/243626/exp_psf_cat_243626.fits"
       else "/piff/run1/other/exp_psf_cat_other.fits";
     PIFF_DATA_DIR := Some "/data";
     int_of_string := decimal;
     piff_read := λ _, flat_model;
     format_g16 := λ q,
       let r := Qred q in
       if (Qden r =? 1)%positive then pretty (Qnum r)
       else (pretty (Qnum r) ++ "/" ++ pretty (Z.pos (Qden r)))%string;
     set_weight_error := λ w,
       if forallb (forallb (λ x, Qle_bool x 0)) w
       then Some "no weight > 0" else None |}.

Definition conf0 : config :=
  {| image_flags2check := 3;
     fit_coadd_galaxy := false;
     replacement_flags := None;
     psfs_type := "piff";
     psfs_piff_run := "run1";
     psfs_allow_missing := false;
     psfs_stamp_size := 3;
     image_type := "surface_brightness";
     fitter_type := "galsimsimple";
     trim_psf_dims := Some (3, 3)%Q |}.

Definition no_replacement : flags_reader := λ _ names default,
  (λ _, default) <$> names.
Definition no_psfex : psfex_loader := λ _ path,
  Raise (MissingDataError ("missing psfex: " ++ path)).

(** A coadd WCS that is the identity on pixel coordinates, unit vectors
    of a flat sky patch, a neighbour 10 rows and 30 columns away, and a
    central observation whose Jacobian is [[1, 2], [3, 4]] about
    (16, 16). *)
Definition sky0 : Y1DESMEDSImageIO.sky :=
  {| Y1DESMEDSImageIO.coadd_wcs := λ _, Some (λ x y, (x, y));
     Y1DESMEDSImageIO.radec_to_unitvecs_ruv := λ ra dec,
       ((1, ra / 1000, dec / 1000), (0, 1, 0), (0, 0, 1))%Q;
     Y1DESMEDSImageIO.numpy_pi := (355 # 113)%Q |}.

Definition meds_nbr : meds_object :=
  {| number := 4; ncutout := 1; box_size := 4;
     file_id := λ icut, icut;
     orig_row := λ _, 110%Q; orig_col := λ _, 230%Q;
     cutout_row := λ _, 0%Q; cutout_col := λ _, 1%Q;
     get_jacobian_matrix := λ _, unit_jacobian_matrix;
     get_cutout_bmask := λ _, [[0; 0; 0; 0]] |}.

Definition obs_cen : Observation :=
  {| image := [[1; 2; 3; 4]]%Q;
     weight := [[5; 5; 5; 5]]%Q;
     weight_raw := Val [[6; 6; 6; 6]]%Q;
     weight_us := PyNone;
     weight_orig := Missing;
     seg := [[0; 3; 7; 0]];
     jacobian :=
       {| row0 := 16; col0 := 16; dudrow := 1; dudcol := 2; dvdrow := 3;
          dvdcol := 4; scale := 2 |};
     psf := psf0;
     meta_flags := 0;
     meta_icut := 1 |}.

(** An observation whose weight map has no positive entry. *)
Definition obs_zero_weight : Observation :=
  {| image := [[1; 2]]%Q;
     weight := [[0; 0]]%Q;
     weight_raw := Val [[6; 6]]%Q;
     weight_us := PyNone;
     weight_orig := Missing;
     seg := [[0; 3]];
     jacobian :=
       {| row0 := 0; col0 := 1; dudrow := 2; dudcol := 0; dvdrow := 0;
          dvdcol := 2; scale := 2 |};
     psf := psf0;
     meta_flags := 0;
     meta_icut := 1 |}.

Definition paths0 : list string :=
  [ "coadd/DES0001_r_coadd.fits.fz";
    "red/D00243626_i_c30_r2363p01_immasked.fits.fz   ";
    "red/D00243626_i_c31_r2363p01_immasked.fits.fz   ";
    "red/D00243626_i_c32_r2363p01_immasked.fits.fz   " ].

End Examples.

(** * Properties *)

(** ** Arrays *)

Section Array2_facts.
Context {A : Type}.
Implicit Types (a : list (list A)) (row : list A) (i j : nat) (v : A).

Lemma elem_of_where1 (P : A → bool) row j :
  j ∈ where1 P row ↔ ∃ x, row !! j = Some x ∧ P x = true.
Proof.
  unfold where1. rewrite list_elem_of_omap. split.
  - intros (o & Ho & Hid). simpl in Hid. subst o.
    apply elem_of_lookup_imap in Ho as (k & x & Hx & Hk).
    destruct (P x) eqn:HP; [|done]. simplify_eq. eauto.
  - intros (x & Hx & HP). exists (Some j). split; [|done].
    apply elem_of_lookup_imap. exists j, x. by rewrite HP.
Qed.

Lemma elem_of_where2 (P : A → bool) a i j :
  (i, j) ∈ where2 P a ↔ ∃ x, get2 a i j = Some x ∧ P x = true.
Proof.
  unfold where2, get2. rewrite list_elem_of_join. split.
  - intros (l & Hin & Hl).
    apply elem_of_lookup_imap in Hl as (k & row & -> & Hrow).
    apply list_elem_of_fmap in Hin as (j' & Heq & Hj'). simplify_eq.
    apply elem_of_where1 in Hj' as (x & Hx & HP).
    exists x. by rewrite Hrow.
  - intros (x & Hx & HP).
    destruct (a !! i) as [row|] eqn:Hrow; [|done]. simpl in Hx.
    exists ((λ j, (i, j)) <$> where1 P row). split.
    + apply list_elem_of_fmap. exists j. split; [done|].
      apply elem_of_where1. eauto.
    + apply elem_of_lookup_imap. eauto.
Qed.

Lemma get2_set2 a i j v i' j' :
  get2 (set2 a i j v) i' j' =
  if decide (i = i' ∧ j = j') then (λ _, v) <$> get2 a i j
  else get2 a i' j'.
Proof.
  unfold get2, set2. destruct (decide (i = i')) as [->|Hi].
  - rewrite list_lookup_alter_eq. destruct (a !! i') as [row|]; simpl.
    + destruct (decide (j = j')) as [->|Hj].
      * rewrite decide_True by done.
        destruct (row !! j') eqn:E.
        -- rewrite list_lookup_insert_eq; [done|]. by eapply lookup_lt_Some.
        -- rewrite list_insert_ge; [by rewrite E|]. by apply lookup_ge_None.
      * rewrite decide_False by (intros [_ ?]; done).
        by rewrite list_lookup_insert_ne.
    + by case_decide.
  - rewrite list_lookup_alter_ne by done.
    by rewrite decide_False by (intros [? _]; done).
Qed.

Lemma length_set2 a i j v : length (set2 a i j v) = length a.
Proof. apply length_alter. Qed.

Lemma rect_set2 m a i j v : rect m a → rect m (set2 a i j v).
Proof.
  unfold rect, set2. rewrite !Forall_lookup. intros H k row.
  destruct (decide (i = k)) as [->|Hne].
  - rewrite list_lookup_alter_eq. destruct (a !! k) eqn:E; [|done].
    simpl. intros [= <-]. rewrite length_insert. eauto.
  - rewrite list_lookup_alter_ne by done. eauto.
Qed.

Lemma get2_set_where a (q : list (nat * nat)) v i j :
  get2 (set_where a q v) i j =
  if decide ((i, j) ∈ q) then (λ _, v) <$> get2 a i j else get2 a i j.
Proof.
  unfold set_where. revert a. induction q as [|[pi pj] q IH]; intros a.
  - simpl. destruct (decide ((i, j) ∈ [])) as [H|H]; [|done].
    by apply not_elem_of_nil in H.
  - cbn [foldl]. rewrite IH, get2_set2. cbn [fst snd].
    destruct (decide ((i, j) ∈ (pi, pj) :: q)) as [Hin|Hnin];
      destruct (decide ((i, j) ∈ q)) as [Hq|Hq];
      destruct (decide (pi = i ∧ pj = j)) as [[-> ->]|Hne];
      try done.
    + by destruct (get2 a i j).
    + apply elem_of_cons in Hin as [?|?]; [|done]. naive_solver.
    + exfalso. apply Hnin. by right.
    + exfalso. apply Hnin. by right.
    + exfalso. apply Hnin. by left.
Qed.

Lemma length_set_where a (q : list (nat * nat)) v :
  length (set_where a q v) = length a.
Proof.
  unfold set_where. revert a. induction q as [|p q IH]; intros a; [done|].
  simpl. by rewrite IH, length_set2.
Qed.

Lemma get2_fill2 a v i j : get2 (fill2 v a) i j = (λ _, v) <$> get2 a i j.
Proof.
  unfold get2, fill2. rewrite list_lookup_fmap.
  destruct (a !! i) as [row|]; [|done]. simpl.
  by rewrite list_lookup_fmap.
Qed.

Lemma get2_lt m a i j x :
  rect m a → get2 a i j = Some x → (i < length a)%nat ∧ (j < m)%nat.
Proof.
  unfold rect, get2. intros Hr H.
  destruct (a !! i) as [row|] eqn:E; [|done]. simpl in H. split.
  - by eapply lookup_lt_Some.
  - rewrite Forall_lookup in Hr. rewrite <- (Hr _ _ E).
    by eapply lookup_lt_Some.
Qed.

Lemma get2_is_Some m a i j :
  rect m a → (i < length a)%nat → (j < m)%nat → is_Some (get2 a i j).
Proof.
  unfold rect, get2. intros Hr Hi Hj.
  destruct (lookup_lt_is_Some_2 a i Hi) as [row E]. rewrite E. simpl.
  apply lookup_lt_is_Some_2. rewrite Forall_lookup in Hr.
  by rewrite (Hr _ _ E).
Qed.
End Array2_facts.

(** ** Bitmask reduction (Y1DESMEDSImageIO._interpolate_maskbits) *)

Section reduce_mask_facts.
Import Y1DESMEDSImageIO.

Lemma badpix_constants :
  BADPIX "SATURATE" = 2 ^ 1 ∧ BADPIX "INTERP" = 2 ^ 2 ∧ BADPIX "STAR" = 2 ^ 5.
Proof. by vm_compute. Qed.

(** [v & 2**n != 0] tests bit [n] of [v]. *)
Lemma land_pow2_testbit (v n : Z) :
  0 ≤ n → negb (Z.land v (2 ^ n) =? 0) = Z.testbit v n.
Proof.
  intros Hn. destruct (Z.testbit v n) eqn:Hb.
  - apply negb_true_iff, Z.eqb_neq. intros H0.
    assert (Z.testbit (Z.land v (2 ^ n)) n = false) as Hc
      by (rewrite H0; apply Z.bits_0).
    rewrite Z.land_spec, Hb, Z.pow2_bits_true in Hc by done. done.
  - apply negb_false_iff, Z.eqb_eq, Z.bits_inj'. intros k Hk.
    rewrite Z.land_spec, Z.bits_0.
    destruct (decide (n = k)) as [<-|Hne].
    + by rewrite Hb.
    + rewrite Z.pow2_bits_false by done. apply andb_false_r.
Qed.

(** [v & msk == 0] says that no bit of [msk] is set in [v]. *)
Lemma land_zero_no_common_bit (v msk : Z) :
  (Z.land v msk =? 0) = true ↔
  ∀ k, 0 ≤ k → Z.testbit msk k = true → Z.testbit v k = false.
Proof.
  rewrite Z.eqb_eq. split.
  - intros H0 k Hk Hm.
    assert (Z.testbit (Z.land v msk) k = false) as Hc
      by (rewrite H0; apply Z.bits_0).
    rewrite Z.land_spec, Hm, andb_true_r in Hc. done.
  - intros H. apply Z.bits_inj'. intros k Hk.
    rewrite Z.land_spec, Z.bits_0.
    destruct (Z.testbit msk k) eqn:Hm.
    + by rewrite (H k Hk Hm).
    + apply andb_false_r.
Qed.

Lemma keep_pixel_bits msk v :
  keep_pixel msk v = true ↔ star_saturation_bits msk v.
Proof.
  unfold keep_pixel, is_sat_or_interp, is_bright_star, not_other_bits,
    star_saturation_bits.
  destruct badpix_constants as (-> & -> & ->).
  rewrite !land_pow2_testbit by lia.
  rewrite !andb_true_iff, orb_true_iff, land_zero_no_common_bit.
  tauto.
Qed.

(** C4.  In the mask reduction of [_interpolate_maskbits], a pixel of the
    source bitmask is mapped to 1 if and only if it has the SATURATE bit
    (bit 1) or the INTERP bit (bit 2) set, and the STAR bit (bit 5) set, and
    no bit of the ignore mask set; every other pixel is mapped to 0. *)
Theorem reduce_mask_pixel (msk : Z) (im1 : iarray) (i j : nat) (v : Z) :
  get2 im1 i j = Some v →
  (star_saturation_bits msk v ↔ get2 (reduce_mask msk im1) i j = Some 1)
  ∧ (¬ star_saturation_bits msk v ↔
       get2 (reduce_mask msk im1) i j = Some 0).
Proof.
  intros Hv. unfold reduce_mask. cbv zeta.
  rewrite get2_set_where, get2_fill2, Hv, <- keep_pixel_bits.
  destruct (decide ((i, j) ∈ where2 (keep_pixel msk) im1)) as [Hin|Hnin].
  - apply elem_of_where2 in Hin as (x & Hx & HP).
    assert (x = v) as -> by congruence. simpl.
    split; split; done.
  - assert (keep_pixel msk v ≠ true) as HP.
    { intros HP. apply Hnin, elem_of_where2. eauto. }
    simpl. split; split; done.
Qed.

(** A 2x2 bitmask: STAR|SATURATE, SATURATE alone, STAR|INTERP|TRAIL and
    STAR|INTERP, reduced with TRAIL as the ignore mask. *)
Lemma reduce_mask_pixel_witness :
  get2 [[34; 2]; [100; 36]] 1 1 = Some 36
  ∧ ((star_saturation_bits 64 36 ↔
        get2 (reduce_mask 64 [[34; 2]; [100; 36]]) 1 1 = Some 1)
     ∧ (¬ star_saturation_bits 64 36 ↔
          get2 (reduce_mask 64 [[34; 2]; [100; 36]]) 1 1 = Some 0)).
Proof.
  split; [reflexivity|].
  apply (reduce_mask_pixel 64 [[34; 2]; [100; 36]] 1 1 36). reflexivity.
Defined.

Example reduce_mask_example :
  reduce_mask 64 [[34; 2]; [100; 36]] = [[1; 0]; [0; 1]].
Proof. reflexivity. Qed.
End reduce_mask_facts.

(** ** Mask dilation (Y1DESMEDSImageIO._expand_mask) *)

Section expand_mask_facts.
Import Y1DESMEDSImageIO.
Implicit Types (a cb : iarray) (p q s : Z * Z) (shp : Z * Z).

Lemma foldl_ext_eq {S B} (f g : S → B → S) (l : list B) (st : S) :
  (∀ st x, f st x = g st x) → foldl f st l = foldl g st l.
Proof.
  intros H. revert st. induction l as [|x l IH]; intros st; [done|].
  cbn [foldl]. by rewrite H, IH.
Qed.

Lemma foldl_visit_bind {B} (f : B → list (Z * Z)) (l : list B) st :
  foldl (λ st x, foldl visit st (f x)) st l = foldl visit st (l ≫= f).
Proof.
  revert st. induction l as [|x l IH]; intros st; [done|].
  cbn [foldl]. rewrite IH. change ((x :: l) ≫= f) with (f x ++ (l ≫= f)).
  by rewrite foldl_app.
Qed.

Lemma expand_pixel_visits shp st p :
  expand_pixel shp st p = foldl visit st (neighbours shp p).
Proof.
  unfold expand_pixel, neighbours. rewrite <- foldl_visit_bind.
  apply foldl_ext_eq. intros st' dx. unfold expand_dx. cbv zeta.
  destruct ((0 <=? p.1 + dx) && (p.1 + dx <? shp.1)); [|done].
  rewrite <- foldl_visit_bind.
  apply foldl_ext_eq. intros st'' dy. unfold expand_dy. cbv zeta.
  by destruct ((0 <=? p.2 + dy) && (p.2 + dy <? shp.2)).
Qed.

Lemma expand_round_visits shp cb q_prev :
  expand_round shp cb q_prev =
  foldl visit (cb, []) (q_prev ≫= neighbours shp).
Proof.
  unfold expand_round. rewrite <- foldl_visit_bind.
  apply foldl_ext_eq. intros. apply expand_pixel_visits.
Qed.

Lemma foldl_visit st (l : list (Z * Z)) :
  foldl visit st l =
  (set_where st.1 ((λ q, (Z.to_nat q.1, Z.to_nat q.2)) <$> l) 1, st.2 ++ l).
Proof.
  revert st. induction l as [|q l IH]; intros [cb acc].
  - simpl. by rewrite app_nil_r.
  - cbn [foldl]. rewrite IH. simpl. by rewrite <- app_assoc.
Qed.

Lemma elem_of_neighbours shp p q :
  q ∈ neighbours shp p ↔ in_bounds shp q ∧ near 1 q p.
Proof.
  unfold neighbours, in_bounds, near. destruct p as [px py], q as [qx qy].
  cbn [fst snd]. rewrite list_elem_of_bind. split.
  - intros (dx & Hq & Hdx).
    destruct ((0 <=? px + dx) && (px + dx <? shp.1)) eqn:Hx;
      [|by apply not_elem_of_nil in Hq].
    apply list_elem_of_bind in Hq as (dy & Hq & Hdy).
    destruct ((0 <=? py + dy) && (py + dy <? shp.2)) eqn:Hy;
      [|by apply not_elem_of_nil in Hq].
    apply list_elem_of_singleton in Hq. simplify_eq.
    apply andb_true_iff in Hx as [?%Z.leb_le ?%Z.ltb_lt].
    apply andb_true_iff in Hy as [?%Z.leb_le ?%Z.ltb_lt].
    rewrite !elem_of_cons, elem_of_nil in Hdx, Hdy. lia.
  - intros ((Hx & Hy) & Hnx & Hny). exists (qx - px).
    split; [|rewrite !elem_of_cons; lia].
    replace (px + (qx - px)) with qx by lia.
    rewrite (proj2 (andb_true_iff _ _)) by (rewrite Z.leb_le, Z.ltb_lt; lia).
    apply list_elem_of_bind. exists (qy - py).
    split; [|rewrite !elem_of_cons; lia].
    replace (py + (qy - py)) with qy by lia.
    rewrite (proj2 (andb_true_iff _ _)) by (rewrite Z.leb_le, Z.ltb_lt; lia).
    by apply list_elem_of_singleton.
Qed.

Lemma shape_rect m a :
  rect m a → a ≠ [] → shape a = (Z.of_nat (length a), Z.of_nat m).
Proof.
  intros Hr Hne. unfold shape. destruct a as [|row a]; [done|].
  simpl. apply Forall_cons in Hr as [-> _]. done.
Qed.

Lemma pixel_in_bounds m a p v :
  rect m a → 0 ≤ p.1 → 0 ≤ p.2 → pixel a p = Some v → in_bounds (shape a) p.
Proof.
  intros Hr H1 H2 Hp. unfold pixel in Hp.
  destruct (get2_lt _ _ _ _ _ Hr Hp) as [Hi Hj].
  rewrite (shape_rect m) by (try done; intros ->; simpl in Hi; lia).
  unfold in_bounds. simpl. lia.
Qed.

Lemma in_bounds_pixel m a p :
  rect m a → in_bounds (shape a) p → is_Some (pixel a p).
Proof.
  intros Hr [H1 H2]. unfold pixel.
  destruct (decide (a = [])) as [->|Hne]; [simpl in *; lia|].
  rewrite (shape_rect m) in H1, H2 by done. simpl in *.
  apply (get2_is_Some m); [done|lia..].
Qed.

Lemma elem_of_nonzero_pixels a p :
  p ∈ nonzero_pixels a ↔
  0 ≤ p.1 ∧ 0 ≤ p.2 ∧ ∃ v, pixel a p = Some v ∧ v ≠ 0.
Proof.
  unfold nonzero_pixels, pixel. rewrite list_elem_of_fmap. split.
  - intros ([i j] & -> & Hin). apply elem_of_where2 in Hin as (v & Hv & HP).
    simpl. rewrite !Nat2Z.id. repeat split; [lia..|].
    exists v. split; [done|]. by apply negb_true_iff, Z.eqb_neq in HP.
  - intros (H1 & H2 & v & Hv & Hne). exists (Z.to_nat p.1, Z.to_nat p.2).
    split.
    + destruct p. simpl in *. f_equal; lia.
    + apply elem_of_where2. exists v. split; [done|].
      by apply negb_true_iff, Z.eqb_neq.
Qed.

(** One round: the new pixel list is the set of in-bounds pixels next to a
    pixel of the previous list, and exactly these pixels are set to 1. *)
Lemma expand_round_list shp cb q_prev q :
  q ∈ (expand_round shp cb q_prev).2 ↔
  in_bounds shp q ∧ ∃ s, s ∈ q_prev ∧ near 1 q s.
Proof.
  rewrite expand_round_visits, foldl_visit. cbn [fst snd app].
  rewrite list_elem_of_bind. setoid_rewrite elem_of_neighbours.
  split.
  - intros (s & [Hb Hn] & Hs). eauto.
  - intros (Hb & s & Hs & Hn). eauto.
Qed.

Lemma expand_round_pixel shp cb q_prev p :
  0 ≤ p.1 → 0 ≤ p.2 →
  pixel (expand_round shp cb q_prev).1 p =
  if decide (p ∈ (expand_round shp cb q_prev).2)
  then (λ _, 1) <$> pixel cb p else pixel cb p.
Proof.
  intros H1 H2. pose proof (expand_round_list shp cb q_prev) as Hl.
  revert Hl. rewrite expand_round_visits, foldl_visit. cbn [fst snd app].
  intros Hl. unfold pixel. rewrite get2_set_where.
  set (l := q_prev ≫= neighbours shp) in *.
  destruct (decide (p ∈ l)) as [Hin|Hnin].
  - rewrite decide_True; [done|].
    apply list_elem_of_fmap. by exists p.
  - rewrite decide_False; [done|].
    intros (q & Heq & Hq)%list_elem_of_fmap. apply Hnin.
    apply Hl in Hq as Hb. destruct Hb as [[Hb1 Hb2] _].
    replace p with q; [done|]. destruct p, q. simpl in *.
    simplify_eq. f_equal; lia.
Qed.

Lemma near_split r p s shp :
  0 ≤ r → in_bounds shp p → in_bounds shp s → near (r + 1) p s →
  ∃ t, in_bounds shp t ∧ near 1 t s ∧ near r p t.
Proof.
  unfold in_bounds, near. destruct p as [p1 p2], s as [s1 s2]. simpl.
  intros Hr Hp Hs Hn.
  exists (if 1 <? p1 - s1 then s1 + 1
          else if p1 - s1 <? -1 then s1 - 1 else p1,
          if 1 <? p2 - s2 then s2 + 1
          else if p2 - s2 <? -1 then s2 - 1 else p2).
  simpl.
  destruct (Z.ltb_spec 1 (p1 - s1)), (Z.ltb_spec (p1 - s1) (-1)),
    (Z.ltb_spec 1 (p2 - s2)), (Z.ltb_spec (p2 - s2) (-1)); lia.
Qed.

Lemma near_trans r p t s : near r p t → near 1 t s → near (r + 1) p s.
Proof. unfold near. lia. Qed.

(** [rounds] rounds set to 1 exactly the in-bounds pixels within Chebyshev
    distance [rounds] of a pixel of the initial list. *)
Lemma expand_rounds_pixel shp rounds : ∀ cb q_prev p,
  (∀ s, s ∈ q_prev → in_bounds shp s) → in_bounds shp p →
  ((0 < rounds)%nat ∧ (∃ s, s ∈ q_prev ∧ near (Z.of_nat rounds) p s) →
     pixel (expand_rounds shp rounds cb q_prev) p = (λ _, 1) <$> pixel cb p)
  ∧ (¬ ((0 < rounds)%nat ∧ ∃ s, s ∈ q_prev ∧ near (Z.of_nat rounds) p s) →
     pixel (expand_rounds shp rounds cb q_prev) p = pixel cb p).
Proof.
  induction rounds as [|r IH]; intros cb q_prev p Hprev Hp.
  { split; [intros [? _]; lia|done]. }
  cbn [expand_rounds]. cbv zeta.
  set (st := expand_round shp cb q_prev).
  assert (∀ t, t ∈ st.2 → in_bounds shp t) as Hst
    by (intros t Ht; by apply expand_round_list in Ht as [? _]).
  destruct (IH st.1 st.2 p Hst Hp) as [IHpos IHneg].
  assert (pixel st.1 p =
          if decide (p ∈ st.2) then (λ _, 1) <$> pixel cb p else pixel cb p)
    as Hpix by (apply expand_round_pixel; destruct Hp; lia).
  split.
  - intros [_ (s & Hs & Hn)].
    replace (Z.of_nat (S r)) with (Z.of_nat r + 1) in Hn by lia.
    destruct (near_split (Z.of_nat r) p s shp (Nat2Z.is_nonneg r) Hp
                (Hprev _ Hs) Hn) as (t & Htb & Hts & Hpt).
    assert (t ∈ st.2) as Ht by (apply expand_round_list; eauto).
    destruct r as [|r].
    + rewrite IHneg by (intros [? _]; lia). rewrite Hpix.
      assert (p = t) as ->.
      { clear -Hpt. destruct p, t. unfold near in Hpt. cbn [fst snd] in Hpt.
        f_equal; lia. }
      by rewrite decide_True.
    + rewrite IHpos by (split; [lia|eauto]). rewrite Hpix.
      case_decide; [|done]. by destruct (pixel cb p).
  - intros Hneg. rewrite IHneg, Hpix.
    + rewrite decide_False; [done|].
      intros (Hb & s & Hs & Hn)%expand_round_list. apply Hneg.
      split; [lia|]. exists s. split; [done|]. unfold near in *. lia.
    + intros [Hr (t & Ht & Hn)].
      apply expand_round_list in Ht as (_ & s & Hs & Hts).
      apply Hneg. split; [lia|]. exists s. split; [done|].
      replace (Z.of_nat (S r)) with (Z.of_nat r + 1) by lia.
      by eapply near_trans.
Qed.

Lemma length_expand_rounds shp rounds : ∀ cb q_prev,
  length (expand_rounds shp rounds cb q_prev) = length cb.
Proof.
  induction rounds as [|r IH]; intros cb q_prev; [done|].
  cbn [expand_rounds]. cbv zeta. rewrite IH, expand_round_visits, foldl_visit.
  cbn [fst]. apply length_set_where.
Qed.

Lemma rect_set_where {A} m (a : list (list A)) (l : list (nat * nat)) v :
  rect m a → rect m (set_where a l v).
Proof.
  unfold set_where. revert a. induction l as [|p l IH]; intros a Hr; [done|].
  cbn [foldl]. by apply IH, rect_set2.
Qed.

Lemma rect_expand_rounds m shp rounds : ∀ cb q_prev,
  rect m cb → rect m (expand_rounds shp rounds cb q_prev).
Proof.
  induction rounds as [|r IH]; intros cb q_prev Hr; [done|].
  cbn [expand_rounds]. cbv zeta. apply IH.
  rewrite expand_round_visits, foldl_visit. cbn [fst].
  by apply rect_set_where.
Qed.

(** The dilation in general: after [rounds] rounds a pixel of the array is
    1 if a nonzero pixel of the input lies within Chebyshev distance
    [rounds] (and at least one round ran), and keeps its value otherwise. *)
Lemma expand_mask_pixel m a rounds p :
  rect m a → in_bounds (shape a) p →
  ((0 < rounds)%nat ∧
   (∃ s, s ∈ nonzero_pixels a ∧ near (Z.of_nat rounds) p s) →
     pixel (_expand_mask a rounds) p = Some 1)
  ∧ (¬ ((0 < rounds)%nat ∧
        ∃ s, s ∈ nonzero_pixels a ∧ near (Z.of_nat rounds) p s) →
     pixel (_expand_mask a rounds) p = pixel a p).
Proof.
  intros Hr Hp. unfold _expand_mask. cbv zeta.
  assert (∀ s, s ∈ nonzero_pixels a → in_bounds (shape a) s) as Hnz.
  { intros s (H1 & H2 & w & Hw & _)%elem_of_nonzero_pixels.
    by eapply pixel_in_bounds. }
  destruct (expand_rounds_pixel (shape a) rounds a (nonzero_pixels a) p
              Hnz Hp) as [Hpos Hneg].
  split; [|done]. intros H. rewrite (Hpos H).
  by destruct (in_bounds_pixel m a p Hr Hp) as [w ->].
Qed.

(** C8.  For a mask with exactly one nonzero pixel, at [(x, y)]: one round
    of [_expand_mask] gives a mask of the same shape that is 1 exactly on
    the 3x3 neighbourhood of [(x, y)] inside the array and 0 elsewhere, and
    two rounds give 1 exactly on the 5x5 neighbourhood inside the array and
    0 elsewhere. *)
Theorem expand_mask_single_pixel (a : iarray) (m x y : nat) (v : Z)
    (i j : nat) :
  rect m a →
  get2 a x y = Some v → v ≠ 0 →
  (∀ i' j' w, get2 a i' j' = Some w → (i', j') ≠ (x, y) → w = 0) →
  (i < length a)%nat → (j < m)%nat →
  get2 (_expand_mask a 1) i j =
    Some (if decide (Z.abs (Z.of_nat i - Z.of_nat x) ≤ 1
                     ∧ Z.abs (Z.of_nat j - Z.of_nat y) ≤ 1)
          then 1 else 0)
  ∧ get2 (_expand_mask a 2) i j =
    Some (if decide (Z.abs (Z.of_nat i - Z.of_nat x) ≤ 2
                     ∧ Z.abs (Z.of_nat j - Z.of_nat y) ≤ 2)
          then 1 else 0)
  ∧ length (_expand_mask a 1) = length a ∧ rect m (_expand_mask a 1)
  ∧ length (_expand_mask a 2) = length a ∧ rect m (_expand_mask a 2).
Proof.
  intros Hr Hxy Hv Hone Hi Hj.
  assert (a ≠ []) as Hne by (intros ->; simpl in Hi; lia).
  assert (∀ s, s ∈ nonzero_pixels a ↔ s = (Z.of_nat x, Z.of_nat y)) as Hnz.
  { intros s. rewrite elem_of_nonzero_pixels. unfold pixel. split.
    - intros (H1 & H2 & w & Hw & Hw0).
      destruct (decide ((Z.to_nat s.1, Z.to_nat s.2) = (x, y))) as [E|E].
      + destruct s. simpl in *. simplify_eq. f_equal; lia.
      + by specialize (Hone _ _ _ Hw E).
    - intros ->. simpl. rewrite !Nat2Z.id.
      split; [lia|]. split; [lia|]. eauto. }
  assert (in_bounds (shape a) (Z.of_nat i, Z.of_nat j)) as Hb.
  { rewrite (shape_rect m) by done. unfold in_bounds. simpl. lia. }
  assert (∀ rounds : nat, (0 < rounds)%nat →
    get2 (_expand_mask a rounds) i j =
    Some (if decide (Z.abs (Z.of_nat i - Z.of_nat x) ≤ Z.of_nat rounds
                     ∧ Z.abs (Z.of_nat j - Z.of_nat y) ≤ Z.of_nat rounds)
          then 1 else 0)) as Hgen.
  { intros rounds Hpos.
    destruct (expand_mask_pixel m a rounds _ Hr Hb) as [Hin Hout].
    unfold pixel in Hin, Hout. cbn [fst snd] in Hin, Hout.
    rewrite !Nat2Z.id in Hin, Hout.
    case_decide as Hnear.
    - apply Hin. split; [done|]. exists (Z.of_nat x, Z.of_nat y).
      split; [by apply Hnz|]. done.
    - rewrite Hout.
      + destruct (get2_is_Some m a i j Hr Hi Hj) as [w Hw]. rewrite Hw.
        f_equal. apply (Hone i j w Hw). intros [= -> ->]. apply Hnear. lia.
      + intros [_ (s & Hs & Hn)]. apply Hnz in Hs as ->. by apply Hnear. }
  split; [by apply (Hgen 1%nat); lia|].
  split; [by apply (Hgen 2%nat); lia|].
  unfold _expand_mask. cbv zeta.
  rewrite !length_expand_rounds.
  repeat split; try done; by apply rect_expand_rounds.
Qed.

(** A 4x4 mask with its only flagged pixel in a corner. *)
Lemma expand_mask_single_pixel_witness :
  let a := [[0; 0; 0; 0]; [0; 0; 0; 0]; [0; 0; 0; 0]; [0; 0; 0; 8]] in
  get2 (_expand_mask a 1) 2 2 = Some 1
  ∧ get2 (_expand_mask a 2) 2 2 = Some 1
  ∧ length (_expand_mask a 1) = 4%nat ∧ rect 4 (_expand_mask a 1)
  ∧ length (_expand_mask a 2) = 4%nat ∧ rect 4 (_expand_mask a 2).
Proof.
  intros a.
  refine (expand_mask_single_pixel a 4 3 3 8 2 2 _ eq_refl _ _ _ _).
  - repeat constructor.
  - lia.
  - intros i' j' w Hw Hne.
    do 4 (destruct i' as [|i']; [do 4 (destruct j' as [|j'];
      [vm_compute in Hw; first [congruence | by destruct Hne]|]);
      vm_compute in Hw; congruence|]).
    vm_compute in Hw; congruence.
  - simpl. lia.
  - lia.
Defined.

Example expand_mask_example :
  let a := [[0; 0; 0; 0]; [0; 0; 0; 0]; [0; 0; 0; 0]; [0; 0; 0; 8]] in
  _expand_mask a 1 = [[0; 0; 0; 0]; [0; 0; 0; 0]; [0; 0; 1; 1]; [0; 0; 1; 1]]
  ∧ _expand_mask a 2 =
      [[0; 0; 0; 0]; [0; 1; 1; 1]; [0; 1; 1; 1]; [0; 1; 1; 1]].
Proof. by vm_compute. Qed.
End expand_mask_facts.

(** ** Weight zeroing (Y1DESMEDSImageIO._prop_extra_bitmasks) *)

Section prop_extra_bitmasks_facts.
Import Y1DESMEDSImageIO.

Lemma same_shape_is_Some {A B} (a : list (list A)) (b : list (list B)) i j :
  same_shape a b = true → is_Some (get2 a i j) ↔ is_Some (get2 b i j).
Proof.
  unfold same_shape, get2. intros H%bool_decide_eq_true.
  apply (f_equal (λ l, l !! i)) in H. rewrite !list_lookup_fmap in H.
  destruct (a !! i) as [ra|], (b !! i) as [rb|]; simplify_eq/=.
  - rewrite !lookup_lt_is_Some. by rewrite H.
  - done.
Qed.

Lemma get2_zip2 {A B C} (f : A → B → C) a b c i j :
  zip2 f a b = Ok c →
  get2 c i j = x ← get2 a i j; y ← get2 b i j; Some (f x y).
Proof.
  unfold zip2. destruct (same_shape a b); [|done]. intros [= <-].
  unfold get2. rewrite lookup_zip_with.
  destruct (a !! i) as [ra|]; [|done]. simpl.
  destruct (b !! i) as [rb|]; simpl.
  - rewrite lookup_zip_with. by destruct (ra !! j).
  - by destruct (ra !! j).
Qed.

Lemma assign_where_Ok {A} (a : list (list A)) q v :
  (∀ p, p ∈ q → is_Some (get2 a p.1 p.2)) →
  assign_where a q v = Ok (set_where a q v).
Proof.
  intros H. unfold assign_where.
  rewrite (proj2 (forallb_forall _ _)); [done|].
  intros p Hp%list_elem_of_In. apply bool_decide_eq_true. by apply H.
Qed.

Lemma zero_attr_spec d (w : attr farray) q :
  attr_shape d w →
  (∀ p, p ∈ q → is_Some (get2 d p.1 p.2)) →
  ∃ w', zero_attr w q = Ok w' ∧
    ∀ i j, attr_rel (λ a a', get2 a' i j =
             if decide ((i, j) ∈ q) then (λ _, 0%Q) <$> get2 a i j
             else get2 a i j) w w'.
Proof.
  intros Hw Hq. destruct w as [| |a]; simpl in *; [|done|].
  - by exists Missing.
  - rewrite assign_where_Ok.
    + simpl. eexists. split; [done|]. intros i j. simpl.
      apply get2_set_where.
    + intros p Hp. apply (same_shape_is_Some d a); auto.
Qed.

Lemma attr_rel_impl (R R' : farray → farray → Prop) w w' :
  (∀ a a', R a a' → R' a a') → attr_rel R w w' → attr_rel R' w w'.
Proof. intros H. destruct w, w'; simpl; auto. Qed.

Lemma attr_rel_refl (R : farray → farray → Prop) d w :
  (∀ a, R a a) → attr_shape d w → attr_rel R w w.
Proof. intros H. destruct w; simpl; auto. Qed.

(** One observation: with weight arrays of the shape of the dilated mask,
    the loop body returns, and a weight pixel is zeroed if the dilated mask
    is nonzero there and the segmentation map is 0 there, and is left as
    it was otherwise. *)
Lemma prop_obs_spec interp m bmask obs :
  meta_flags obs = 0 →
  let d := dilated_mask interp m bmask obs in
  same_shape d (seg obs) = true →
  same_shape d (weight obs) = true →
  attr_shape d (weight_raw obs) →
  attr_shape d (weight_us obs) →
  attr_shape d (weight_orig obs) →
  ∃ obs', prop_obs interp m bmask obs = Ok obs' ∧
    ∀ i j dv sv, get2 d i j = Some dv → get2 (seg obs) i j = Some sv →
      weights_rel (λ a a', get2 a' i j =
                     if decide (dv ≠ 0 ∧ sv = 0)
                     then (λ _, 0%Q) <$> get2 a i j else get2 a i j)
        obs obs'.
Proof.
  intros Hfl d Hseg Hw Hraw Hus Horig. unfold prop_obs.
  rewrite Hfl. cbn [Z.eqb]. cbv zeta. fold d.
  destruct (zip2 (λ b s, negb (b =? 0) && (s =? 0)) d (seg obs))
    as [cond|e] eqn:Hcond;
    [|by unfold zip2 in Hcond; rewrite Hseg in Hcond].
  cbn [rbind]. set (q := where2 (λ c : bool, c) cond).
  assert (∀ i j dv sv, get2 d i j = Some dv → get2 (seg obs) i j = Some sv →
          ((i, j) ∈ q ↔ dv ≠ 0 ∧ sv = 0)) as Hq.
  { intros i j dv sv Hd Hs. unfold q. rewrite elem_of_where2.
    rewrite (get2_zip2 _ _ _ _ i j Hcond), Hd, Hs. simpl. split.
    - intros (x & [= <-] & Hx). apply andb_true_iff in Hx as [H1 H2].
      apply negb_true_iff, Z.eqb_neq in H1. by apply Z.eqb_eq in H2.
    - intros [H1 H2]. eexists. split; [done|].
      apply andb_true_iff. split; [by apply negb_true_iff, Z.eqb_neq|].
      by apply Z.eqb_eq. }
  assert (∀ p, p ∈ q → is_Some (get2 d p.1 p.2)) as Hqd.
  { intros [i j] (x & Hx & _)%elem_of_where2. simpl.
    rewrite (get2_zip2 _ _ _ _ i j Hcond) in Hx.
    by destruct (get2 d i j). }
  destruct (0 <? Z.of_nat (length q)) eqn:Hlen.
  - destruct (zero_attr_spec d _ q Hraw Hqd) as (w_raw & -> & Hraw').
    destruct (zero_attr_spec d _ q Hus Hqd) as (w_us & -> & Hus').
    destruct (zero_attr_spec d _ q Horig Hqd) as (w_orig & -> & Horig').
    rewrite assign_where_Ok
      by (intros p Hp; apply (same_shape_is_Some d (weight obs)); auto).
    cbn [rbind]. eexists. split; [done|].
    intros i j dv sv Hd Hs. specialize (Hq i j dv sv Hd Hs).
    assert (∀ a a' : farray,
      get2 a' i j = (if decide ((i, j) ∈ q)
                     then (λ _, 0%Q) <$> get2 a i j else get2 a i j) →
      get2 a' i j = (if decide (dv ≠ 0 ∧ sv = 0)
                     then (λ _, 0%Q) <$> get2 a i j else get2 a i j)) as Himp.
    { intros a a' ->. destruct (decide ((i, j) ∈ q)), (decide (dv ≠ 0 ∧ sv = 0));
        tauto. }
    unfold weights_rel. cbn [weight weight_raw weight_us weight_orig].
    split; [apply Himp, get2_set_where|].
    split; [exact (attr_rel_impl _ _ _ _ Himp (Hraw' i j))|].
    split; [exact (attr_rel_impl _ _ _ _ Himp (Hus' i j))|].
    exact (attr_rel_impl _ _ _ _ Himp (Horig' i j)).
  - eexists. split; [done|].
    intros i j dv sv Hd Hs. specialize (Hq i j dv sv Hd Hs).
    assert (q = []) as Hnil
      by (destruct q; [done|]; apply Z.ltb_ge in Hlen; simpl in Hlen; lia).
    rewrite Hnil in Hq.
    assert (¬ (dv ≠ 0 ∧ sv = 0)) as Hno
      by (intros H; apply Hq in H; by apply not_elem_of_nil in H).
    assert (∀ a : farray,
      get2 a i j = (if decide (dv ≠ 0 ∧ sv = 0)
                    then (λ _, 0%Q) <$> get2 a i j else get2 a i j)) as Hrefl
      by (intros a; by rewrite decide_False).
    unfold weights_rel. split; [apply Hrefl|].
    split; [by apply (attr_rel_refl _ d)|].
    split; by apply (attr_rel_refl _ d).
Qed.

(** Observations with nonzero flags are skipped. *)
Lemma prop_obs_flagged interp m bmask obs :
  meta_flags obs ≠ 0 → prop_obs interp m bmask obs = Ok obs.
Proof. intros H%Z.eqb_neq. unfold prop_obs. by rewrite H. Qed.

Lemma for_each_lookup {A B} (f : A → result B) l l' k x :
  for_each f l = Ok l' → l !! k = Some x →
  ∃ y, f x = Ok y ∧ l' !! k = Some y.
Proof.
  revert l' k. induction l as [|z l IH]; intros l' k Hf Hk; [done|].
  simpl in Hf. destruct (f z) as [y|] eqn:Hz; [|done]. simpl in Hf.
  destruct (for_each f l) as [ys|] eqn:Hys; [|done]. simpl in Hf.
  simplify_eq. destruct k as [|k]; simplify_eq/=; eauto.
Qed.

Lemma prop_extra_bitmasks_lookup interp meds_list bmasks mb mb'
    band k ol obs :
  _prop_extra_bitmasks interp meds_list bmasks mb = Ok mb' →
  mb !! band = Some ol → ol !! k = Some obs →
  ∃ m bmask obs',
    meds_list !! band = Some m ∧ bmasks !! band = Some bmask
    ∧ prop_obs interp m bmask obs = Ok obs'
    ∧ get2 mb' band k = Some obs'.
Proof.
  unfold _prop_extra_bitmasks. intros Hall Hol Hobs.
  assert (imap pair mb !! band = Some (band, ol)) as Hband
    by (by rewrite list_lookup_imap, Hol).
  destruct (for_each_lookup _ _ _ _ _ Hall Hband) as (ol' & Hb & Hol').
  unfold prop_band in Hb. cbn [fst snd] in Hb.
  destruct (meds_list !! band) as [m|]; [|done].
  destruct (bmasks !! band) as [bmask|]; [|done].
  destruct (for_each_lookup _ _ _ _ _ Hb Hobs) as (obs' & Ho & Hk).
  exists m, bmask, obs'. repeat split; try done.
  unfold get2. by rewrite Hol'.
Qed.

(** C1, as the code has it.  For an observation with zero flags whose
    segmentation map and weight map have the shape of its dilated
    reprojected mask, and whose other weight variants (weight_raw,
    weight_us, weight_orig) are each absent or an array of that shape (an
    attribute that is present and holds [None] is not covered here, see
    [prop_obs_none_attribute] below), the loop body of
    [_prop_extra_bitmasks] returns, and at every pixel: if the dilated mask
    is nonzero and the segmentation map is 0 (background), every weight
    variant present on the observation (weight, weight_raw, weight_us,
    weight_orig) is exactly 0 afterwards; if the segmentation map is
    nonzero (the pixel belongs to some object, the object itself included)
    or the dilated mask is 0, every weight variant is unchanged.  The
    observation so updated is what [_prop_extra_bitmasks] leaves in the
    observation list. *)
Theorem prop_extra_bitmasks_weights (interp : interpolator)
    (m : meds_object) (bmask : iarray) (obs : Observation)
    (i j : nat) (dv sv : Z) :
  meta_flags obs = 0 →
  let d := dilated_mask interp m bmask obs in
  same_shape d (seg obs) = true →
  same_shape d (weight obs) = true →
  attr_shape d (weight_raw obs) →
  attr_shape d (weight_us obs) →
  attr_shape d (weight_orig obs) →
  get2 d i j = Some dv → get2 (seg obs) i j = Some sv →
  ∃ obs', prop_obs interp m bmask obs = Ok obs'
    ∧ (dv ≠ 0 → sv = 0 →
         weights_rel (λ _ a', get2 a' i j = Some 0%Q) obs obs')
    ∧ (dv = 0 ∨ sv ≠ 0 →
         weights_rel (λ a a', get2 a' i j = get2 a i j) obs obs')
    ∧ (∀ meds_list bmasks mb mb' band k ol,
         meds_list !! band = Some m → bmasks !! band = Some bmask →
         mb !! band = Some ol → ol !! k = Some obs →
         _prop_extra_bitmasks interp meds_list bmasks mb = Ok mb' →
         get2 mb' band k = Some obs').
Proof.
  intros Hfl d Hseg Hw Hraw Hus Horig Hd Hs.
  destruct (prop_obs_spec interp m bmask obs Hfl Hseg Hw Hraw Hus Horig)
    as (obs' & Hret & Hpix).
  specialize (Hpix i j dv sv Hd Hs). fold d in Hpix.
  exists obs'. split; [done|].
  destruct Hpix as (Hw' & Hraw' & Hus' & Horig').
  assert (∀ a : farray, same_shape d a = true → is_Some (get2 a i j)) as Hin
    by (intros a Ha; apply (same_shape_is_Some d a); eauto).
  assert (∀ w : attr farray, attr_shape d w →
          match w with Val a => is_Some (get2 a i j) | _ => True end) as Hin'
    by (intros [| |a] Ha; try done; by apply Hin).
  split; [|split].
  - intros Hdv Hsv. rewrite decide_True in Hw' by done.
    assert (∀ a a' : farray, is_Some (get2 a i j) →
      get2 a' i j = (λ _, 0%Q) <$> get2 a i j → get2 a' i j = Some 0%Q)
      as Hz by (intros a a' [x ->] ->; done).
    assert (∀ w w', attr_shape d w →
      attr_rel (λ a a', get2 a' i j =
                  (if decide (dv ≠ 0 ∧ sv = 0)
                   then (λ _, 0%Q) <$> get2 a i j else get2 a i j)) w w' →
      attr_rel (λ _ a', get2 a' i j = Some 0%Q) w w') as Hattr.
    { intros w w' Hsh Hrel. specialize (Hin' w Hsh).
      destruct w, w'; simpl in *; try done.
      rewrite decide_True in Hrel by done. by eapply Hz. }
    repeat split; [by eapply Hz; [apply Hin|]|by apply Hattr..].
  - intros Hno.
    assert (¬ (dv ≠ 0 ∧ sv = 0)) as Hno' by (intros [? ?]; by destruct Hno).
    rewrite decide_False in Hw' by done.
    assert (∀ w w',
      attr_rel (λ a a', get2 a' i j =
                  (if decide (dv ≠ 0 ∧ sv = 0)
                   then (λ _, 0%Q) <$> get2 a i j else get2 a i j)) w w' →
      attr_rel (λ a a', get2 a' i j = get2 a i j) w w') as Hattr.
    { intros w w'. apply attr_rel_impl. intros a a' ->.
      by rewrite decide_False. }
    repeat split; [done|by apply Hattr..].
  - intros meds_list bmasks mb mb' band k ol Hm Hb Hol Hk Hall.
    destruct (prop_extra_bitmasks_lookup _ _ _ _ _ _ _ _ _ Hall Hol Hk)
      as (m' & bmask' & obs'' & Hm' & Hb' & Hret' & Hget).
    rewrite Hm in Hm'. rewrite Hb in Hb'.
    injection Hm' as <-. injection Hb' as <-.
    rewrite Hret in Hret'. by injection Hret' as <-.
Qed.

Import Examples.

Example dilated_mask_example :
  dilated_mask same_grid meds3 bmask3 obs3 = [[1; 1; 1; 0]].
Proof. by vm_compute. Qed.

(** Pixel 0 of [obs3]: flagged by the dilated mask, background in the
    segmentation map. *)
Lemma prop_extra_bitmasks_weights_witness :
  ∃ obs', prop_obs same_grid meds3 bmask3 obs3 = Ok obs'
    ∧ (1 ≠ 0 → 0 = 0 →
         weights_rel (λ _ a', get2 a' 0 0 = Some 0%Q) obs3 obs')
    ∧ (1 = 0 ∨ 0 ≠ 0 →
         weights_rel (λ a a', get2 a' 0 0 = get2 a 0 0) obs3 obs')
    ∧ (∀ meds_list bmasks mb mb' band k ol,
         meds_list !! band = Some meds3 → bmasks !! band = Some bmask3 →
         mb !! band = Some ol → ol !! k = Some obs3 →
         _prop_extra_bitmasks same_grid meds_list bmasks mb = Ok mb' →
         get2 mb' band k = Some obs').
Proof.
  apply (prop_extra_bitmasks_weights same_grid meds3 bmask3 obs3 0 0 1 0);
    by vm_compute.
Defined.

(** C1 as stated fails.  Pixel 2 of [obs3] is flagged by the dilated mask
    and the segmentation map gives it to object 7, not to the object
    itself (number 3), yet every weight variant keeps its value there: the
    code zeroes a weight only where the segmentation map is 0. *)
Lemma prop_extra_bitmasks_other_object_counterexample :
  ∃ obs',
    _prop_extra_bitmasks same_grid [meds3] [bmask3] [[obs3]] = Ok [[obs']]
    ∧ meta_flags obs3 = 0
    ∧ get2 (dilated_mask same_grid meds3 bmask3 obs3) 0 2 = Some 1
    ∧ get2 (seg obs3) 0 2 = Some 7 ∧ 7 ≠ number meds3
    ∧ get2 (weight obs') 0 2 = Some 5%Q
    ∧ weight_raw obs' = Val [[0; 6; 6; 6]]%Q
    ∧ weight_orig obs' = Val [[0; 5; 5; 5]]%Q
    ∧ ¬ weights_rel (λ _ a', get2 a' 0 2 = Some 0%Q) obs3 obs'.
Proof.
  eexists. split; [by vm_compute|].
  repeat split; try by vm_compute.
  intros [H _]. vm_compute in H. discriminate H.
Qed.

(** A weight variant that is present and holds [None].  The code guards
    each assignment with [hasattr], which is true of such an attribute,
    and [None[q] = 0.0] raises [TypeError]: when the dilated mask selects a
    pixel (nonzero mask on background) of an unflagged observation one of
    whose variants weight_raw, weight_us, weight_orig is [None], the loop
    body raises [TypeError] and returns no observation.  (The module
    itself tests [obs.weight_raw is not None] and [obs.weight_us is not
    None] in [_get_band_observations].) *)
Lemma prop_obs_none_attribute (interp : interpolator) (m : meds_object)
    (bmask : iarray) (obs : Observation) (i j : nat) (dv : Z) :
  meta_flags obs = 0 →
  let d := dilated_mask interp m bmask obs in
  same_shape d (seg obs) = true →
  same_shape d (weight obs) = true →
  (weight_raw obs = PyNone ∨ attr_shape d (weight_raw obs)) →
  (weight_us obs = PyNone ∨ attr_shape d (weight_us obs)) →
  (weight_orig obs = PyNone ∨ attr_shape d (weight_orig obs)) →
  weight_raw obs = PyNone ∨ weight_us obs = PyNone
  ∨ weight_orig obs = PyNone →
  get2 d i j = Some dv → dv ≠ 0 → get2 (seg obs) i j = Some 0 →
  prop_obs interp m bmask obs = Raise TypeError.
Proof.
  intros Hfl d Hseg Hw Hraw Hus Horig Hnone Hd Hdv Hs. unfold prop_obs.
  rewrite Hfl. cbn [Z.eqb]. cbv zeta. fold d.
  destruct (zip2 (λ b s, negb (b =? 0) && (s =? 0)) d (seg obs))
    as [cond|e] eqn:Hcond;
    [|by unfold zip2 in Hcond; rewrite Hseg in Hcond].
  cbn [rbind]. set (q := where2 (λ c : bool, c) cond).
  assert ((i, j) ∈ q) as Hin.
  { unfold q. rewrite elem_of_where2.
    rewrite (get2_zip2 _ _ _ _ i j Hcond), Hd, Hs. cbn.
    eexists. split; [done|].
    apply andb_true_iff. split; [by apply negb_true_iff, Z.eqb_neq|done]. }
  assert ((0 <? Z.of_nat (length q)) = true) as ->.
  { apply Z.ltb_lt. destruct q; [by apply elem_of_nil in Hin|cbn; lia]. }
  assert (∀ p, p ∈ q → is_Some (get2 d p.1 p.2)) as Hqd.
  { intros [x y] (c & Hc & _)%elem_of_where2. cbn [fst snd].
    rewrite (get2_zip2 _ _ _ _ x y Hcond) in Hc.
    by destruct (get2 d x y). }
  assert (∀ w, w = PyNone ∨ attr_shape d w →
            zero_attr w q = Raise TypeError
            ∨ (w ≠ PyNone ∧ ∃ w', zero_attr w q = Ok w')) as Hz.
  { intros w [->|Hsh]; [by left|]. right.
    destruct (zero_attr_spec d w q Hsh Hqd) as (w' & Hw' & _).
    split; [by destruct w|by exists w']. }
  destruct (Hz _ Hraw) as [->|[Hr (w_raw & ->)]]; [done|]. cbn [rbind].
  destruct (Hz _ Hus) as [->|[Hu (w_us & ->)]]; [done|]. cbn [rbind].
  rewrite assign_where_Ok
    by (intros p Hp; apply (same_shape_is_Some d (weight obs)); auto).
  cbn [rbind].
  destruct (Hz _ Horig) as [->|[Ho _]]; [done|].
  by destruct Hnone as [?|[?|?]].
Qed.

(** [obs_cen] has [weight_us = None]; its pixel 0 is selected by the
    dilated mask. *)
Example prop_obs_none_attribute_example :
  meta_flags obs_cen = 0 ∧ weight_us obs_cen = PyNone
  ∧ get2 (dilated_mask same_grid meds3 bmask3 obs_cen) 0 0 = Some 1
  ∧ get2 (seg obs_cen) 0 0 = Some 0
  ∧ prop_obs same_grid meds3 bmask3 obs_cen = Raise TypeError
  ∧ _prop_extra_bitmasks same_grid [meds3] [bmask3] [[obs_cen]]
    = Raise TypeError.
Proof. repeat split; by vm_compute. Qed.
End prop_extra_bitmasks_facts.

(** ** Image flags (SVDESMEDSImageIO._load_meds_files, _get_psf_objects) *)

Section image_flags_facts.
Import SVDESMEDSImageIO.

Lemma lookup_foldl_insert {A} (c : list A) (w : list nat) (v : A) i :
  foldl (λ c k, <[k := v]> c) c w !! i =
  if decide (i ∈ w) then (λ _, v) <$> c !! i else c !! i.
Proof.
  revert c. induction w as [|k w IH]; intros c.
  - simpl. destruct (decide (i ∈ [])) as [H|H]; [|done].
    by apply not_elem_of_nil in H.
  - cbn [foldl]. rewrite IH.
    destruct (decide (i ∈ k :: w)) as [Hin|Hnin];
      destruct (decide (i ∈ w)) as [Hw|Hw];
      destruct (decide (k = i)) as [->|Hne].
    + destruct (c !! i) eqn:E.
      * rewrite list_lookup_insert_eq; [done|]. by eapply lookup_lt_Some.
      * rewrite list_insert_ge; [by rewrite E|]. by apply lookup_ge_None.
    + by rewrite list_lookup_insert_ne.
    + destruct (c !! i) eqn:E.
      * rewrite list_lookup_insert_eq; [done|]. by eapply lookup_lt_Some.
      * rewrite list_insert_ge; [by rewrite E|]. by apply lookup_ge_None.
    + apply elem_of_cons in Hin as [?|?]; [by subst|done].
    + exfalso. apply Hnin. by right.
    + exfalso. apply Hnin. by right.
    + exfalso. apply Hnin. by left.
    + by rewrite list_lookup_insert_ne.
Qed.

(** The reduction keeps the coadd entry and maps every other entry to
    [IMAGE_FLAGS_SET] if it has a checked bit, to 0 if not. *)
Lemma reduce_image_flags_lookup conf fl i :
  reduce_image_flags conf fl !! i =
  match i with
  | O => fl !! O
  | S _ =>
      (λ g, if Z.land g (image_flags2check conf) =? 0
            then 0 else IMAGE_FLAGS_SET) <$> fl !! i
  end.
Proof.
  unfold reduce_image_flags. cbv zeta.
  set (P := λ f, negb (Z.land f (image_flags2check conf) =? 0)).
  set (w := where1 P (drop 1 fl)).
  destruct fl as [|f0 fl]; [by destruct i|].
  destruct i as [|i]; [done|].
  change (drop 1 (f0 :: fl)) with fl in *.
  change (take 1 (f0 :: fl)) with [f0].
  change (([f0] ++ ?l) !! S i) with (l !! i).
  assert ((if (0 <? length w)%nat
           then foldl (λ c k, <[k:=IMAGE_FLAGS_SET]> c) ((λ _ : Z, 0) <$> fl) w
           else (λ _ : Z, 0) <$> fl) =
          foldl (λ c k, <[k:=IMAGE_FLAGS_SET]> c) ((λ _ : Z, 0) <$> fl) w)
    as -> by (by destruct w).
  rewrite lookup_foldl_insert, list_lookup_fmap.
  subst w. change ((f0 :: fl) !! S i) with (fl !! i).
  destruct (fl !! i) as [g|] eqn:Hg; simpl.
  - destruct (decide (i ∈ where1 P fl)) as [Hin|Hnin].
    + apply elem_of_where1 in Hin as (x & Hx & HP).
      assert (x = g) as -> by congruence. unfold P in HP.
      apply negb_true_iff in HP. simpl. by rewrite HP.
    + simpl. destruct (Z.land g (image_flags2check conf) =? 0) eqn:E; [done|].
      exfalso. apply Hnin, elem_of_where1. exists g. split; [done|].
      unfold P. by rewrite E.
  - by case_decide.
Qed.

Lemma length_reduce_image_flags conf fl :
  length (reduce_image_flags conf fl) = length fl.
Proof.
  unfold reduce_image_flags. cbv zeta.
  set (w := where1 _ _).
  assert (∀ c : list Z, length (if (0 <? length w)%nat
            then foldl (λ c k, <[k:=IMAGE_FLAGS_SET]> c) c w else c)
          = length c) as Hlen.
  { intros c. destruct (0 <? length w)%nat; [|done]. clear.
    revert c. induction w as [|k w IH]; intros c; [done|].
    cbn [foldl]. by rewrite IH, length_insert. }
  rewrite length_app, Hlen, length_fmap, <- length_app.
  by rewrite take_drop.
Qed.

Lemma replace_image_flags_head conf reader paths fl fl' :
  replace_image_flags conf reader paths fl = Ok fl' →
  length fl' = length fl ∧ fl' !! O = fl !! O.
Proof.
  unfold replace_image_flags.
  destruct (replacement_flags conf) as [fname|]; [|by intros [= <-]].
  destruct (1 <? length fl)%nat eqn:Hlen; [|by intros [= <-]].
  apply Nat.ltb_lt in Hlen. unfold assign_tail.
  set (vals := _get_replacement_flags _ _ _ _).
  destruct fl as [|f0 fl]; [simpl in Hlen; lia|].
  destruct (length vals =? length (f0 :: fl) - 1)%nat eqn:E.
  - apply Nat.eqb_eq in E. intros [= <-]. simpl in *. split; [lia|done].
  - destruct vals as [|v [|? ?]]; try done. intros [= <-].
    simpl. rewrite length_replicate. split; [lia|done].
Qed.

(** An iteration of the PSF loop touches the flag of its own image only,
    and appends one entry to the PSF list. *)
Lemma psf_step_frame env conf psfex st i path st' :
  psf_step env conf psfex st i path = Ok st' →
  (∀ k, k ≠ i → band_flags st' !! k = band_flags st !! k)
  ∧ ∃ o, psf_list st' = psf_list st ++ [o].
Proof.
  unfold psf_step. destruct (index (band_flags st) i) as [f|]; [|done].
  cbn [rbind].
  destruct ((i =? 0)%nat && negb (fit_coadd_galaxy conf)).
  { intros [= <-]. cbn. split; [|eauto].
    intros k Hk. by rewrite list_lookup_alter_ne. }
  destruct (Z.land f (image_flags2check conf) =? 0);
    [|intros [= <-]; cbn; eauto].
  destruct (if String.eqb (psfs_type conf) "piff"
            then _get_piff_object env conf (piff_infos st) (strip path)
            else (piff_infos st, psfex i (strip path))) as [cache [r|e]];
    [|done].
  cbn [rbind]. destruct (negb (r.2 =? 0)); intros [= <-]; cbn.
  - split; [|eauto]. intros k Hk. by rewrite list_lookup_alter_ne.
  - eauto.
Qed.

Lemma psf_steps_frame env conf psfex paths : ∀ st i st',
  psf_steps env conf psfex st i paths = Ok st' →
  (∀ k, (k < i)%nat → band_flags st' !! k = band_flags st !! k)
  ∧ ∃ l, psf_list st' = psf_list st ++ l.
Proof.
  induction paths as [|path paths IH]; intros st i st'.
  - intros [= <-]. split; [done|]. exists []. by rewrite app_nil_r.
  - cbn [psf_steps].
    destruct (psf_step env conf psfex st i path) as [st1|] eqn:H1; [|done].
    cbn [rbind]. intros H2.
    destruct (psf_step_frame _ _ _ _ _ _ _ H1) as [Hf1 [o Ho]].
    destruct (IH _ _ _ H2) as [Hf2 [l Hl]]. split.
    + intros k Hk. rewrite Hf2 by lia. apply Hf1. lia.
    + exists (o :: l). rewrite Hl, Ho. by rewrite <- app_assoc.
Qed.

(** When the coadd is not fitted, the iteration for image 0 flags it and
    loads no PSF, whatever its flag was. *)
Lemma psf_step_coadd env conf psfex st path f0 :
  fit_coadd_galaxy conf = false → band_flags st !! O = Some f0 →
  ∃ st', psf_step env conf psfex st 0 path = Ok st'
    ∧ band_flags st' !! O = Some (Z.lor f0 1)
    ∧ psf_list st' = psf_list st ++ [None].
Proof.
  intros Hfit Hf0. unfold psf_step, index. rewrite Hf0, Hfit. cbn.
  eexists. split; [done|]. cbn. split; [|done].
  rewrite list_lookup_alter_eq, Hf0. done.
Qed.

Lemma lor_1_nonzero f : Z.lor f 1 ≠ 0.
Proof.
  intros H. assert (Z.testbit (Z.lor f 1) 0 = false) as Hb
    by (rewrite H; apply Z.bits_0).
  rewrite Z.lor_spec in Hb. change (Z.testbit 1 0) with true in Hb.
  by rewrite orb_true_r in Hb.
Qed.

(** C6.  The flags that [_load_meds_files] stores for a band have, for
    every exposure after the coadd, the value 0 or [IMAGE_FLAGS_SET] and
    no other; entry 0, the coadd, keeps the raw value of the image info
    table.  When the coadd is not fitted, [_get_psf_objects] flags entry 0
    (sets bit 0, so that the flag is nonzero) and loads no PSF for it. *)
Theorem image_flags_reduced (env : environment) (conf : config)
    (reader : flags_reader) (psfex : psfex_loader) (cache : piff_cache)
    (image_path : list string) (image_flags flags : list Z) :
  load_image_flags conf reader image_path image_flags = Ok flags →
  length flags = length image_flags
  ∧ flags !! O = image_flags !! O
  ∧ (∀ i f, (1 ≤ i)%nat → flags !! i = Some f →
       f = 0 ∨ f = IMAGE_FLAGS_SET)
  ∧ (fit_coadd_galaxy conf = false →
     ∀ f0 path paths,
       image_flags !! O = Some f0 → image_path = path :: paths →
       (∃ st1,
          psf_step env conf psfex
            {| band_flags := flags; psf_list := []; nflagged := 0;
               piff_infos := cache |} 0 path = Ok st1
          ∧ band_flags st1 !! O = Some (Z.lor f0 1)
          ∧ psf_list st1 = [None])
       ∧ Z.lor f0 1 ≠ 0
       ∧ ∀ st', _get_psf_objects env conf psfex cache image_path flags
                = Ok st' →
           band_flags st' !! O = Some (Z.lor f0 1)
           ∧ psf_list st' !! O = Some None).
Proof.
  unfold load_image_flags. intros Hload.
  destruct (replace_image_flags conf reader image_path image_flags)
    as [fl|] eqn:Hrep; [|done].
  cbn [rbind] in Hload. injection Hload as <-.
  destruct (replace_image_flags_head _ _ _ _ _ Hrep) as [Hlen H0].
  split; [by rewrite length_reduce_image_flags|].
  split; [by rewrite reduce_image_flags_lookup|].
  split.
  { intros i f Hi. rewrite reduce_image_flags_lookup.
    destruct i as [|i]; [lia|]. destruct (fl !! S i) as [g|]; [|done].
    simpl. intros [= <-]. destruct (Z.land g _ =? 0); auto. }
  intros Hfit f0 path paths Hf0 ->.
  set (st0 := {| band_flags := reduce_image_flags conf fl; psf_list := [];
                 nflagged := 0; piff_infos := cache |}).
  assert (band_flags st0 !! O = Some f0) as Hst0
    by (cbn; by rewrite reduce_image_flags_lookup, H0).
  destruct (psf_step_coadd env conf psfex st0 path f0 Hfit Hst0)
    as (st1 & Hstep & Hb1 & Hp1).
  split; [by exists st1|]. split; [apply lor_1_nonzero|].
  intros st'. unfold _get_psf_objects. cbn [psf_steps]. fold st0.
  rewrite Hstep. cbn [rbind]. intros Hrest.
  destruct (psf_steps_frame _ _ _ _ _ _ _ Hrest) as [Hfr [l Hl]].
  split.
  - rewrite Hfr by lia. done.
  - rewrite Hl, Hp1. done.
Qed.

Import Examples.

(** Four images with raw flags 16, 0, 5 and 2, bits 0 and 1 checked. *)
Lemma image_flags_reduced_witness :
  load_image_flags conf0 no_replacement paths0 [16; 0; 5; 2]
    = Ok [16; 0; 1; 1]
  ∧ (length [16; 0; 1; 1] = length [16; 0; 5; 2]
     ∧ [16; 0; 1; 1] !! O = [16; 0; 5; 2] !! O
     ∧ (∀ i f, (1 ≤ i)%nat → [16; 0; 1; 1] !! i = Some f →
          f = 0 ∨ f = IMAGE_FLAGS_SET)
     ∧ (fit_coadd_galaxy conf0 = false →
        ∀ f0 path paths,
          [16; 0; 5; 2] !! O = Some f0 → paths0 = path :: paths →
          (∃ st1,
             psf_step env0 conf0 no_psfex
               {| band_flags := [16; 0; 1; 1]; psf_list := [];
                  nflagged := 0; piff_infos := ∅ |} 0 path = Ok st1
             ∧ band_flags st1 !! O = Some (Z.lor f0 1)
             ∧ psf_list st1 = [None])
          ∧ Z.lor f0 1 ≠ 0
          ∧ ∀ st', _get_psf_objects env0 conf0 no_psfex ∅ paths0
                     [16; 0; 1; 1] = Ok st' →
              band_flags st' !! O = Some (Z.lor f0 1)
              ∧ psf_list st' !! O = Some None)).
Proof.
  split; [reflexivity|].
  apply (image_flags_reduced env0 conf0 no_replacement no_psfex ∅ paths0
           [16; 0; 5; 2] [16; 0; 1; 1]).
  reflexivity.
Defined.

(** The PSF loop on reduced flags: the coadd is flagged, image 1 gets its
    PIFF model, the blacklisted CCD 31 of image 2 adds [PSF_IN_BLACKLIST]
    to the flag of that image, and image 3 was flagged before. *)
Example psf_objects_example :
  ∃ st w,
    _get_psf_objects env0 conf0 no_psfex ∅ paths0 [16; 0; 0; 1] = Ok st
    ∧ band_flags st = [17; 0; 2; 1]
    ∧ psf_list st = [None; Some (PIFF w); None; None]
    ∧ nflagged st = 1.
Proof. eexists _, _. split; [by vm_compute|]. by repeat split. Qed.
End image_flags_facts.

(** ** PIFF models (SVDESMEDSImageIO._get_piff_object) *)

Section piff_object_facts.
Import SVDESMEDSImageIO.

(** [_read_piff_exp_info] on a missing summary file. *)
Lemma read_piff_exp_info_missing env conf expname expnum :
  int_of_string env (str_tail expname) = Some expnum →
  path_exists env
    (get_piff_exp_summary_file env (psfs_piff_run conf) expnum) = false →
  _read_piff_exp_info env conf expname =
  if psfs_allow_missing conf then Ok None
  else Raise (RuntimeError
                ("Missing piff exposure: "
                 ++ get_piff_exp_summary_file env (psfs_piff_run conf)
                      expnum)).
Proof. intros Hn He. unfold _read_piff_exp_info. by rewrite Hn, He. Qed.

(** [_get_piff_info] on an exposure that is not cached and whose summary
    file is missing. *)
Lemma get_piff_info_missing env conf (all_info : piff_cache) expname ccd
    expnum :
  all_info !! expname = None →
  int_of_string env (str_tail expname) = Some expnum →
  path_exists env
    (get_piff_exp_summary_file env (psfs_piff_run conf) expnum) = false →
  _get_piff_info env conf all_info expname ccd =
  if psfs_allow_missing conf then (<[expname := None]> all_info, Ok None)
  else (all_info,
        Raise (RuntimeError
                 ("Missing piff exposure: "
                  ++ get_piff_exp_summary_file env (psfs_piff_run conf)
                       expnum))).
Proof.
  intros Hc Hn He. unfold _get_piff_info.
  rewrite Hc, (read_piff_exp_info_missing _ _ _ _ Hn He).
  destruct (psfs_allow_missing conf); [|done].
  cbn [rbind]. by rewrite lookup_insert_eq.
Qed.

(** C5.  [_get_piff_object] on an image path from which exposure name and
    detector number are read.  (1) It returns no PSF object and the flag
    [PSF_IN_BLACKLIST], without raising, exactly when the metadata record
    is absent and tolerated ([None]), or its [flag] field is nonzero, or
    its detector number is 31; every other return has a PSF object and
    flag 0.  (2) For an exposure not yet cached whose summary file is
    missing, it raises [RuntimeError] when [allow_missing] is off, and
    treats the record as absent (blacklisted, no PSF) when it is on.
    (3) When the record signals no problem and the model file does not
    exist, it raises [MissingDataError], whatever [allow_missing] is. *)
Theorem piff_object_outcomes (env : environment) (conf : config)
    (all_info : piff_cache) (impath expname ccd key : string) :
  Y3DESMEDSImageIO._get_expccd_and_key impath = Ok (expname, ccd, key) →
  let info := (_get_piff_info env conf all_info expname ccd).2 in
  let out := (_get_piff_object env conf all_info impath).2 in
  let blacklisted :=
    info = Ok None
    ∨ ∃ r, info = Ok (Some r) ∧ (flag r ≠ 0 ∨ ccdnum r = 31) in
  (blacklisted ↔ out = Ok (None, PSF_IN_BLACKLIST))
  ∧ (∀ o f, out = Ok (o, f) →
       (o = None ∧ f = PSF_IN_BLACKLIST) ∨ (is_Some o ∧ f = 0))
  ∧ (∀ expnum,
       all_info !! expname = None →
       int_of_string env (str_tail expname) = Some expnum →
       path_exists env
         (get_piff_exp_summary_file env (psfs_piff_run conf) expnum)
         = false →
       out = if psfs_allow_missing conf
             then Ok (None, PSF_IN_BLACKLIST)
             else Raise (RuntimeError
                    ("Missing piff exposure: "
                     ++ get_piff_exp_summary_file env (psfs_piff_run conf)
                          expnum)))
  ∧ (∀ r psf_path,
       info = Ok (Some r) → flag r = 0 → ccdnum r ≠ 31 →
       _get_piff_path env r = Ok psf_path →
       path_exists env psf_path = false →
       out = Raise (MissingDataError ("missing psf file: " ++ psf_path))).
Proof.
  intros Hkey info out blacklisted.
  assert (out =
    (i ← info ;;;
     match i with
     | None => Ok (None, PSF_IN_BLACKLIST)
     | Some i =>
         if negb (flag i =? 0) || (ccdnum i =? 31) then
           Ok (None, PSF_IN_BLACKLIST)
         else
           psf_path ← _get_piff_path env i ;;;
           if negb (path_exists env psf_path) then
             Raise (MissingDataError ("missing psf file: " ++ psf_path))
           else
             Ok (Some (PIFF (PIFFWrapper.__init__ env psf_path
                               (psfs_stamp_size conf))), 0)
     end)) as Hout.
  { unfold out, info, _get_piff_object. rewrite Hkey.
    by destruct (_get_piff_info env conf all_info expname ccd). }
  assert (info = (_get_piff_info env conf all_info expname ccd).2)
    as Hinfo by done.
  clearbody out info.
  assert (∀ r : piff_info,
    negb (flag r =? 0) || (ccdnum r =? 31) = true
    ↔ flag r ≠ 0 ∨ ccdnum r = 31) as Hcond.
  { intros r. rewrite orb_true_iff, negb_true_iff, Z.eqb_neq, Z.eqb_eq.
    done. }
  assert (PSF_IN_BLACKLIST ≠ 0) as Hbl by done.
  split; [|split; [|split]].
  - subst out blacklisted. split.
    + intros [->|(r & -> & Hr)]; [done|]. cbn [rbind].
      by rewrite (proj2 (Hcond r) Hr).
    + destruct info as [[r|]|e]; cbn [rbind]; [|by left|done].
      destruct (negb (flag r =? 0) || (ccdnum r =? 31)) eqn:E.
      * intros _. right. exists r. split; [done|]. by apply Hcond.
      * destruct (_get_piff_path env r) as [p|]; [|done]. cbn [rbind].
        by destruct (negb (path_exists env p)).
  - intros o f. subst out.
    destruct info as [[r|]|e]; cbn [rbind]; [| |done].
    + destruct (negb (flag r =? 0) || (ccdnum r =? 31)).
      * intros [= <- <-]. by left.
      * destruct (_get_piff_path env r) as [p|]; [|done]. cbn [rbind].
        destruct (negb (path_exists env p)); [done|].
        intros [= <- <-]. right. split; [by eexists|done].
    + intros [= <- <-]. by left.
  - intros expnum Hc Hn He.
    rewrite (get_piff_info_missing env conf all_info expname ccd expnum
               Hc Hn He) in Hinfo.
    subst out. destruct (psfs_allow_missing conf); by subst info.
  - intros r p -> Hf Hc Hp He. subst out. cbn [rbind].
    assert (negb (flag r =? 0) || (ccdnum r =? 31) = false) as ->.
    { apply not_true_is_false. rewrite Hcond. intros [?|?]; done. }
    rewrite Hp. cbn [rbind]. by rewrite He.
Qed.

Import Examples.

(** CCD 31 of an exposure with a summary file: blacklisted. *)
Lemma piff_object_outcomes_witness :
  Y3DESMEDSImageIO._get_expccd_and_key
    "red/D00243626_i_c31_r2363p01_immasked.fits.fz"
    = Ok ("D00243626", "31", "D00243626-31")
  ∧ (_get_piff_object env0 conf0 ∅
       "red/D00243626_i_c31_r2363p01_immasked.fits.fz").2
    = Ok (None, PSF_IN_BLACKLIST).
Proof.
  split; [reflexivity|].
  apply (piff_object_outcomes env0 conf0 ∅
           "red/D00243626_i_c31_r2363p01_immasked.fits.fz"
           "D00243626" "31" "D00243626-31" eq_refl).
  right. eexists. split; [by vm_compute|]. right. reflexivity.
Defined.

(** The four outcomes on the example environment: a model that loads, a
    flagged CCD, a model file that is missing, and a summary file that is
    missing. *)
Example piff_object_examples :
  (∃ w, (_get_piff_object env0 conf0 ∅
           "red/D00243626_i_c30_r2363p01_immasked.fits.fz").2
        = Ok (Some (PIFF w), 0)
        ∧ PIFFWrapper.filename w
          = "/data/y3/243626/D00243626_i_c30_piff.fits")
  ∧ (_get_piff_object env0 conf0 ∅
       "red/D00243626_i_c33_r2363p01_immasked.fits.fz").2
    = Ok (None, PSF_IN_BLACKLIST)
  ∧ (_get_piff_object env0 conf0 ∅
       "red/D00243626_i_c32_r2363p01_immasked.fits.fz").2
    = Raise (MissingDataError
               "missing psf file: /data/y3/243626/D00243626_i_c32_piff.fits")
  ∧ (_get_piff_object env0 conf0 ∅
       "red/D00999999_i_c30_r2363p01_immasked.fits.fz").2
    = Raise (RuntimeError
        "Missing piff exposure: /piff/run1/other/exp_psf_cat_other.fits").
Proof.
  split; [eexists; split; by vm_compute|]. repeat split; by vm_compute.
Qed.
End piff_object_facts.

(** ** The centre cache (PIFFWrapper) *)

Section center_cache_facts.
Import PIFFWrapper.

(** The cache key does not depend on the coordinates. *)
Lemma center_cache_key_None env row col :
  _get_center_cache_key env row col = None.
Proof. reflexivity. Qed.

Lemma get_rec_cache env self row col :
  center_cache (get_rec env self row col).1 =
  <[None := ((inject_Z (shape (get_rec env self row col).2).1 - 1) / 2,
             (inject_Z (shape (get_rec env self row col).2).2 - 1) / 2)%Q]>
    (center_cache self).
Proof. reflexivity. Qed.

(** [get_center(row, col)] after [get_rec(row, col)] returns the cached
    centre and leaves the wrapper as it is. *)
Lemma get_center_after_get_rec env self row col :
  let self' := (get_rec env self row col).1 in
  ∃ cen, center_cache self' !! None = Some cen
    ∧ get_center env self' row col = (self', Ok cen).
Proof.
  intros self'. unfold get_center. cbv zeta.
  rewrite center_cache_key_None.
  assert (is_Some (center_cache self' !! None)) as [cen Hcen].
  { unfold self'. rewrite get_rec_cache, lookup_insert_eq. by eexists. }
  exists cen. split; [done|].
  rewrite bool_decide_eq_true_2 by (apply elem_of_dom; by eexists).
  by rewrite Hcen.
Qed.

(** [get_rec(row, col)] twice leaves the cache as after the first call. *)
Lemma get_rec_idempotent env self row col :
  let self' := (get_rec env self row col).1 in
  center_cache (get_rec env self' row col).1 = center_cache self'.
Proof.
  intros self'. rewrite get_rec_cache. unfold self'.
  rewrite get_rec_cache. cbn [get_rec fst snd piff_obj stamp_size].
  by rewrite insert_insert_eq.
Qed.

(** C2, on the code.  After [get_rec(r1, c1)] and [get_rec(r2, c2)] on a
    new wrapper the cache has one entry, under the key [None], whatever
    the two coordinate pairs and the strings their formatting gives:
    [_get_center_cache_key] builds the key and does not return it. *)
Theorem center_cache_single_entry (env : environment) (psf_path : string)
    (size : Z) (r1 c1 r2 c2 : Q) :
  let w0 := __init__ env psf_path size in
  let w1 := (get_rec env w0 r1 c1).1 in
  let w2 := (get_rec env w1 r2 c2).1 in
  _get_center_cache_key env r1 c1 = _get_center_cache_key env r2 c2
  ∧ dom (center_cache w2) = {[ None ]}
  ∧ center_cache w2 !! Some (formatted_key env r1 c1) = None
  ∧ center_cache w2 !! Some (formatted_key env r2 c2) = None.
Proof.
  intros w0 w1 w2. split; [done|].
  assert (∃ cen, center_cache w2 = {[ None := cen ]}) as [cen Hc].
  { unfold w2. rewrite get_rec_cache. unfold w1. rewrite get_rec_cache.
    eexists. rewrite insert_insert_eq. unfold w0. cbn [center_cache __init__].
    by rewrite insert_empty. }
  rewrite Hc. split; [by rewrite dom_singleton_L|].
  split; by rewrite lookup_singleton_ne.
Qed.

Import Examples.

(** [get_rec(1.0, 2.0)] and then [get_rec(3.0, 4.0)]: the two key strings
    differ, and the cache holds the one entry [None]. *)
Example center_cache_example :
  let w0 := __init__ env0 "/data/y3/243626/D00243626_i_c30_piff.fits" 3 in
  let w1 := (get_rec env0 w0 1 2).1 in
  let w2 := (get_rec env0 w1 3 4).1 in
  formatted_key env0 1 2 = "1-2" ∧ formatted_key env0 3 4 = "3-4"
  ∧ ∃ cen, map_to_list (center_cache w2) = [(None, cen)]
      ∧ (cen.1 == 1)%Q ∧ (cen.2 == 1)%Q.
Proof.
  intros w0 w1 w2. split; [by vm_compute|]. split; [by vm_compute|].
  exists (2 # 2, 2 # 2)%Q. split; [by vm_compute|]. split; reflexivity.
Qed.
End center_cache_facts.

(** ** PSF trimming (SVDESMEDSImageIO._trim_psf) *)

Section trim_psf_facts.
Import SVDESMEDSImageIO.

(** [int(x)] lies between 0 and [x], less than 1 away from [x]. *)
Lemma int_of_float_trunc (x : Q) :
  (0 <= x → inject_Z (int_of_float x) <= x
            ∧ x < inject_Z (int_of_float x + 1))%Q
  ∧ (x <= 0 → inject_Z (int_of_float x - 1) < x
              ∧ x <= inject_Z (int_of_float x))%Q.
Proof.
  destruct x as [n d]. unfold int_of_float, Qle, Qlt, inject_Z. simpl.
  pose proof (Z.quot_rem' n (Z.pos d)) as Hqr.
  split; intros Hx.
  - assert (0 ≤ n) as Hn by lia.
    pose proof (Z.rem_bound_pos n (Z.pos d) Hn ltac:(lia)). nia.
  - assert (n ≤ 0) as Hn by lia.
    pose proof (Z.rem_nonpos n (Z.pos d) ltac:(lia) Hn).
    pose proof (Z.rem_bound_abs n (Z.pos d) ltac:(lia)). nia.
Qed.

(** A slice with bounds inside the list. *)
Lemma py_slice_in_range {A} (l : list A) (lo hi : Z) :
  0 ≤ lo ≤ hi → hi ≤ Z.of_nat (length l) →
  py_slice l lo hi = take (Z.to_nat (hi - lo)) (drop (Z.to_nat lo) l).
Proof.
  intros H1 H2. unfold py_slice, slice_index. cbv zeta.
  rewrite !(proj2 (Z.ltb_ge _ _)) by lia.
  by rewrite !Z.min_l by lia.
Qed.

Lemma py_slice_lookup {A} (l : list A) (lo hi : Z) (k : nat) :
  0 ≤ lo ≤ hi → hi ≤ Z.of_nat (length l) → Z.of_nat k < hi - lo →
  py_slice l lo hi !! k = l !! (Z.to_nat lo + k)%nat.
Proof.
  intros H1 H2 Hk. rewrite py_slice_in_range by done.
  rewrite lookup_take_lt by lia. by rewrite lookup_drop.
Qed.

Lemma py_slice_length {A} (l : list A) (lo hi : Z) :
  0 ≤ lo ≤ hi → hi ≤ Z.of_nat (length l) →
  length (py_slice l lo hi) = Z.to_nat (hi - lo).
Proof.
  intros H1 H2. rewrite py_slice_in_range by done.
  rewrite length_take, length_drop. lia.
Qed.

Lemma py_slice2_get2 {A} (im : list (list A)) m (r0 r1 c0 c1 : Z) i j :
  rect m im →
  0 ≤ r0 ≤ r1 → r1 ≤ Z.of_nat (length im) →
  0 ≤ c0 ≤ c1 → c1 ≤ Z.of_nat m →
  Z.of_nat i < r1 - r0 → Z.of_nat j < c1 - c0 →
  get2 (py_slice2 im r0 r1 c0 c1) i j =
  get2 im (Z.to_nat r0 + i) (Z.to_nat c0 + j).
Proof.
  intros Hr Hr0 Hr1 Hc0 Hc1 Hi Hj. unfold get2, py_slice2.
  rewrite list_lookup_fmap, py_slice_lookup by done.
  destruct (im !! (Z.to_nat r0 + i)%nat) as [row|] eqn:E; [|done]. simpl.
  apply py_slice_lookup; [done| |done].
  unfold rect in Hr. rewrite Forall_lookup in Hr. by rewrite (Hr _ _ E).
Qed.

(** C10.  [_trim_psf] returns the slice
    [im[rowstart:rowend, colstart:colend]], with the four bounds the
    truncations of [cen[0] -/+ d0/2 + 0.5] and [cen[1] -/+ d1/2 + 0.5], and
    a centre whose row and column have both had [rowstart] subtracted.
    When the bounds lie inside the image, pixel [(i, j)] of the trimmed
    image is pixel [(rowstart + i, colstart + j)] of the image. *)
Theorem trim_psf_slice (dims : Q * Q) (im : farray) (cen : Q * Q) :
  let rowstart := int_of_float (cen.1 - dims.1 / 2 + 0.5)%Q in
  let rowend := int_of_float (cen.1 + dims.1 / 2 + 0.5)%Q in
  let colstart := int_of_float (cen.2 - dims.2 / 2 + 0.5)%Q in
  let colend := int_of_float (cen.2 + dims.2 / 2 + 0.5)%Q in
  (_trim_psf dims im cen).1 = py_slice2 im rowstart rowend colstart colend
  ∧ (_trim_psf dims im cen).2
    = (cen.1 - inject_Z rowstart, cen.2 - inject_Z rowstart)%Q
  ∧ ∀ m i j,
      rect m im →
      0 ≤ rowstart ≤ rowend → rowend ≤ Z.of_nat (length im) →
      0 ≤ colstart ≤ colend → colend ≤ Z.of_nat m →
      Z.of_nat i < rowend - rowstart → Z.of_nat j < colend - colstart →
      length (_trim_psf dims im cen).1 = Z.to_nat (rowend - rowstart)
      ∧ get2 (_trim_psf dims im cen).1 i j
        = get2 im (Z.to_nat rowstart + i) (Z.to_nat colstart + j).
Proof.
  intros rowstart rowend colstart colend.
  split; [done|]. split; [done|].
  intros m i j Hr Hr0 Hr1 Hc0 Hc1 Hi Hj.
  change (_trim_psf dims im cen).1
    with (py_slice2 im rowstart rowend colstart colend).
  split.
  - unfold py_slice2. by rewrite length_fmap, py_slice_length.
  - by apply (py_slice2_get2 im m).
Qed.

(** A 5x5 image with centre (2, 2), trimmed to 3 rows and 1 column: the
    column slice starts at 2, and the new centre is (1, 1). *)
Lemma trim_psf_slice_witness :
  let im := [[0; 1; 2; 3; 4]; [10; 11; 12; 13; 14]; [20; 21; 22; 23; 24];
             [30; 31; 32; 33; 34]; [40; 41; 42; 43; 44]]%Q in
  (_trim_psf (3, 1)%Q im (2, 2)%Q).1 = [[12]; [22]; [32]]%Q
  ∧ (_trim_psf (3, 1)%Q im (2, 2)%Q).2 = (2 - inject_Z 1, 2 - inject_Z 1)%Q
  ∧ get2 (_trim_psf (3, 1)%Q im (2, 2)%Q).1 1 0 = get2 im 2 2.
Proof.
  intros im.
  destruct (trim_psf_slice (3, 1)%Q im (2, 2)%Q) as (H1 & H2 & H3).
  split; [exact H1|]. split; [exact H2|].
  refine (proj2 (H3 5%nat 1%nat 0%nat _ _ _ _ _ _ _)).
  - repeat constructor.
  - by vm_compute.
  - by vm_compute.
  - by vm_compute.
  - by vm_compute.
  - by vm_compute.
  - by vm_compute.
Defined.
End trim_psf_facts.

(** ** Off-chip neighbours
       (Y1DESMEDSImageIO._get_offchip_nbr_psf_obs_and_jac) *)

Section offchip_facts.
Import Y1DESMEDSImageIO.
Local Open Scope Q_scope.

(** [inv2] returns the inverse matrix of a matrix with nonzero
    determinant. *)
Lemma inv2_inverse (a b c d : Q) :
  ¬ a * d - b * c == 0 →
  ∃ M, inv2 a b c d = Ok M
    ∧ M = ((d / (a * d - b * c), - b / (a * d - b * c)),
           (- c / (a * d - b * c), a / (a * d - b * c)))
    ∧ a * M.1.1 + b * M.2.1 == 1 ∧ a * M.1.2 + b * M.2.2 == 0
    ∧ c * M.1.1 + d * M.2.1 == 0 ∧ c * M.1.2 + d * M.2.2 == 1
    ∧ M.1.1 * a + M.1.2 * c == 1 ∧ M.1.1 * b + M.1.2 * d == 0
    ∧ M.2.1 * a + M.2.2 * c == 0 ∧ M.2.1 * b + M.2.2 * d == 1.
Proof.
  intros Hdet. unfold inv2. cbv zeta.
  destruct (Qeq_bool (a * d - b * c) 0) eqn:E;
    [by apply Qeq_bool_iff in E|].
  eexists. split; [done|]. split; [done|]. cbn [fst snd].
  repeat split; field; done.
Qed.

(** C3.  For a neighbour with cutouts, on the coadd of the central object,
    and a central Jacobian [J] with nonzero determinant, the placement
    returns the PSF of the central observation paired with [J] re-centred
    at [(row, col) = Jinv . (du, dv) + (row0, col0)], where [Jinv] is the
    inverse matrix of [J] and [(du, dv)] the tangent-plane offset of the
    neighbour; [(row, col)] is the pixel position that [J] maps to
    [(du, dv)]. *)
Theorem offchip_nbr_placement (s : sky) (cen nbr : meds_object)
    (cen_obs : Observation) (image2sky : Q → Q → Q * Q) :
  ncutout nbr ≠ 0%Z →
  file_id cen 0 = file_id nbr 0 →
  coadd_wcs s (file_id cen 0) = Some image2sky →
  let J := jacobian cen_obs in
  ¬ dudrow J * dvdcol J - dudcol J * dvdrow J == 0 →
  let uv := uv_offset s image2sky cen nbr in
  ∃ Jinv row col,
    inv2 (dudrow J) (dudcol J) (dvdrow J) (dvdcol J) = Ok Jinv
    ∧ (dudrow J * Jinv.1.1 + dudcol J * Jinv.2.1 == 1
       ∧ dudrow J * Jinv.1.2 + dudcol J * Jinv.2.2 == 0
       ∧ dvdrow J * Jinv.1.1 + dvdcol J * Jinv.2.1 == 0
       ∧ dvdrow J * Jinv.1.2 + dvdcol J * Jinv.2.2 == 1)
    ∧ row = Jinv.1.1 * uv.1 + Jinv.1.2 * uv.2 + row0 J
    ∧ col = Jinv.2.1 * uv.1 + Jinv.2.2 * uv.2 + col0 J
    ∧ _get_offchip_nbr_psf_obs_and_jac s cen nbr cen_obs
      = Ok (Some (psf cen_obs, set_cen J row col))
    ∧ dudrow J * (row - row0 J) + dudcol J * (col - col0 J) == uv.1
    ∧ dvdrow J * (row - row0 J) + dvdcol J * (col - col0 J) == uv.2.
Proof.
  intros Hn Hid Hwcs J Hdet uv.
  destruct (inv2_inverse _ _ _ _ Hdet)
    as (M & HM & HMeq & H11 & H12 & H21 & H22 & _).
  exists M, (M.1.1 * uv.1 + M.1.2 * uv.2 + row0 J),
    (M.2.1 * uv.1 + M.2.2 * uv.2 + col0 J).
  split; [done|]. split; [done|]. split; [done|]. split; [done|].
  split.
  - unfold _get_offchip_nbr_psf_obs_and_jac.
    rewrite (proj2 (Z.eqb_neq _ _) Hn), <- Hid, Z.eqb_refl, Hwcs.
    cbn [negb]. fold J. rewrite HM. done.
  - rewrite HMeq. cbn [fst snd]. split; field; done.
Qed.

Import Examples.

(** The neighbour [meds_nbr] of the object [meds3], placed with the
    Jacobian [[1, 2], [3, 4]] of [obs_cen]. *)
Lemma offchip_nbr_placement_witness :
  ∃ row col,
    _get_offchip_nbr_psf_obs_and_jac sky0 meds3 meds_nbr obs_cen
    = Ok (Some (psf0, set_cen (jacobian obs_cen) row col))
    ∧ 1 * (row - 16) + 2 * (col - 16)
      == (uv_offset sky0 (λ x y, (x, y)) meds3 meds_nbr).1
    ∧ 3 * (row - 16) + 4 * (col - 16)
      == (uv_offset sky0 (λ x y, (x, y)) meds3 meds_nbr).2.
Proof.
  destruct (offchip_nbr_placement sky0 meds3 meds_nbr obs_cen
              (λ x y, (x, y)))
    as (Jinv & row & col & _ & _ & _ & _ & Hret & Hu & Hv).
  - by vm_compute.
  - reflexivity.
  - reflexivity.
  - by vm_compute.
  - exists row, col. split; [exact Hret|]. split; [exact Hu|exact Hv].
Defined.
End offchip_facts.

(** ** Flux and surface brightness
       (SVDESMEDSImageIO._get_band_observations) *)

Section flux_facts.
Import SVDESMEDSImageIO.

Lemma amap_amap (f g : Q → Q) (a : farray) :
  amap f (amap g a) = amap (λ x, f (g x)) a.
Proof.
  unfold amap. rewrite <- list_fmap_compose. apply list_fmap_ext.
  intros i row _. simpl. by rewrite <- list_fmap_compose.
Qed.

Lemma farray_eq_amap (f : Q → Q) (a : farray) :
  (∀ x, f x == x)%Q → farray_eq (amap f a) a.
Proof.
  intros Hf. unfold farray_eq, amap.
  induction a as [|row a IH]; constructor; [|done].
  induction row as [|x row IHr]; constructor; [apply Hf|done].
Qed.

Lemma attr_eq_map (f : Q → Q) (w : attr farray) :
  (∀ x, f x == x)%Q → attr_eq (attr_map (amap f) w) w.
Proof. intros Hf. destruct w; simpl; try done. by apply farray_eq_amap. Qed.

Lemma attr_eq_map_map (f g : Q → Q) (w : attr farray) :
  (∀ x, f (g x) == x)%Q →
  attr_eq (attr_map (amap f) (attr_map (amap g) w)) w.
Proof.
  intros Hf. destruct w; simpl; try done.
  rewrite amap_amap. by apply farray_eq_amap.
Qed.

Lemma scale_attr_present (f : Q → Q) (w : attr farray) :
  w ≠ Missing → scale_attr f w = Ok (attr_map (amap f) w).
Proof. by destruct w. Qed.

Lemma attr_map_present (f : farray → farray) (w : attr farray) :
  w ≠ Missing → attr_map f w ≠ Missing.
Proof. by destruct w. Qed.

(** The conversion of an unflagged observation is the [try] block
    followed by the scaling of the optional weight maps. *)
Lemma convert_obs_unfold env op_image op_weight obs :
  meta_flags obs = 0 →
  let s2 := Qpower (scale (jacobian obs)) 2 in
  let s4 := (s2 * s2)%Q in
  convert_obs env op_image op_weight obs =
  (obs' ← set_image_and_weight env obs
            (amap (λ x, op_image x s2) (image obs))
            (amap (λ x, op_weight x s4) (weight obs)) ;;;
   scale_weights (λ x, op_weight x s4) obs').
Proof. intros Hfl. unfold convert_obs. by rewrite Hfl. Qed.

(** Without a fatal error: image and weight are set as given. *)
Lemma set_image_and_weight_accepted env obs im w :
  set_weight_error env w = None →
  set_image_and_weight env obs im w = set_weight env (set_image obs im) w
  ∧ ∃ obs', set_weight env (set_image obs im) w = Ok obs'
      ∧ image obs' = im ∧ weight obs' = w
      ∧ weight_raw obs' = weight_raw obs ∧ weight_us obs' = weight_us obs
      ∧ weight_orig obs' = weight_orig obs ∧ seg obs' = seg obs
      ∧ jacobian obs' = jacobian obs ∧ psf obs' = psf obs
      ∧ meta_flags obs' = meta_flags obs ∧ meta_icut obs' = meta_icut obs.
Proof.
  intros Hw. unfold set_image_and_weight, set_weight. cbv zeta.
  rewrite Hw. split; [done|]. eexists. split; [done|]. done.
Qed.

(** With a fatal error: the handler patches pixel (0, 0) and sets the
    weight again. *)
Lemma set_image_and_weight_fatal env obs im w msg :
  set_weight_error env w = Some msg → is_Some (get2 w 0 0) →
  set_image_and_weight env obs im w =
  set_weight env (set_image obs im) (set2 w 0 0 1%Q).
Proof.
  intros Hw Hin. unfold set_image_and_weight. cbv zeta.
  unfold set_weight at 1. rewrite Hw. unfold setitem2.
  by rewrite bool_decide_eq_true_2.
Qed.

Lemma Qpower_2_nonzero (s : Q) :
  (¬ s == 0 → ¬ Qpower s 2 == 0 ∧ ¬ Qpower s 2 * Qpower s 2 == 0)%Q.
Proof.
  intros Hs. assert (Qpower s 2 == s * s)%Q as H2 by (by simpl).
  assert (¬ Qpower s 2 == 0)%Q as Hn.
  { rewrite H2. intros [H|H]%Qmult_integral; done. }
  split; [done|]. intros [H|H]%Qmult_integral; done.
Qed.

(** One conversion whose weight map ngmix accepts: the image is combined
    with the squared pixel scale by [op_image], the weight maps with its
    square by [op_weight], and nothing else changes. *)
Lemma convert_obs_accepted env op_image op_weight obs :
  meta_flags obs = 0 →
  weight_raw obs ≠ Missing → weight_us obs ≠ Missing →
  let s2 := Qpower (scale (jacobian obs)) 2 in
  let s4 := (s2 * s2)%Q in
  set_weight_error env (amap (λ x, op_weight x s4) (weight obs)) = None →
  convert_obs env op_image op_weight obs =
  Ok {| image := amap (λ x, op_image x s2) (image obs);
        weight := amap (λ x, op_weight x s4) (weight obs);
        weight_raw := attr_map (amap (λ x, op_weight x s4)) (weight_raw obs);
        weight_us := attr_map (amap (λ x, op_weight x s4)) (weight_us obs);
        weight_orig := weight_orig obs; seg := seg obs;
        jacobian := jacobian obs; psf := psf obs;
        meta_flags := meta_flags obs; meta_icut := meta_icut obs |}.
Proof.
  intros Hfl Hraw Hus s2 s4 Hw.
  rewrite convert_obs_unfold by done. fold s2 s4.
  unfold set_image_and_weight, set_weight. cbv zeta. rewrite Hw.
  cbn [rbind]. unfold scale_weights.
  cbn [weight_raw weight_us set_image].
  by rewrite !scale_attr_present.
Qed.

(** C7, as the code has it.  For an unflagged observation with nonzero
    pixel scale whose converted weight maps ngmix accepts (no
    [GMixFatalError], so the fallback does not run): the conversion to flux
    multiplies the image by the squared pixel scale and divides weight,
    weight_raw and weight_us by its fourth power; the conversion to
    surface brightness divides and multiplies; and the second after the
    first restores image and weight maps exactly, leaving every other
    attribute as it was. *)
Theorem flux_roundtrip (env : environment) (obs : Observation) :
  meta_flags obs = 0 →
  ¬ (scale (jacobian obs) == 0)%Q →
  weight_raw obs ≠ Missing → weight_us obs ≠ Missing →
  let s2 := Qpower (scale (jacobian obs)) 2 in
  let s4 := (s2 * s2)%Q in
  set_weight_error env (amap (λ x, x / s4)%Q (weight obs)) = None →
  set_weight_error env
    (amap (λ x, x * s4)%Q (amap (λ x, x / s4)%Q (weight obs))) = None →
  ∃ obs1 obs2,
    to_flux env obs = Ok obs1
    ∧ to_surface_brightness env obs1 = Ok obs2
    ∧ image obs1 = amap (λ x, x * s2)%Q (image obs)
    ∧ weight obs1 = amap (λ x, x / s4)%Q (weight obs)
    ∧ weight_raw obs1 = attr_map (amap (λ x, x / s4)%Q) (weight_raw obs)
    ∧ weight_us obs1 = attr_map (amap (λ x, x / s4)%Q) (weight_us obs)
    ∧ image obs2 = amap (λ x, x / s2)%Q (image obs1)
    ∧ weight obs2 = amap (λ x, x * s4)%Q (weight obs1)
    ∧ weight_raw obs2 = attr_map (amap (λ x, x * s4)%Q) (weight_raw obs1)
    ∧ weight_us obs2 = attr_map (amap (λ x, x * s4)%Q) (weight_us obs1)
    ∧ farray_eq (image obs2) (image obs)
    ∧ farray_eq (weight obs2) (weight obs)
    ∧ attr_eq (weight_raw obs2) (weight_raw obs)
    ∧ attr_eq (weight_us obs2) (weight_us obs)
    ∧ weight_orig obs2 = weight_orig obs ∧ seg obs2 = seg obs
    ∧ jacobian obs2 = jacobian obs ∧ psf obs2 = psf obs
    ∧ meta_flags obs2 = meta_flags obs ∧ meta_icut obs2 = meta_icut obs.
Proof.
  intros Hfl Hs Hraw Hus s2 s4 Hw1 Hw2.
  destruct (Qpower_2_nonzero _ Hs) as [Hs2 Hs4]. fold s2 in Hs2, Hs4.
  fold s4 in Hs4.
  eexists _, _. split.
  { unfold to_flux. by apply convert_obs_accepted. }
  split.
  { unfold to_surface_brightness. apply convert_obs_accepted; cbn; try done.
    - by apply attr_map_present.
    - by apply attr_map_present. }
  cbn [image weight weight_raw weight_us weight_orig seg jacobian psf
       meta_flags meta_icut]. fold s2 s4.
  repeat (split; [done|]).
  split; [|split; [|split; [|split]]]; try done.
  - rewrite amap_amap. apply farray_eq_amap. intros x. by field.
  - rewrite amap_amap. apply farray_eq_amap. intros x. by field.
  - apply attr_eq_map_map. intros x. by field.
  - apply attr_eq_map_map. intros x. by field.
Qed.

(** A flagged observation is left as it is by either conversion. *)
Lemma convert_obs_flagged env op_image op_weight obs :
  meta_flags obs ≠ 0 → convert_obs env op_image op_weight obs = Ok obs.
Proof. intros H%Z.eqb_neq. unfold convert_obs. by rewrite H. Qed.

(** Which conversion [_get_band_observations] applies: to flux for
    surface-brightness images and a galsim fitter, to surface brightness
    for flux images and another fitter, none otherwise. *)
Lemma band_observations_conversion env conf coadd_obs_list obs_list :
  let sb := String.eqb (image_type conf) "surface_brightness" in
  let galsim := contains "galsim" (fitter_type conf) in
  _get_band_observations env conf coadd_obs_list obs_list =
  if sb && galsim then
    c ← for_each (to_flux env) coadd_obs_list ;;;
    o ← for_each (to_flux env) obs_list ;;; Ok (c, o)
  else if negb sb && negb galsim then
    c ← for_each (to_surface_brightness env) coadd_obs_list ;;;
    o ← for_each (to_surface_brightness env) obs_list ;;; Ok (c, o)
  else Ok (coadd_obs_list, obs_list).
Proof. reflexivity. Qed.

(** The other order: to surface brightness first, then to flux. *)
Lemma surface_brightness_roundtrip (env : environment) (obs : Observation) :
  meta_flags obs = 0 →
  ¬ (scale (jacobian obs) == 0)%Q →
  weight_raw obs ≠ Missing → weight_us obs ≠ Missing →
  let s2 := Qpower (scale (jacobian obs)) 2 in
  let s4 := (s2 * s2)%Q in
  set_weight_error env (amap (λ x, x * s4)%Q (weight obs)) = None →
  set_weight_error env
    (amap (λ x, x / s4)%Q (amap (λ x, x * s4)%Q (weight obs))) = None →
  ∃ obs1 obs2,
    to_surface_brightness env obs = Ok obs1
    ∧ to_flux env obs1 = Ok obs2
    ∧ farray_eq (image obs2) (image obs)
    ∧ farray_eq (weight obs2) (weight obs)
    ∧ attr_eq (weight_raw obs2) (weight_raw obs)
    ∧ attr_eq (weight_us obs2) (weight_us obs).
Proof.
  intros Hfl Hs Hraw Hus s2 s4 Hw1 Hw2.
  destruct (Qpower_2_nonzero _ Hs) as [Hs2 Hs4]. fold s2 in Hs2, Hs4.
  fold s4 in Hs4.
  eexists _, _. split.
  { unfold to_surface_brightness. by apply convert_obs_accepted. }
  split.
  { unfold to_flux. apply convert_obs_accepted; cbn; try done.
    - by apply attr_map_present.
    - by apply attr_map_present. }
  cbn [image weight weight_raw weight_us jacobian]. fold s2 s4.
  split; [|split; [|split]].
  - rewrite amap_amap. apply farray_eq_amap. intros x. by field.
  - rewrite amap_amap. apply farray_eq_amap. intros x. by field.
  - apply attr_eq_map_map. intros x. by field.
  - apply attr_eq_map_map. intros x. by field.
Qed.

Import Examples.

(** [obs_cen]: pixel scale 2, positive weights. *)
Lemma flux_roundtrip_witness :
  ∃ obs1 obs2,
    to_flux env0 obs_cen = Ok obs1
    ∧ to_surface_brightness env0 obs1 = Ok obs2
    ∧ image obs1 = amap (λ x, x * (Qpower 2 2))%Q (image obs_cen)
    ∧ farray_eq (image obs2) (image obs_cen)
    ∧ farray_eq (weight obs2) (weight obs_cen)
    ∧ attr_eq (weight_raw obs2) (weight_raw obs_cen)
    ∧ attr_eq (weight_us obs2) (weight_us obs_cen).
Proof.
  destruct (flux_roundtrip env0 obs_cen)
    as (obs1 & obs2 & H1 & H2 & H3 & _ & _ & _ & _ & _ & _ & _
        & H4 & H5 & H6 & H7 & _).
  - reflexivity.
  - by vm_compute.
  - discriminate.
  - discriminate.
  - by vm_compute.
  - by vm_compute.
  - exists obs1, obs2. repeat (split; [assumption|]). assumption.
Defined.

(** C7 as stated fails.  [obs_zero_weight] has zero flags, pixel scale 2
    and a weight map without a positive entry, which ngmix rejects with a
    [GMixFatalError]: the conversion to flux sets pixel (0, 0) of the
    weight to 1.0, and the conversion back to surface brightness gives the
    weight map [[16, 0]], not the original [[0, 0]]. *)
Lemma flux_roundtrip_fallback_counterexample :
  ∃ obs1 obs2,
    meta_flags obs_zero_weight = 0
    ∧ ¬ (scale (jacobian obs_zero_weight) == 0)%Q
    ∧ to_flux env0 obs_zero_weight = Ok obs1
    ∧ to_surface_brightness env0 obs1 = Ok obs2
    ∧ weight obs_zero_weight = [[0; 0]]%Q
    ∧ farray_eq (weight obs2) [[16; 0]]%Q
    ∧ ¬ farray_eq (weight obs2) (weight obs_zero_weight).
Proof.
  eexists _, _. split; [reflexivity|]. split; [by vm_compute|].
  split; [by vm_compute|]. split; [by vm_compute|]. split; [reflexivity|].
  split.
  - repeat constructor; by vm_compute.
  - intros H. apply Forall2_cons_1 in H as [H _].
    apply Forall2_cons_1 in H as [H _]. by vm_compute in H.
Qed.

(** C9.  In either conversion loop, when [set_weight] raises a
    [GMixFatalError] on the converted weight map [w] of an unflagged
    observation, the error does not leave the [try] block: the conversion
    is what setting the weight again gives, with pixel (0, 0) of [w]
    forced to 1.0; and when ngmix accepts that weight map the conversion
    returns, with that weight map, the converted image, and the optional
    weight maps scaled as usual. *)
Theorem fatal_weight_error_caught (env : environment)
    (op_image op_weight : Q → Q → Q) (obs : Observation) (msg : string) :
  meta_flags obs = 0 →
  weight_raw obs ≠ Missing → weight_us obs ≠ Missing →
  let s2 := Qpower (scale (jacobian obs)) 2 in
  let s4 := (s2 * s2)%Q in
  let im := amap (λ x, op_image x s2) (image obs) in
  let w := amap (λ x, op_weight x s4) (weight obs) in
  set_weight_error env w = Some msg →
  is_Some (get2 w 0 0) →
  convert_obs env op_image op_weight obs =
    (obs' ← set_weight env (set_image obs im) (set2 w 0 0 1%Q) ;;;
     scale_weights (λ x, op_weight x s4) obs')
  ∧ (set_weight_error env (set2 w 0 0 1%Q) = None →
     ∃ obs', convert_obs env op_image op_weight obs = Ok obs'
       ∧ weight obs' = set2 w 0 0 1%Q
       ∧ get2 (weight obs') 0 0 = Some 1%Q
       ∧ (∀ i j, (i, j) ≠ (0, 0)%nat →
            get2 (weight obs') i j = get2 w i j)
       ∧ image obs' = im
       ∧ weight_raw obs'
         = attr_map (amap (λ x, op_weight x s4)) (weight_raw obs)
       ∧ weight_us obs'
         = attr_map (amap (λ x, op_weight x s4)) (weight_us obs)).
Proof.
  intros Hfl Hraw Hus s2 s4 im w Hw Hin.
  assert (convert_obs env op_image op_weight obs =
    (obs' ← set_weight env (set_image obs im) (set2 w 0 0 1%Q) ;;;
     scale_weights (λ x, op_weight x s4) obs')) as Hconv.
  { rewrite convert_obs_unfold by done. fold s2 s4 im w.
    by rewrite (set_image_and_weight_fatal env obs im w msg). }
  split; [done|]. intros Hw'. rewrite Hconv.
  unfold set_weight. rewrite Hw'. cbn [rbind]. unfold scale_weights.
  cbn [weight_raw weight_us set_image].
  rewrite !scale_attr_present by done. cbn [rbind].
  eexists. split; [done|].
  cbn [image weight weight_raw weight_us].
  split; [done|]. split.
  { rewrite get2_set2, decide_True by done. by destruct Hin as [x ->]. }
  split; [|done].
  intros i j Hij. rewrite get2_set2, decide_False; [done|].
  intros [<- <-]. done.
Qed.

(** The two conversions of [obs_zero_weight], whose converted weight map
    ngmix rejects. *)
Lemma fatal_weight_error_caught_witness :
  (∃ obs', to_flux env0 obs_zero_weight = Ok obs'
     ∧ farray_eq (weight obs') [[1; 0]]%Q
     ∧ farray_eq (image obs') [[4; 8]]%Q)
  ∧ (∃ obs', to_surface_brightness env0 obs_zero_weight = Ok obs'
       ∧ farray_eq (weight obs') [[1; 0]]%Q).
Proof.
  split.
  - destruct (fatal_weight_error_caught env0 Qmult Qdiv obs_zero_weight
                "no weight > 0") as [_ H].
    + reflexivity.
    + discriminate.
    + discriminate.
    + by vm_compute.
    + eexists. by vm_compute.
    + destruct H as (obs' & Hret & Hw & _ & _ & Him & _); [by vm_compute|].
      exists obs'. split; [exact Hret|]. rewrite Hw, Him.
      split; repeat constructor; by vm_compute.
  - destruct (fatal_weight_error_caught env0 Qdiv Qmult obs_zero_weight
                "no weight > 0") as [_ H].
    + reflexivity.
    + discriminate.
    + discriminate.
    + by vm_compute.
    + eexists. by vm_compute.
    + destruct H as (obs' & Hret & Hw & _); [by vm_compute|].
      exists obs'. split; [exact Hret|]. rewrite Hw.
      repeat constructor; by vm_compute.
Defined.

(** If ngmix rejects the patched weight map as well, that second error
    leaves the function. *)
Lemma fatal_weight_error_twice env op_image op_weight obs msg msg' :
  meta_flags obs = 0 →
  let s4 := (Qpower (scale (jacobian obs)) 2
             * Qpower (scale (jacobian obs)) 2)%Q in
  let w := amap (λ x, op_weight x s4) (weight obs) in
  set_weight_error env w = Some msg →
  is_Some (get2 w 0 0) →
  set_weight_error env (set2 w 0 0 1%Q) = Some msg' →
  convert_obs env op_image op_weight obs = Raise (GMixFatalError msg').
Proof.
  intros Hfl s4 w Hw Hin Hw'.
  rewrite convert_obs_unfold by done. fold s4 w.
  rewrite (set_image_and_weight_fatal env obs _ w msg) by done.
  unfold set_weight. by rewrite Hw'.
Qed.
End flux_facts.

(** * Further properties *)

(** ** Mask dilation in general (Y1DESMEDSImageIO._expand_mask) *)

Section dilation_facts.
Import Y1DESMEDSImageIO.
Implicit Types (a b : iarray) (p s t : Z * Z).

Lemma array_ext {A} m (a b : list (list A)) :
  length a = length b → rect m a → rect m b →
  (∀ i j, (i < length a)%nat → (j < m)%nat → get2 a i j = get2 b i j) →
  a = b.
Proof.
  intros Hlen Ha Hb Hget. apply list_eq. intros i.
  destruct (a !! i) as [ra|] eqn:Ea.
  - assert (i < length a)%nat as Hi by (by eapply lookup_lt_Some).
    destruct (lookup_lt_is_Some_2 b i ltac:(lia)) as [rb Eb].
    rewrite Eb. f_equal. apply list_eq. intros j.
    unfold rect in Ha, Hb. rewrite Forall_lookup in Ha, Hb.
    pose proof (Ha _ _ Ea) as Hla. pose proof (Hb _ _ Eb) as Hlb.
    destruct (decide (j < m)%nat) as [Hj|Hj].
    + specialize (Hget i j Hi Hj). unfold get2 in Hget.
      by rewrite Ea, Eb in Hget.
    + rewrite !lookup_ge_None_2; [done|lia..].
  - apply lookup_ge_None in Ea. symmetry. apply lookup_ge_None. lia.
Qed.

Lemma near_split2 (r1 r2 : Z) p s shp :
  0 ≤ r1 → 0 ≤ r2 → in_bounds shp p → in_bounds shp s →
  near (r1 + r2) p s →
  ∃ t, in_bounds shp t ∧ near r1 t s ∧ near r2 p t.
Proof.
  unfold in_bounds, near. destruct p as [p1 p2], s as [s1 s2]. simpl.
  intros Hr1 Hr2 Hp Hs Hn.
  exists (if r1 <? p1 - s1 then s1 + r1
          else if p1 - s1 <? - r1 then s1 - r1 else p1,
          if r1 <? p2 - s2 then s2 + r1
          else if p2 - s2 <? - r1 then s2 - r1 else p2).
  simpl.
  destruct (Z.ltb_spec r1 (p1 - s1)), (Z.ltb_spec (p1 - s1) (- r1)),
    (Z.ltb_spec r1 (p2 - s2)), (Z.ltb_spec (p2 - s2) (- r1)); lia.
Qed.

Lemma near_refl r p : 0 ≤ r → near r p p.
Proof. unfold near. lia. Qed.

Lemma near_add r1 r2 p t s : near r2 p t → near r1 t s → near (r1 + r2) p s.
Proof. unfold near. lia. Qed.

Lemma near_decision r p s : Decision (near r p s).
Proof. unfold near. apply _. Defined.

(** Whether a pixel lies within distance [r] of a nonzero pixel of [a] can
    be decided. *)
Lemma reach_decision a (r : nat) p :
  Decision ((0 < r)%nat ∧ ∃ s, s ∈ nonzero_pixels a ∧ near (Z.of_nat r) p s).
Proof.
  destruct (decide (0 < r)%nat) as [Hr|Hr]; [|right; tauto].
  destruct (@Exists_dec _ (λ s, near (Z.of_nat r) p s)
              (λ s, near_decision _ _ _) (nonzero_pixels a)) as [H|H].
  - left. split; [done|]. by apply Exists_exists in H.
  - right. intros [_ H']. apply H, Exists_exists, H'.
Defined.

(** X1.  The dilation, pixel by pixel: after [rounds] rounds (at least one) a
    pixel within Chebyshev distance [rounds] of a nonzero pixel of the
    input is 1, whatever it was; every other pixel keeps its value; the
    shape of the mask is kept. *)
Theorem expand_mask_dilation (a : iarray) (m rounds i j : nat) :
  rect m a → (i < length a)%nat → (j < m)%nat →
  length (_expand_mask a rounds) = length a
  ∧ rect m (_expand_mask a rounds)
  ∧ ((0 < rounds)%nat
     ∧ (∃ x y v, get2 a x y = Some v ∧ v ≠ 0
          ∧ Z.abs (Z.of_nat i - Z.of_nat x) ≤ Z.of_nat rounds
          ∧ Z.abs (Z.of_nat j - Z.of_nat y) ≤ Z.of_nat rounds) →
     get2 (_expand_mask a rounds) i j = Some 1)
  ∧ (¬ ((0 < rounds)%nat
        ∧ ∃ x y v, get2 a x y = Some v ∧ v ≠ 0
            ∧ Z.abs (Z.of_nat i - Z.of_nat x) ≤ Z.of_nat rounds
            ∧ Z.abs (Z.of_nat j - Z.of_nat y) ≤ Z.of_nat rounds) →
     get2 (_expand_mask a rounds) i j = get2 a i j).
Proof.
  intros Hr Hi Hj.
  assert (a ≠ []) as Hne by (intros ->; simpl in Hi; lia).
  split; [apply length_expand_rounds|].
  split; [by apply rect_expand_rounds|].
  assert (in_bounds (shape a) (Z.of_nat i, Z.of_nat j)) as Hb.
  { rewrite (shape_rect m) by done. unfold in_bounds. simpl. lia. }
  destruct (expand_mask_pixel m a rounds _ Hr Hb) as [Hin Hout].
  unfold pixel in Hin, Hout. cbn [fst snd] in Hin, Hout.
  rewrite !Nat2Z.id in Hin, Hout.
  assert ((∃ s, s ∈ nonzero_pixels a
             ∧ near (Z.of_nat rounds) (Z.of_nat i, Z.of_nat j) s)
          ↔ ∃ x y v, get2 a x y = Some v ∧ v ≠ 0
              ∧ Z.abs (Z.of_nat i - Z.of_nat x) ≤ Z.of_nat rounds
              ∧ Z.abs (Z.of_nat j - Z.of_nat y) ≤ Z.of_nat rounds) as Hiff.
  { split.
    - intros (s & Hs & Hn). apply elem_of_nonzero_pixels in Hs
        as (H1 & H2 & v & Hv & Hv0).
      exists (Z.to_nat s.1), (Z.to_nat s.2), v. unfold pixel in Hv.
      unfold near in Hn. cbn [fst snd] in Hn.
      rewrite !Z2Nat.id by done. done.
    - intros (x & y & v & Hv & Hv0 & Hx & Hy).
      exists (Z.of_nat x, Z.of_nat y). split; [|done].
      apply elem_of_nonzero_pixels. cbn [fst snd].
      split; [lia|]. split; [lia|]. exists v. unfold pixel. cbn [fst snd].
      by rewrite !Nat2Z.id. }
  split.
  - intros [Hpos Hex]. apply Hin. split; [done|]. by apply Hiff.
  - intros Hno. apply Hout. intros [Hpos Hex]. apply Hno.
    split; [done|]. by apply Hiff.
Qed.

(** A 3x4 mask with two flagged pixels, dilated once. *)
Lemma expand_mask_dilation_witness :
  let a := [[0; 0; 0; 0]; [0; 0; 0; 0]; [4; 0; 0; 2]] in
  length (_expand_mask a 1) = 3%nat
  ∧ rect 4 (_expand_mask a 1)
  ∧ get2 (_expand_mask a 1) 1 1 = Some 1.
Proof.
  intros a.
  destruct (expand_mask_dilation a 4 1 1 1) as (H1 & H2 & H3 & _).
  - repeat constructor.
  - simpl. lia.
  - lia.
  - split; [exact H1|]. split; [exact H2|].
    apply H3. split; [lia|]. exists 2%nat, 0%nat, 4.
    split; [reflexivity|]. split; [lia|]. split; by vm_compute.
Defined.

Lemma expand_mask_0 a : _expand_mask a 0 = a.
Proof. reflexivity. Qed.

Lemma shape_expand_mask m a rounds :
  rect m a → shape (_expand_mask a rounds) = shape a.
Proof.
  intros Hr.
  pose proof (length_expand_rounds (shape a) rounds a (nonzero_pixels a))
    as Hlen.
  pose proof (rect_expand_rounds m (shape a) rounds a (nonzero_pixels a) Hr)
    as Hrect.
  fold (_expand_mask a rounds) in Hlen, Hrect.
  destruct (decide (a = [])) as [->|Hne].
  - by destruct (_expand_mask [] rounds).
  - rewrite !(shape_rect m); try done; [by rewrite Hlen|].
    intros E. rewrite E in Hlen. destruct a; simpl in Hlen; [done|lia].
Qed.

(** The nonzero pixels of a dilated mask. *)
Lemma elem_of_nonzero_expand m a (r : nat) s :
  rect m a → (0 < r)%nat →
  s ∈ nonzero_pixels (_expand_mask a r) ↔
  in_bounds (shape a) s
  ∧ ∃ t, t ∈ nonzero_pixels a ∧ near (Z.of_nat r) s t.
Proof.
  intros Hr Hpos.
  assert (rect m (_expand_mask a r)) as Hr' by (by apply rect_expand_rounds).
  split.
  - intros (H1 & H2 & v & Hv & Hv0)%elem_of_nonzero_pixels.
    pose proof (pixel_in_bounds m _ s v Hr' H1 H2 Hv) as Hb.
    rewrite (shape_expand_mask m) in Hb by done. split; [done|].
    destruct (expand_mask_pixel m a r s Hr Hb) as [_ Hout].
    destruct (reach_decision a r s) as [[_ Hreach]|Hno]; [done|].
    rewrite (Hout Hno) in Hv. exists s. split.
    + apply elem_of_nonzero_pixels. eauto.
    + apply near_refl. lia.
  - intros [Hb Hreach].
    destruct (expand_mask_pixel m a r s Hr Hb) as [Hin _].
    apply elem_of_nonzero_pixels. destruct Hb as [? ?].
    split; [lia|]. split; [lia|]. exists 1. split; [|done].
    apply Hin. by split.
Qed.

(** X2.  Dilations compose: [r2] rounds after [r1] rounds are [r1 + r2]
    rounds. *)
Theorem expand_mask_compose (a : iarray) (m r1 r2 : nat) :
  rect m a →
  _expand_mask (_expand_mask a r1) r2 = _expand_mask a (r1 + r2).
Proof.
  intros Hr. destruct r1 as [|r1]; [by rewrite expand_mask_0|].
  destruct r2 as [|r2]; [by rewrite expand_mask_0, Nat.add_0_r|].
  set (b := _expand_mask a (S r1)).
  assert (rect m b) as Hrb by (by apply rect_expand_rounds).
  assert (length b = length a) as Hlb by apply length_expand_rounds.
  assert (shape b = shape a) as Hsb by (by apply (shape_expand_mask m)).
  apply (array_ext m).
  - unfold _expand_mask. by rewrite !length_expand_rounds.
  - by apply rect_expand_rounds.
  - by apply rect_expand_rounds.
  - intros i j Hi Hj.
    assert (length (_expand_mask b (S r2)) = length b) as Hl2
      by apply length_expand_rounds.
    rewrite Hl2, Hlb in Hi.
    assert (a ≠ []) as Hne by (intros ->; simpl in Hi; lia).
    set (p := (Z.of_nat i, Z.of_nat j)).
    assert (in_bounds (shape a) p) as Hb.
    { rewrite (shape_rect m) by done. unfold in_bounds, p. simpl. lia. }
    assert (∀ c, get2 c i j = pixel c p) as Hpix
      by (intros c; unfold pixel, p; cbn [fst snd]; by rewrite !Nat2Z.id).
    rewrite !Hpix.
    destruct (expand_mask_pixel m a (S r1 + S r2) p Hr Hb) as [Hin Hout].
    destruct (expand_mask_pixel m a (S r1) p Hr Hb) as [_ Hout1].
    fold b in Hout1.
    destruct (expand_mask_pixel m b (S r2) p Hrb ltac:(by rewrite Hsb))
      as [Hin2 Hout2].
    destruct (reach_decision a (S r1 + S r2) p) as [Hreach|Hno].
    + rewrite (Hin Hreach). apply Hin2. split; [lia|].
      destruct Hreach as [_ (s & Hs & Hn)].
      assert (in_bounds (shape a) s) as Hbs.
      { apply elem_of_nonzero_pixels in Hs as (H1 & H2 & v & Hv & _).
        by eapply pixel_in_bounds. }
      replace (Z.of_nat (S r1 + S r2))
        with (Z.of_nat (S r1) + Z.of_nat (S r2)) in Hn by lia.
      destruct (near_split2 (Z.of_nat (S r1)) (Z.of_nat (S r2)) p s (shape a)
                  (Nat2Z.is_nonneg _) (Nat2Z.is_nonneg _) Hb Hbs Hn)
        as (t & Hbt & Hts & Hpt).
      exists t. split; [|done].
      apply (elem_of_nonzero_expand m); [done|lia|]. eauto.
    + rewrite (Hout Hno). rewrite Hout2, Hout1; [done| |].
      * intros [_ (s & Hs & Hn)]. apply Hno. split; [lia|].
        exists s. split; [done|]. unfold near in *. lia.
      * intros [_ (s & Hs & Hn)].
        apply (elem_of_nonzero_expand m) in Hs as [_ (t & Ht & Hst)];
          [|done|lia].
        apply Hno. split; [lia|]. exists t. split; [done|].
        replace (Z.of_nat (S r1 + S r2))
          with (Z.of_nat (S r1) + Z.of_nat (S r2)) by lia.
        by eapply near_add.
Qed.

(** Two single rounds on a 3x4 mask are the two rounds of the mask
    propagation. *)
Lemma expand_mask_compose_witness :
  let a := [[0; 0; 0; 0]; [0; 0; 0; 0]; [4; 0; 0; 2]] in
  _expand_mask (_expand_mask a 1) 1 = _expand_mask a 2.
Proof.
  intros a. apply (expand_mask_compose a 4 1 1). repeat constructor.
Defined.
End dilation_facts.

(** ** Flag masks from flag names
       (_set_extra_mask_flags, _set_propagate_saturated_stars) *)

Section flag_mask_facts.
Import SVDESMEDSImageIO Y1DESMEDSImageIO.

Lemma dict_get_elem_of d k v : dict_get d k = Some v → (k, v) ∈ d.
Proof.
  induction d as [|[k' v'] d IH]; [done|]. simpl.
  destruct (String.eqb k k') eqn:E.
  - apply String.eqb_eq in E as ->. intros [= ->]. left.
  - intros H. right. by apply IH.
Qed.

Lemma NoDup_snd_inj {A B} (l : list (A * B)) x1 x2 y :
  NoDup l.*2 → (x1, y) ∈ l → (x2, y) ∈ l → x1 = x2.
Proof.
  induction l as [|[a b] l IH]; [by intros _ ?%elem_of_nil|].
  rewrite fmap_cons, NoDup_cons, !elem_of_cons. simpl.
  intros [Hb Hnd] [H1|H1] [H2|H2]; simplify_eq; try done.
  - exfalso. apply Hb, list_elem_of_fmap. by exists (x2, b).
  - exfalso. apply Hb, list_elem_of_fmap. by exists (x1, b).
  - by apply IH.
Qed.

Lemma badpix_values_NoDup : NoDup DESY3_BADPIX_MAP.*2.
Proof.
  apply (bool_decide_unpack (NoDup DESY3_BADPIX_MAP.*2)). by vm_compute.
Qed.

Lemma badpix_values_pow2 f b :
  dict_get DESY3_BADPIX_MAP f = Some b → ∃ k, 0 ≤ k ∧ b = 2 ^ k.
Proof.
  intros H%dict_get_elem_of.
  assert (Forall (λ kv : string * Z, kv.2 = 2 ^ Z.log2 kv.2)
            DESY3_BADPIX_MAP) as Hall by (repeat constructor).
  rewrite Forall_forall in Hall. specialize (Hall _ H). simpl in Hall.
  exists (Z.log2 b). split; [apply Z.log2_nonneg|done].
Qed.

Lemma add_flags_acc flags flag_list :
  add_flags flags flag_list =
  m ← ignore_when_set_mask flag_list ;;; Ok (flags + m).
Proof.
  revert flags. induction flag_list as [|f l IH]; intros flags.
  - simpl. f_equal. lia.
  - cbn [add_flags ignore_when_set_mask].
    destruct (dict_get DESY3_BADPIX_MAP f) as [b|]; [|done].
    rewrite IH. destruct (ignore_when_set_mask l) as [m|]; [|done].
    simpl. f_equal. lia.
Qed.

(** The sum over distinct known flag names has exactly the bits of the
    named flags. *)
Lemma ignore_when_set_mask_bits flag_list :
  NoDup flag_list →
  (∀ f, f ∈ flag_list → is_Some (dict_get DESY3_BADPIX_MAP f)) →
  ∃ m, ignore_when_set_mask flag_list = Ok m
    ∧ ∀ k, 0 ≤ k →
        Z.testbit m k = true ↔
        ∃ f, f ∈ flag_list ∧ dict_get DESY3_BADPIX_MAP f = Some (2 ^ k).
Proof.
  induction flag_list as [|f l IH]; intros Hnd Hknown.
  - exists 0. split; [done|]. intros k Hk. rewrite Z.bits_0. split; [done|].
    by intros (f & ?%elem_of_nil & _).
  - apply NoDup_cons in Hnd as [Hf Hnd].
    destruct IH as (m & Hm & Hbits);
      [done|intros; apply Hknown; by right|].
    destruct (Hknown f ltac:(left)) as [b Hb].
    destruct (badpix_values_pow2 _ _ Hb) as (kb & Hkb & ->).
    assert (Z.testbit m kb = false) as Hclear.
    { apply not_true_is_false. intros (f' & Hf' & Hv)%Hbits; [|done].
      assert (f' = f) as ->; [|done].
      eapply NoDup_snd_inj; [apply badpix_values_NoDup|..];
        by apply dict_get_elem_of. }
    assert (Z.land (2 ^ kb) m = 0) as Hland.
    { apply Z.bits_inj'. intros k Hk. rewrite Z.land_spec, Z.bits_0.
      destruct (decide (kb = k)) as [<-|Hne].
      - by rewrite Hclear, andb_false_r.
      - by rewrite Z.pow2_bits_false. }
    exists (2 ^ kb + m).
    split; [cbn [ignore_when_set_mask]; by rewrite Hb, Hm|].
    intros k Hk.
    rewrite (Z.add_nocarry_lxor _ _ Hland), (Z.lxor_lor _ _ Hland).
    rewrite Z.lor_spec, orb_true_iff, Hbits by done. split.
    + intros [H2|(f' & Hf' & Hv)].
      * exists f. split; [left|].
        destruct (decide (kb = k)) as [<-|Hne]; [done|].
        by rewrite Z.pow2_bits_false in H2.
      * exists f'. split; [by right|done].
    + intros (f' & [->|Hf']%elem_of_cons & Hv).
      * left. rewrite Hb in Hv. injection Hv as Hv.
        apply Z.pow_inj_r in Hv; [|lia..]. subst. by apply Z.pow2_bits_true.
      * right. eauto.
Qed.

(** X3.  For a list of distinct names of the bad-pixel map, the mask that
    [_set_propagate_saturated_stars] stores (and the flags that
    [_set_extra_mask_flags] stores for the same list) is the bitwise OR of
    the named flags: bit [k] is set exactly when a listed name maps to
    [2^k], and a pixel value passes the test [v & mask == 0] exactly when
    it has none of the listed flags. *)
Theorem flag_mask_bits (flag_list : list string) :
  NoDup flag_list →
  (∀ f, f ∈ flag_list → is_Some (dict_get DESY3_BADPIX_MAP f)) →
  ∃ m, ignore_when_set_mask flag_list = Ok m
    ∧ _set_extra_mask_flags (Some flag_list) = Ok (Some m)
    ∧ (∀ k, 0 ≤ k →
         Z.testbit m k = true ↔
         ∃ f, f ∈ flag_list ∧ dict_get DESY3_BADPIX_MAP f = Some (2 ^ k))
    ∧ (∀ v, not_other_bits m v = true ↔
         ∀ f b, f ∈ flag_list → dict_get DESY3_BADPIX_MAP f = Some b →
                Z.land v b = 0).
Proof.
  intros Hnd Hknown.
  destruct (ignore_when_set_mask_bits flag_list Hnd Hknown)
    as (m & Hm & Hbits).
  exists m. split; [done|]. split.
  { unfold _set_extra_mask_flags. rewrite add_flags_acc, Hm. done. }
  split; [done|]. intros v. unfold not_other_bits.
  rewrite land_zero_no_common_bit. split.
  - intros Hv f b Hf Hb.
    destruct (badpix_values_pow2 _ _ Hb) as (k & Hk & ->).
    apply Z.eqb_eq, negb_false_iff. rewrite land_pow2_testbit by done.
    apply Hv; [done|]. apply Hbits; eauto.
  - intros Hv k Hk (f & Hf & Hb)%Hbits; [|done].
    specialize (Hv f _ Hf Hb).
    apply Z.eqb_eq, negb_false_iff in Hv.
    by rewrite land_pow2_testbit in Hv.
Qed.

(** The flags that the weight maps already null, as an ignore list. *)
Lemma flag_mask_bits_witness :
  ∃ m, ignore_when_set_mask ["TRAIL"; "EDGEBLEED"; "CRAY"] = Ok m
    ∧ _set_extra_mask_flags (Some ["TRAIL"; "EDGEBLEED"; "CRAY"])
      = Ok (Some m)
    ∧ (∀ v, not_other_bits m v = true ↔
         ∀ f b, f ∈ ["TRAIL"; "EDGEBLEED"; "CRAY"] →
                dict_get DESY3_BADPIX_MAP f = Some b → Z.land v b = 0).
Proof.
  destruct (flag_mask_bits ["TRAIL"; "EDGEBLEED"; "CRAY"])
    as (m & H1 & H2 & _ & H3).
  - apply (bool_decide_unpack (NoDup ["TRAIL"; "EDGEBLEED"; "CRAY"])).
    by vm_compute.
  - intros f Hf. rewrite !elem_of_cons, elem_of_nil in Hf.
    destruct Hf as [->|[->|[->|[]]]]; by eexists.
  - exists m. split; [exact H1|]. split; [exact H2|exact H3].
Defined.

(** X4.  A name that is not in the bad-pixel map makes both functions raise
    [KeyError], and nothing else does. *)
Theorem flag_mask_unknown_name (flag_list : list string) :
  ((∃ f, f ∈ flag_list ∧ dict_get DESY3_BADPIX_MAP f = None)
   ↔ ignore_when_set_mask flag_list = Raise KeyError)
  ∧ ((∃ f, f ∈ flag_list ∧ dict_get DESY3_BADPIX_MAP f = None)
     ↔ _set_extra_mask_flags (Some flag_list) = Raise KeyError)
  ∧ ∀ e, ignore_when_set_mask flag_list = Raise e → e = KeyError.
Proof.
  assert ((∃ f, f ∈ flag_list ∧ dict_get DESY3_BADPIX_MAP f = None)
          ↔ ignore_when_set_mask flag_list = Raise KeyError) as H1.
  { induction flag_list as [|f l IH].
    - split; [by intros (f & ?%elem_of_nil & _)|done].
    - cbn [ignore_when_set_mask].
      destruct (dict_get DESY3_BADPIX_MAP f) as [b|] eqn:Hb.
      + destruct (ignore_when_set_mask l) as [m|e]; cbn [rbind].
        * split; [|done]. intros (f' & [->|Hf']%elem_of_cons & Hn);
            [congruence|]. destruct IH as [IH _].
          discriminate IH. eauto.
        * rewrite <- IH. split.
          -- intros (f' & [->|Hf']%elem_of_cons & Hn); [congruence|eauto].
          -- intros (f' & Hf' & Hn). exists f'. split; [by right|done].
      + split; [done|]. intros _. exists f. split; [left|done]. }
  split; [done|]. split.
  - rewrite H1. unfold _set_extra_mask_flags. rewrite add_flags_acc.
    destruct (ignore_when_set_mask flag_list) as [m|e]; cbn [rbind];
      [by split|]. split; by intros [= ->].
  - clear H1. induction flag_list as [|f l IH]; [done|].
    cbn [ignore_when_set_mask]. intros e.
    destruct (dict_get DESY3_BADPIX_MAP f); [|by intros [= <-]].
    destruct (ignore_when_set_mask l); cbn [rbind]; [discriminate|].
    intros [= <-]. by apply IH.
Qed.
End flag_mask_facts.

(** ** Segmentation maps that touch a masked stellar halo
       (Y1DESMEDSImageIO._flag_y1_stellarhalo_masked) *)

Section stellarhalo_facts.
Import Y1DESMEDSImageIO.






Import Examples.

End stellarhalo_facts.

(** ** The combined mask of an object
       (Y1DESMEDSImageIO._get_extra_bitmasks) *)

Section extra_bitmasks_facts.
Import Y1DESMEDSImageIO.

Lemma for_each_length {A B} (f : A → result B) l l' :
  for_each f l = Ok l' → length l' = length l.
Proof.
  revert l'. induction l as [|x l IH]; intros l'; [by intros [= <-]|].
  simpl. destruct (f x); [|done]. simpl.
  destruct (for_each f l) as [ys|]; [|done]. simpl. intros [= <-].
  simpl. by rewrite (IH ys).
Qed.

(** [bmask |= x]: the shape of [bmask] is kept and the bits of [x] are
    added. *)
Lemma or_into_bits bmask x r :
  or_into bmask x = Ok r →
  length <$> r = length <$> bmask
  ∧ ∀ i j k, bit_set r i j k ↔ bit_set bmask i j k ∨ bit_set x i j k.
Proof.
  unfold or_into. intros Hz. pose proof Hz as Hz'. unfold zip2 in Hz'.
  destruct (same_shape bmask x) eqn:Hs; [|done].
  injection Hz' as <-. split.
  - apply bool_decide_eq_true in Hs. clear Hz.
    revert x Hs. induction bmask as [|ra a IH]; intros [|rb b] Hs;
      simplify_eq/=; [done|].
    f_equal; [|by apply IH]. rewrite length_zip_with. lia.
  - intros i j k. unfold bit_set. rewrite (get2_zip2 _ _ _ _ i j Hz).
    pose proof (same_shape_is_Some bmask x i j Hs) as Hsome.
    destruct (get2 bmask i j) as [va|], (get2 x i j) as [vb|]; simpl.
    + split.
      * intros (v & [= <-] & Hb). rewrite Z.lor_spec in Hb.
        apply orb_true_iff in Hb as [Hb|Hb]; eauto.
      * intros [(v & [= <-] & Hb)|(v & [= <-] & Hb)]; eexists;
          (split; [done|]); rewrite Z.lor_spec, Hb;
          [done|apply orb_true_r].
    + exfalso. destruct Hsome as [[? H] _]; [by eexists|done].
    + exfalso. destruct Hsome as [_ [? H]]; [by eexists|done].
    + split; [by intros (v & ? & _)|by intros [(v & ? & _)|(v & ? & _)]].
Qed.

Lemma add_obs_mask_bits interp msk marr idt mt band bmask obs r :
  add_obs_mask interp msk marr idt mt band bmask obs = Ok r →
  length <$> r = length <$> bmask
  ∧ ∀ i j k, bit_set r i j k ↔
      bit_set bmask i j k
      ∨ (meta_flags obs = 0
         ∧ ∃ m im, marr !! band = Some m
             ∧ _interpolate_maskbits interp msk m.1 idt m.2 (meta_icut obs)
                 mt 0 = Ok im
             ∧ bit_set im i j k).
Proof.
  unfold add_obs_mask. destruct (meta_flags obs =? 0) eqn:Hfl.
  - apply Z.eqb_eq in Hfl. unfold index.
    destruct (marr !! band) as [m|]; [|done]. cbn [rbind].
    destruct (_interpolate_maskbits _ _ _ _ _ _ _ _) as [im|] eqn:Him;
      [|done].
    cbn [rbind]. intros [Hsh Hbits]%or_into_bits. split; [done|].
    intros i j k. rewrite Hbits. split.
    + intros [?|?]; [by left|]. right. split; [done|]. by exists m, im.
    + intros [?|(_ & m' & im' & [= <-] & Him' & ?)]; [by left|].
      right. rewrite Him in Him'. by injection Him' as <-.
  - apply Z.eqb_neq in Hfl. intros [= <-]. split; [done|].
    intros i j k. split; [by left|]. by intros [?|[? _]].
Qed.

Lemma fold_obs_mask_bits interp msk marr idt mt band obs_list :
  ∀ bmask r,
  fold_result (add_obs_mask interp msk marr idt mt band) bmask obs_list
    = Ok r →
  length <$> r = length <$> bmask
  ∧ ∀ i j k, bit_set r i j k ↔
      bit_set bmask i j k
      ∨ ∃ obs m im,
          obs ∈ obs_list ∧ meta_flags obs = 0 ∧ marr !! band = Some m
          ∧ _interpolate_maskbits interp msk m.1 idt m.2 (meta_icut obs)
              mt 0 = Ok im
          ∧ bit_set im i j k.
Proof.
  induction obs_list as [|obs rest IH]; intros bmask r.
  - intros [= <-]. split; [done|]. intros i j k. split; [by left|].
    by intros [?|(? & ? & ? & ?%elem_of_nil & _)].
  - cbn [fold_result].
    destruct (add_obs_mask interp msk marr idt mt band bmask obs)
      as [b1|] eqn:H1; [|done].
    cbn [rbind]. intros [Hsh Hbits]%IH.
    destruct (add_obs_mask_bits _ _ _ _ _ _ _ _ _ H1) as [Hsh1 Hbits1].
    split; [congruence|]. intros i j k. rewrite Hbits, Hbits1. split.
    + intros [[?|(Hf & m & im & Hm & Him & Hb)]
             |(o & m & im & Ho & Hf & Hm & Him & Hb)].
      * by left.
      * right. exists obs, m, im. split; [left|done].
      * right. exists o, m, im. split; [by right|done].
    + intros [?|(o & m & im & [->|Ho]%elem_of_cons & Hf & Hm & Him & Hb)].
      * left. by left.
      * left. right. split; [done|]. by exists m, im.
      * right. by exists o, m, im.
Qed.

Lemma fold_bands_mask_bits interp msk marr idt mt mb_obs_list :
  ∀ band0 bmask r,
  fold_result
    (λ bmask (b : nat * list Observation),
       fold_result (add_obs_mask interp msk marr idt mt b.1) bmask b.2)
    bmask (imap (λ k, pair (band0 + k)%nat) mb_obs_list) = Ok r →
  length <$> r = length <$> bmask
  ∧ ∀ i j k, bit_set r i j k ↔
      bit_set bmask i j k
      ∨ ∃ n obs_list obs m im,
          mb_obs_list !! n = Some obs_list ∧ obs ∈ obs_list
          ∧ meta_flags obs = 0 ∧ marr !! (band0 + n)%nat = Some m
          ∧ _interpolate_maskbits interp msk m.1 idt m.2 (meta_icut obs)
              mt 0 = Ok im
          ∧ bit_set im i j k.
Proof.
  induction mb_obs_list as [|obs_list rest IH]; intros band0 bmask r.
  - intros [= <-]. split; [done|]. intros i j k. split; [by left|].
    intros [?|(n & ? & ? & ? & ? & Hn & _)]; [done|by destruct n].
  - cbn [imap fold_result fst snd].
    destruct (fold_result (add_obs_mask interp msk marr idt mt
                             (band0 + 0)) bmask obs_list)
      as [b1|] eqn:H1; [|done].
    cbn [rbind]. rewrite Nat.add_0_r in H1.
    rewrite (imap_ext _ (λ k, pair (S band0 + k)%nat))
      by (intros; simpl; f_equal; lia).
    intros [Hsh Hbits]%IH.
    destruct (fold_obs_mask_bits _ _ _ _ _ _ _ _ _ H1) as [Hsh1 Hbits1].
    split; [congruence|]. intros i j k. rewrite Hbits, Hbits1. split.
    + intros [[?|(o & m & im & Ho & Hf & Hm & Him & Hb)]
             |(n & ol & o & m & im & Hn & Ho & Hf & Hm & Him & Hb)].
      * by left.
      * right. exists 0%nat, obs_list, o, m, im.
        rewrite Nat.add_0_r. done.
      * right. exists (S n), ol, o, m, im.
        replace (band0 + S n)%nat with (S band0 + n)%nat by lia. done.
    + intros [?|(n & ol & o & m & im & Hn & Ho & Hf & Hm & Him & Hb)].
      * left. by left.
      * destruct n as [|n].
        -- simpl in Hn. injection Hn as <-. rewrite Nat.add_0_r in Hm.
           left. right. by exists o, m, im.
        -- right. exists n, ol, o, m, im.
           replace (S band0 + n)%nat with (band0 + S n)%nat by lia. done.
Qed.

Lemma bit_set_zeros n i j k :
  ¬ bit_set (replicate n (replicate n 0)) i j k.
Proof.
  intros (v & Hv & Hb). unfold get2 in Hv.
  destruct (replicate n (replicate n 0) !! i) as [row|] eqn:E; [|done].
  apply lookup_replicate in E as [-> _]. simpl in Hv.
  apply lookup_replicate in Hv as [-> _]. by rewrite Z.bits_0 in Hb.
Qed.

(** X6.  When [_get_extra_bitmasks] returns, it returns one square mask of the
    box size per MEDS file, and bit [k] of a pixel of the mask of a band is
    set exactly when it is set in the coadd bitmask cutout of that band
    (taken as it is, if the coadd observation of the band is unflagged) or
    in the reprojected star mask of an unflagged observation of any
    band. *)
Theorem extra_bitmasks_bits (interp : interpolator) (msk : Z)
    (marr : list (Z * meds_object))
    (coadd_mb_obs_list mb_obs_list : list (list Observation))
    (bmasks : list iarray) :
  _get_extra_bitmasks interp msk marr coadd_mb_obs_list mb_obs_list
    = Ok bmasks →
  length bmasks = length marr
  ∧ ∀ bandt idt mt bmask,
      marr !! bandt = Some (idt, mt) → bmasks !! bandt = Some bmask →
      length bmask = Z.to_nat (box_size mt)
      ∧ rect (Z.to_nat (box_size mt)) bmask
      ∧ ∀ i j k, bit_set bmask i j k ↔
          (∃ obs0 rest,
             coadd_mb_obs_list !! bandt = Some (obs0 :: rest)
             ∧ meta_flags obs0 = 0
             ∧ bit_set (get_cutout_bmask mt 0) i j k)
          ∨ mask_contribution interp msk marr idt mt mb_obs_list i j k.
Proof.
  unfold _get_extra_bitmasks. intros Hall.
  split; [by rewrite (for_each_length _ _ _ Hall), length_imap|].
  intros bandt idt mt bmask Hmt Hbm.
  assert (imap pair marr !! bandt = Some (bandt, (idt, mt))) as Hl
    by (by rewrite list_lookup_imap, Hmt).
  destruct (for_each_lookup _ _ _ _ _ Hall Hl) as (y & Hy & Hy').
  rewrite Hbm in Hy'. injection Hy' as <-. clear Hall Hl Hbm.
  unfold extra_bitmask in Hy. cbn [fst snd] in Hy. unfold zeros2 in Hy.
  destruct (box_size mt <? 0); [done|]. cbn [rbind] in Hy.
  set (n := Z.to_nat (box_size mt)) in *.
  unfold index in Hy.
  destruct (coadd_mb_obs_list !! bandt) as [coadd_list|]; [|done].
  cbn [rbind] in Hy.
  destruct (match coadd_list with
            | [] => Ok (replicate n (replicate n 0))
            | obs0 :: _ =>
                if meta_flags obs0 =? 0
                then or_into (replicate n (replicate n 0))
                       (get_cutout_bmask mt 0)
                else Ok (replicate n (replicate n 0))
            end) as [b0|] eqn:Hb0; [|done].
  cbn [rbind] in Hy.
  assert (length <$> b0 = length <$> replicate n (replicate n 0)
          ∧ ∀ i j k, bit_set b0 i j k ↔
              ∃ obs0 rest, Some coadd_list = Some (obs0 :: rest)
                ∧ meta_flags obs0 = 0
                ∧ bit_set (get_cutout_bmask mt 0) i j k) as [Hsh0 Hbits0].
  { destruct coadd_list as [|obs0 rest].
    - injection Hb0 as <-. split; [done|]. intros i j k. split.
      + by intros ?%bit_set_zeros.
      + by intros (? & ? & ? & _).
    - destruct (meta_flags obs0 =? 0) eqn:Hfl.
      + apply Z.eqb_eq in Hfl. apply or_into_bits in Hb0 as [Hsh Hbits].
        split; [done|]. intros i j k. rewrite Hbits. split.
        * intros [?%bit_set_zeros|?]; [done|]. by exists obs0, rest.
        * intros (? & ? & _ & _ & ?). by right.
      + apply Z.eqb_neq in Hfl. injection Hb0 as <-. split; [done|].
        intros i j k. split; [by intros ?%bit_set_zeros|].
        intros (? & ? & [= <- <-] & ? & _). done. }
  rewrite (imap_ext _ (λ k, pair (0 + k)%nat)) in Hy by done.
  apply fold_bands_mask_bits in Hy as [Hsh Hbits].
  assert (length <$> bmask = replicate n n) as Hsig.
  { rewrite Hsh, Hsh0. by rewrite fmap_replicate, length_replicate. }
  split; [|split].
  - apply (f_equal length) in Hsig.
    by rewrite length_fmap, length_replicate in Hsig.
  - unfold rect. apply Forall_lookup. intros i row Hrow.
    apply (f_equal (λ l, l !! i)) in Hsig.
    rewrite list_lookup_fmap, Hrow in Hsig. simpl in Hsig. symmetry in Hsig.
    by apply lookup_replicate in Hsig as [-> _].
  - intros i j k. rewrite Hbits, Hbits0. unfold mask_contribution.
    split; (intros [?|?]; [by left|by right]).
Qed.

Lemma extra_bitmasks_bits_witness :
  _get_extra_bitmasks Examples.same_grid 0 [(11, Examples.meds_1x1)]
    [[Examples.obs_1x1]] [[Examples.obs_1x1]] = Ok [[[1]]]
  ∧ (bit_set [[1]] 0 0 0 ↔
       (∃ obs0 rest,
          [[Examples.obs_1x1]] !! 0%nat = Some (obs0 :: rest)
          ∧ meta_flags obs0 = 0
          ∧ bit_set (get_cutout_bmask Examples.meds_1x1 0) 0 0 0)
       ∨ mask_contribution Examples.same_grid 0 [(11, Examples.meds_1x1)] 11
           Examples.meds_1x1 [[Examples.obs_1x1]] 0 0 0).
Proof.
  split; [by vm_compute|].
  destruct (extra_bitmasks_bits Examples.same_grid 0
              [(11, Examples.meds_1x1)] [[Examples.obs_1x1]]
              [[Examples.obs_1x1]] [[[1]]]) as [_ H]; [by vm_compute|].
  destruct (H 0%nat 11 Examples.meds_1x1 [[1]]) as (_ & _ & Hbits);
    [reflexivity|reflexivity|].
  exact (Hbits 0%nat 0%nat 0).
Defined.
End extra_bitmasks_facts.

(** ** The cache of exposure summaries (SVDESMEDSImageIO._get_piff_info) *)

Section piff_cache_facts.
Import SVDESMEDSImageIO.

(** A call adds at most the entry of its own exposure to the cache, and
    only if the exposure had none. *)
Lemma get_piff_info_cache env conf (all_info : piff_cache) expname ccd :
  (_get_piff_info env conf all_info expname ccd).1 = all_info
  ∨ all_info !! expname = None
    ∧ ∃ v, _read_piff_exp_info env conf expname = Ok v
        ∧ (_get_piff_info env conf all_info expname ccd).1
          = <[expname := v]> all_info.
Proof.
  unfold _get_piff_info.
  destruct (all_info !! expname) as [v|] eqn:Hc.
  - left. rewrite Hc.
    destruct v as [expinfo|]; [|done].
    destruct (int_of_string env ccd); [|done].
    by destruct (filter _ expinfo).
  - destruct (_read_piff_exp_info env conf expname) as [v|e]; [|by left].
    right. split; [done|]. exists v. split; [done|].
    cbn [rbind]. rewrite lookup_insert_eq.
    destruct v as [expinfo|]; [|done].
    destruct (int_of_string env ccd); [|done].
    by destruct (filter _ expinfo).
Qed.

Lemma get_piff_info_cache_mono env conf (all_info : piff_cache) expname ccd :
  all_info ⊆ (_get_piff_info env conf all_info expname ccd).1.
Proof.
  destruct (get_piff_info_cache env conf all_info expname ccd)
    as [->|(Hc & v & _ & ->)]; [done|].
  by apply insert_subseteq.
Qed.

(** The outcome of a call on an exposure that is in the cache is a
    function of the cached value and of [int(ccd)]. *)
Lemma get_piff_info_hit env conf (all_info : piff_cache) expname ccd v :
  all_info !! expname = Some v →
  _get_piff_info env conf all_info expname ccd =
  (all_info,
   match v with
   | None => Ok None
   | Some expinfo =>
       match int_of_string env ccd with
       | None => Raise ValueError
       | Some n =>
           match filter (λ r, ccdnum r = n) expinfo with
           | [] => Raise (RuntimeError ("piff info for " ++ expname
                                        ++ " " ++ ccd ++ " not found"))
           | r :: _ => Ok (Some r)
           end
       end
   end).
Proof.
  intros Hc. unfold _get_piff_info. rewrite Hc, Hc.
  destruct v as [expinfo|]; [|done].
  destruct (int_of_string env ccd); [|done].
  by destruct (filter _ expinfo).
Qed.

(** X7.  The summary of an exposure is read at most once.  A call of
    [_get_piff_info] keeps every entry of the cache; it leaves the
    exposure uncached only by raising the error of the failed read, and
    then the cache is unchanged; and once the exposure is cached (also as
    [None], for a tolerated missing file), every later call for it, in any
    state of the file system and under any configuration, leaves the
    cache as it is and gives the answer of the first reading: for the
    same detector, the same answer. *)
Theorem piff_info_read_once (env : environment) (conf : config)
    (all_info all_info' : piff_cache) (expname ccd : string)
    (r : result (option piff_info)) :
  _get_piff_info env conf all_info expname ccd = (all_info', r) →
  all_info ⊆ all_info'
  ∧ (all_info' !! expname = None →
       all_info' = all_info
       ∧ ∃ e, _read_piff_exp_info env conf expname = Raise e ∧ r = Raise e)
  ∧ (is_Some (all_info' !! expname) →
       ∀ env' conf' ccd',
         (_get_piff_info env' conf' all_info' expname ccd').1 = all_info'
         ∧ (int_of_string env' ccd' = int_of_string env ccd →
            ccd' = ccd →
            (_get_piff_info env' conf' all_info' expname ccd').2 = r)).
Proof.
  intros Hcall.
  pose proof (get_piff_info_cache_mono env conf all_info expname ccd) as Hm.
  pose proof (get_piff_info_cache env conf all_info expname ccd) as Hc.
  rewrite Hcall in Hm, Hc. cbn [fst] in Hm, Hc.
  split; [done|]. split.
  - intros Hnone. destruct Hc as [->|(_ & v & _ & ->)];
      [|by rewrite lookup_insert_eq in Hnone].
    split; [done|]. revert Hcall. unfold _get_piff_info. rewrite Hnone.
    destruct (_read_piff_exp_info env conf expname) as [v|e].
    + cbn [rbind]. rewrite lookup_insert_eq. intros Hcall.
      assert (is_Some ((<[expname:=v]> all_info) !! expname)) as [x Hx]
        by (rewrite lookup_insert_eq; by eexists).
      assert (<[expname:=v]> all_info = all_info) as Heq.
      { destruct v as [expinfo|]; [|by injection Hcall].
        destruct (int_of_string env ccd); [|by injection Hcall].
        destruct (filter _ expinfo); by injection Hcall. }
      rewrite Heq, Hnone in Hx. done.
    + intros [= <-]. by exists e.
  - intros [v Hv] env' conf' ccd'.
    rewrite (get_piff_info_hit env' conf' all_info' expname ccd' v Hv).
    split; [done|]. intros Hint ->. cbn [snd]. rewrite Hint.
    destruct Hc as [->|(Hnone & v' & Hread & ->)].
    + rewrite (get_piff_info_hit env conf all_info expname ccd v Hv)
        in Hcall. by injection Hcall.
    + rewrite lookup_insert_eq in Hv. injection Hv as ->.
      revert Hcall. unfold _get_piff_info. rewrite Hnone, Hread.
      cbn [rbind]. rewrite lookup_insert_eq.
      destruct v as [expinfo|]; [|by intros ?; simplify_eq].
      destruct (int_of_string env ccd); [|by intros ?; simplify_eq].
      destruct (filter _ expinfo); by intros ?; simplify_eq.
Qed.

Lemma piff_info_read_once_witness :
  let p := _get_piff_info Examples.env0 Examples.conf0 ∅ "D00243626" "30" in
  p.2 = Ok (Some {| ccdnum := 30; flag := 0;
                    piff_file :=
                      "/old/base/y3/243626/D00243626_i_c30_piff.fits" |})
  ∧ ∅ ⊆ p.1
  ∧ (_get_piff_info Examples.env0 Examples.conf0 p.1 "D00243626" "30").2
    = p.2.
Proof.
  intros p. split; [by vm_compute|].
  destruct (piff_info_read_once Examples.env0 Examples.conf0 ∅ p.1
              "D00243626" "30" p.2 (surjective_pairing p)) as (H & _ & H').
  split; [exact H|].
  refine (proj2 (H' _ Examples.env0 Examples.conf0 "30") eq_refl eq_refl).
  eexists. by vm_compute.
Defined.
End piff_cache_facts.

(** ** The PSF objects of a band (SVDESMEDSImageIO._get_psf_objects) *)

Section psf_objects_facts.
Import SVDESMEDSImageIO.

Lemma get_piff_object_cache env conf (all_info : piff_cache) impath :
  all_info ⊆ (_get_piff_object env conf all_info impath).1.
Proof.
  unfold _get_piff_object.
  destruct (Y3DESMEDSImageIO._get_expccd_and_key impath)
    as [[[expname ccd] key]|]; [|done].
  pose proof (get_piff_info_cache_mono env conf all_info expname ccd) as H.
  by destruct (_get_piff_info env conf all_info expname ccd).
Qed.

Lemma get_piff_object_loaded env conf (all_info : piff_cache) impath o f :
  (_get_piff_object env conf all_info impath).2 = Ok (Some o, f) → f = 0.
Proof.
  unfold _get_piff_object.
  destruct (Y3DESMEDSImageIO._get_expccd_and_key impath)
    as [[[expname ccd] key]|]; [|done].
  destruct (_get_piff_info env conf all_info expname ccd) as [c [info|]];
    [|done].
  cbn [snd rbind]. destruct info as [info|]; [|done].
  destruct (negb (flag info =? 0) || (ccdnum info =? 31)); [done|].
  destruct (_get_piff_path env info) as [psf_path|]; [|done]. cbn [rbind].
  destruct (negb (path_exists env psf_path)); [done|]. by intros [= _ <-].
Qed.

Lemma land_lor_same f x : Z.land (Z.lor f x) f = f.
Proof.
  apply Z.bits_inj'. intros n _. rewrite Z.land_spec, Z.lor_spec.
  by destruct (Z.testbit f n), (Z.testbit x n).
Qed.

(** One iteration of the loop. *)
Lemma psf_step_inv env conf psfex st i path st' :
  (∀ k p o f, psfex k p = Ok (Some o, f) → f = 0) →
  psf_step env conf psfex st i path = Ok st' →
  length (band_flags st') = length (band_flags st)
  ∧ piff_infos st ⊆ piff_infos st'
  ∧ (∀ k, k ≠ i → band_flags st' !! k = band_flags st !! k)
  ∧ ∃ o f f',
      psf_list st' = psf_list st ++ [o]
      ∧ band_flags st !! i = Some f ∧ band_flags st' !! i = Some f'
      ∧ Z.land f' f = f
      ∧ (is_Some o →
           f' = f ∧ Z.land f (image_flags2check conf) = 0
           ∧ (i = 0%nat → fit_coadd_galaxy conf = true)).
Proof.
  intros Hpsfex. unfold psf_step, index.
  destruct (band_flags st !! i) as [f|] eqn:Hf; [|done]. cbn [rbind].
  destruct ((i =? 0)%nat && negb (fit_coadd_galaxy conf)) eqn:Hco.
  { intros [= <-]. cbn. rewrite length_alter. split; [done|].
    split; [done|]. split; [intros k Hk; by rewrite list_lookup_alter_ne|].
    exists None, f, (Z.lor f 1). rewrite list_lookup_alter_eq, Hf.
    repeat split; try done; [apply land_lor_same|by intros [? ?]..]. }
  assert (i = 0%nat → fit_coadd_galaxy conf = true) as Hco'.
  { intros ->. by destruct (fit_coadd_galaxy conf). }
  destruct (Z.land f (image_flags2check conf) =? 0) eqn:Hchk.
  2:{ intros [= <-]. cbn. repeat split; try done.
      exists None, f, f. rewrite Z.land_diag.
      repeat split; try done; by intros [? ?]. }
  apply Z.eqb_eq in Hchk.
  assert (∃ cache loaded,
            (if String.eqb (psfs_type conf) "piff"
             then _get_piff_object env conf (piff_infos st) (strip path)
             else (piff_infos st, psfex i (strip path))) = (cache, loaded)
            ∧ piff_infos st ⊆ cache
            ∧ ∀ o g, loaded = Ok (Some o, g) → g = 0)
    as (cache & loaded & -> & Hsub & Hload).
  { destruct (String.eqb (psfs_type conf) "piff").
    - eexists _, _. split; [apply surjective_pairing|]. split.
      + apply get_piff_object_cache.
      + intros o g. apply get_piff_object_loaded.
    - eexists _, _. split; [done|]. split; [done|].
      intros o g. apply Hpsfex. }
  destruct loaded as [[o g]|]; [|done]. cbn [rbind fst snd].
  destruct (negb (g =? 0)) eqn:Hg; intros [= <-]; cbn.
  - rewrite length_alter. split; [done|]. split; [done|].
    split; [intros k Hk; by rewrite list_lookup_alter_ne|].
    exists o, f, (Z.lor f g). rewrite list_lookup_alter_eq, Hf.
    do 3 (split; [done|]). split; [apply land_lor_same|].
    intros [x ->]. by rewrite (Hload x g eq_refl) in Hg.
  - repeat split; try done. exists o, f, f. rewrite Z.land_diag.
    repeat split; done.
Qed.

Lemma psf_steps_inv env conf psfex paths :
  (∀ k p o f, psfex k p = Ok (Some o, f) → f = 0) →
  ∀ st i st',
  psf_steps env conf psfex st i paths = Ok st' →
  length (band_flags st') = length (band_flags st)
  ∧ (length paths = 0 ∨ i + length paths ≤ length (band_flags st))%nat
  ∧ length (psf_list st') = (length (psf_list st) + length paths)%nat
  ∧ piff_infos st ⊆ piff_infos st'
  ∧ (∀ k, (k < i ∨ i + length paths ≤ k)%nat →
          band_flags st' !! k = band_flags st !! k)
  ∧ ∀ n, (n < length paths)%nat →
      ∃ o f f',
        psf_list st' !! (length (psf_list st) + n)%nat = Some o
        ∧ band_flags st !! (i + n)%nat = Some f
        ∧ band_flags st' !! (i + n)%nat = Some f'
        ∧ Z.land f' f = f
        ∧ (is_Some o →
             f' = f ∧ Z.land f (image_flags2check conf) = 0
             ∧ ((i + n)%nat = 0%nat → fit_coadd_galaxy conf = true)).
Proof.
  intros Hpsfex. induction paths as [|path paths IH]; intros st i st'.
  - intros [= <-]. cbn. split; [done|]. split; [by left|].
    split; [lia|]. split; [done|]. split; [done|]. intros n Hn. lia.
  - cbn [psf_steps].
    destruct (psf_step env conf psfex st i path) as [st1|] eqn:H1; [|done].
    cbn [rbind]. intros H2.
    destruct (psf_step_inv _ _ _ _ _ _ _ Hpsfex H1)
      as (Hl1 & Hc1 & Hf1 & o & f & f' & Ho & Hf & Hf' & Hland & Hsome).
    destruct (IH _ _ _ H2) as (Hl2 & Hb2 & Hp2 & Hc2 & Hf2 & Hn2).
    assert (i < length (band_flags st))%nat as Hi
      by (apply lookup_lt_is_Some; by eexists).
    cbn [length]. split; [congruence|]. split; [right; lia|].
    split; [rewrite Hp2, Ho, length_app; cbn; lia|].
    split; [by etrans|].
    split.
    { intros k Hk. rewrite Hf2 by lia. apply Hf1. lia. }
    intros [|n] Hn.
    + exists o, f, f'. rewrite !Nat.add_0_r.
      assert (psf_list st' !! length (psf_list st) = Some o) as ->.
      { destruct (psf_steps_frame _ _ _ _ _ _ _ H2) as [_ [l Hl]].
        rewrite Hl, Ho, <- app_assoc. cbn.
        by rewrite lookup_app_r, Nat.sub_diag by lia. }
      rewrite Hf2, Hf' by lia. repeat split; try done; by apply Hsome.
    + destruct (Hn2 n ltac:(lia))
        as (o' & g & g' & Ho' & Hg & Hg' & Hland' & Hsome').
      exists o', g, g'.
      replace (i + S n)%nat with (S i + n)%nat by lia.
      rewrite Ho, length_app in Ho'. cbn in Ho'.
      replace (length (psf_list st) + S n)%nat
        with (length (psf_list st) + 1 + n)%nat by lia.
      rewrite <- (Hf1 (S i + n)%nat) by lia. done.
Qed.

(** Each iteration of the loop, as it ran: it saw the flag that its image
    had at the start, and it made the entry of its image in the PSF list
    and in the flag array. *)
Lemma psf_steps_trace env conf psfex paths : ∀ st i st',
  psf_steps env conf psfex st i paths = Ok st' →
  ∀ n path, paths !! n = Some path →
    ∃ s s',
      psf_step env conf psfex s (i + n) path = Ok s'
      ∧ band_flags s !! (i + n)%nat = band_flags st !! (i + n)%nat
      ∧ band_flags st' !! (i + n)%nat = band_flags s' !! (i + n)%nat
      ∧ psf_list st' !! (length (psf_list st) + n)%nat = last (psf_list s').
Proof.
  induction paths as [|path0 paths IH]; intros st i st'; [done|].
  cbn [psf_steps].
  destruct (psf_step env conf psfex st i path0) as [st1|] eqn:H1; [|done].
  cbn [rbind]. intros H2 n path Hn.
  destruct (psf_step_frame _ _ _ _ _ _ _ H1) as [Hf1 [o Ho]].
  destruct (psf_steps_frame _ _ _ _ _ _ _ H2) as [Hf2 [l Hl]].
  destruct n as [|n].
  - injection Hn as <-. exists st, st1. rewrite !Nat.add_0_r.
    split; [done|]. split; [done|]. split; [apply Hf2; lia|].
    rewrite Hl, Ho, last_snoc, <- app_assoc. cbn.
    by rewrite lookup_app_r, Nat.sub_diag by lia.
  - destruct (IH _ _ _ H2 n path Hn) as (s & s' & Hs & Hb & Hb' & Hp).
    exists s, s'. replace (i + S n)%nat with (S i + n)%nat by lia.
    split; [done|]. split; [rewrite Hb; apply Hf1; lia|]. split; [done|].
    rewrite <- Hp, Ho, length_app. cbn. f_equal. lia.
Qed.

(** X8.  When [_get_psf_objects] returns, the PSF list has one entry per image
    of the band; the flag array keeps its length, its entries beyond the
    images are unchanged and every other entry keeps each bit it had; the
    cache of exposure summaries keeps its entries; and an image with a PSF
    object has its flag unchanged and free of the checked bits, and is not
    the coadd unless the coadd is fitted.  (The PSFEx loader returns an
    object only with flags 0, as [_get_psfex_object] does.) *)
Theorem psf_objects_invariants (env : environment) (conf : config)
    (psfex : psfex_loader) (cache : piff_cache)
    (image_path : list string) (flags : list Z) (st : psf_loop) :
  (∀ k p o f, psfex k p = Ok (Some o, f) → f = 0) →
  _get_psf_objects env conf psfex cache image_path flags = Ok st →
  length (psf_list st) = length image_path
  ∧ length (band_flags st) = length flags
  ∧ (length image_path ≤ length flags)%nat
  ∧ cache ⊆ piff_infos st
  ∧ (∀ k, (length image_path ≤ k)%nat → band_flags st !! k = flags !! k)
  ∧ ∀ i, (i < length image_path)%nat →
      ∃ o f f',
        psf_list st !! i = Some o ∧ flags !! i = Some f
        ∧ band_flags st !! i = Some f'
        ∧ Z.land f' f = f
        ∧ (is_Some o →
             f' = f ∧ Z.land f (image_flags2check conf) = 0
             ∧ (i = 0%nat → fit_coadd_galaxy conf = true)).
Proof.
  intros Hpsfex Hcall. unfold _get_psf_objects in Hcall.
  destruct (psf_steps_inv _ _ _ _ Hpsfex _ _ _ Hcall)
    as (Hl & Hb & Hp & Hc & Hf & Hn). cbn in *.
  split; [done|]. split; [done|]. split; [lia|]. split; [done|].
  split; [|done]. intros k Hk. apply Hf. lia.
Qed.

Lemma psf_objects_invariants_witness :
  ∃ st,
    _get_psf_objects Examples.env0 Examples.conf0 Examples.no_psfex ∅
      Examples.paths0 [0; 0; 0; 1] = Ok st
    ∧ length (psf_list st) = 4%nat
    ∧ band_flags st = [1; 0; PSF_IN_BLACKLIST; 1].
Proof.
  eexists. split; [by vm_compute|].
  destruct (psf_objects_invariants Examples.env0 Examples.conf0
              Examples.no_psfex ∅ Examples.paths0 [0; 0; 0; 1] _
              ltac:(discriminate) eq_refl) as (H & _).
  split; [exact H|reflexivity].
Defined.

Lemma land_1_odd (c : Z) : Z.land IMAGE_FLAGS_SET c = if Z.odd c then 1 else 0.
Proof.
  change IMAGE_FLAGS_SET with (Z.ones 1).
  rewrite Z.land_comm, Z.land_ones by lia. apply Zmod_odd.
Qed.

(** X9.  The reduction of the flags and the PSF loop together.  An exposure
    (not the coadd) whose flag in the image info table has a checked bit
    is stored with the flag [IMAGE_FLAGS_SET]; the PSF loop tests the
    stored flag against [image_flags2check] again.  When
    [image_flags2check] has bit 0 set, the exposure gets no PSF object and
    keeps the flag [IMAGE_FLAGS_SET]; when it has not, the stored flag
    passes the test: the PSF of the flagged exposure is loaded, and the
    loader's object and flags are what the loop records. *)
Theorem flagged_image_psf (env : environment) (conf : config)
    (psfex : psfex_loader) (cache : piff_cache)
    (image_path : list string) (fl : list Z) (st : psf_loop)
    (i : nat) (g : Z) (path : string) :
  _get_psf_objects env conf psfex cache image_path
    (reduce_image_flags conf fl) = Ok st →
  (1 ≤ i)%nat → fl !! i = Some g → image_path !! i = Some path →
  Z.land g (image_flags2check conf) ≠ 0 →
  reduce_image_flags conf fl !! i = Some IMAGE_FLAGS_SET
  ∧ (Z.odd (image_flags2check conf) = true →
       psf_list st !! i = Some None
       ∧ band_flags st !! i = Some IMAGE_FLAGS_SET)
  ∧ (Z.odd (image_flags2check conf) = false →
       ∃ cache' r,
         (if String.eqb (psfs_type conf) "piff"
          then (_get_piff_object env conf cache' (strip path)).2
          else psfex i (strip path)) = Ok r
         ∧ psf_list st !! i = Some r.1
         ∧ band_flags st !! i = Some (Z.lor IMAGE_FLAGS_SET r.2)).
Proof.
  intros Hcall Hi Hg Hpath Hchk.
  assert (reduce_image_flags conf fl !! i = Some IMAGE_FLAGS_SET) as Hred.
  { rewrite reduce_image_flags_lookup. destruct i as [|i]; [lia|].
    rewrite Hg. cbn. by rewrite (proj2 (Z.eqb_neq _ _) Hchk). }
  split; [done|]. unfold _get_psf_objects in Hcall.
  destruct (psf_steps_trace _ _ _ _ _ _ _ Hcall i path Hpath)
    as (s & s' & Hstep & Hb & Hb' & Hp).
  cbn [psf_list band_flags length] in *. change (0 + i)%nat with i in *.
  rewrite Hred in Hb. rewrite Hb', Hp. clear Hb' Hp.
  revert Hstep. unfold psf_step, index. rewrite Hb. cbn [rbind].
  assert ((i =? 0)%nat = false) as -> by (apply Nat.eqb_neq; lia).
  cbn [andb]. rewrite land_1_odd. intros Hstep.
  split; intros Hodd; rewrite Hodd in Hstep; cbn [Z.eqb] in Hstep;
    revert Hstep.
  - intros [= <-]. cbn. by rewrite last_snoc.
  - destruct (String.eqb (psfs_type conf) "piff").
    + destruct (_get_piff_object env conf (piff_infos s) (strip path))
        as [c' [r|]] eqn:Hobj; [|done].
      cbn [rbind]. intros Hstep. exists (piff_infos s), r. rewrite Hobj.
      split; [done|]. revert Hstep.
      destruct (negb (r.2 =? 0)) eqn:Hr; intros [= <-]; cbn;
        rewrite last_snoc.
      * by rewrite list_lookup_alter_eq, Hb.
      * apply negb_false_iff, Z.eqb_eq in Hr. by rewrite Hr, Hb.
    + destruct (psfex i (strip path)) as [r|] eqn:Hobj; [|done].
      cbn [rbind]. intros Hstep. exists cache, r. split; [done|].
      revert Hstep.
      destruct (negb (r.2 =? 0)) eqn:Hr; intros [= <-]; cbn;
        rewrite last_snoc.
      * by rewrite list_lookup_alter_eq, Hb.
      * apply negb_false_iff, Z.eqb_eq in Hr. by rewrite Hr, Hb.
Qed.

Lemma flagged_image_psf_witness :
  let conf :=
    {| image_flags2check := 2; fit_coadd_galaxy := false;
       replacement_flags := None; psfs_type := "piff";
       psfs_piff_run := "run1"; psfs_allow_missing := false;
       psfs_stamp_size := 3; image_type := "surface_brightness";
       fitter_type := "galsimsimple"; trim_psf_dims := None |} in
  ∃ st,
    _get_psf_objects Examples.env0 conf Examples.no_psfex ∅
      (take 3 Examples.paths0) (reduce_image_flags conf [0; 2; 0]) = Ok st
    ∧ reduce_image_flags conf [0; 2; 0] !! 1%nat = Some IMAGE_FLAGS_SET
    ∧ is_Some (psf_list st !! 1%nat ≫= id).
Proof.
  intros conf. eexists. split; [by vm_compute|].
  split; [|eexists; by vm_compute].
  eapply (flagged_image_psf Examples.env0 conf Examples.no_psfex ∅
            (take 3 Examples.paths0) [0; 2; 0] _ 1 2).
  - by vm_compute.
  - lia.
  - reflexivity.
  - reflexivity.
  - by vm_compute.
Defined.
End psf_objects_facts.

(** ** The PSF image of a PIFF model (PIFFWrapper.get_rec) *)

Section get_rec_facts.
Import PIFFWrapper.

Lemma row_sum_scale (c : Q) (row : list Q) :
  (foldr Qplus 0 ((λ x, x * c) <$> row) == foldr Qplus 0 row * c)%Q.
Proof.
  induction row as [|x row IH]; cbn [fmap list_fmap foldr]; [ring|].
  change (list_fmap Q Q (λ x, x * c)%Q row) with ((λ x, x * c)%Q <$> row).
  rewrite IH. ring.
Qed.

Lemma asum_scale (c : Q) (a : farray) :
  (asum (amap (λ x, x * c) a) == asum a * c)%Q.
Proof.
  unfold asum, amap. induction a as [|row a IH];
    cbn [fmap list_fmap foldr]; [ring|].
  change (list_fmap (list Q) Q (foldr Qplus 0%Q)
            (list_fmap (list Q) (list Q) (λ row, (λ x, x * c)%Q <$> row) a))
    with (foldr Qplus 0%Q <$> ((λ row : list Q, (λ x, x * c)%Q <$> row)
                                <$> a)).
  change (list_fmap (list Q) Q (foldr Qplus 0%Q) a)
    with (foldr Qplus 0%Q <$> a).
  rewrite IH, row_sum_scale. ring.
Qed.

(** X10.  [get_rec(row, col)] returns the image that the model draws at
    [x = int(col + 0.5)], [y = int(row + 0.5)], with every pixel divided
    by the sum of the image: the shape is that of the drawn image and,
    when the drawn image does not sum to zero, the returned image sums
    to 1 (in exact arithmetic). *)
Theorem get_rec_normalised (env : environment) (self : t) (row col : Q) :
  let drawn := piff_obj self (int_of_float (col + 0.5))
                 (int_of_float (row + 0.5)) (stamp_size self) in
  ¬ (asum drawn == 0)%Q →
  (asum (get_rec env self row col).2 == 1)%Q
  ∧ length <$> (get_rec env self row col).2 = length <$> drawn
  ∧ ∀ i j x, get2 drawn i j = Some x →
      ∃ y, get2 (get_rec env self row col).2 i j = Some y
           ∧ (y * asum drawn == x)%Q.
Proof.
  intros drawn Hsum. unfold get_rec. cbn [snd]. fold drawn.
  split; [|split].
  - rewrite asum_scale. field. exact Hsum.
  - unfold amap. rewrite <- list_fmap_compose. apply list_fmap_ext.
    intros _ r _. cbn. by rewrite length_fmap.
  - intros i j x Hx. unfold get2, amap in *.
    rewrite list_lookup_fmap.
    destruct (drawn !! i) as [r|]; [|done]. cbn in *.
    rewrite list_lookup_fmap, Hx. cbn. eexists. split; [done|].
    field. exact Hsum.
Qed.

Lemma get_rec_normalised_witness :
  (asum (get_rec Examples.env0
           (__init__ Examples.env0 "D00243626_i_c30_piff.fits" 3)
           (7 # 2) (9 # 2)).2 == 1)%Q.
Proof.
  apply (get_rec_normalised Examples.env0
           (__init__ Examples.env0 "D00243626_i_c30_piff.fits" 3)
           (7 # 2) (9 # 2)).
  by vm_compute.
Defined.
End get_rec_facts.

(** ** File names and keys
       (Y3DESMEDSImageIO._get_expccd_and_key,
        SVDESMEDSImageIO._extract_piff_key and _replace_piff_dir) *)

Section file_name_facts.
Import SVDESMEDSImageIO.

Lemma append_nil_l (s : string) : ("" ++ s)%string = s.
Proof. reflexivity. Qed.
Lemma append_cons (c : ascii) (a b : string) :
  (String c a ++ b)%string = String c (a ++ b).
Proof. reflexivity. Qed.

Lemma split_on_nonempty sep s : split_on sep s ≠ [].
Proof.
  destruct s as [|c s]; [done|]. cbn [split_on].
  destruct (Ascii.eqb c sep); [done|]. by destruct (split_on sep s).
Qed.

Lemma split_on_free sep s : sep_free sep s = true → split_on sep s = [s].
Proof.
  induction s as [|c s IH]; [done|]. cbn [split_on sep_free].
  intros [Hc Hs]%andb_true_iff. apply negb_true_iff in Hc.
  by rewrite Hc, (IH Hs).
Qed.

(** Splitting at a separator that is written out. *)
Lemma split_on_app sep d b :
  split_on sep (d ++ String sep b) = split_on sep d ++ split_on sep b.
Proof.
  induction d as [|c d IH];
    rewrite ?append_nil_l, ?append_cons; cbn [split_on].
  - by rewrite Ascii.eqb_refl.
  - destruct (Ascii.eqb c sep); [by rewrite IH|].
    rewrite IH. pose proof (split_on_nonempty sep d).
    by destruct (split_on sep d).
Qed.

(** [sep.join(fields).split(sep) == fields] for fields without the
    separator, and [sep.join(s.split(sep)) == s]. *)
Lemma split_on_concat sep fields :
  fields ≠ [] → Forall (λ f, sep_free sep f = true) fields →
  split_on sep (String.concat (String sep EmptyString) fields) = fields.
Proof.
  intros Hne Hall. induction Hall as [|f fields Hf Hall IH]; [done|].
  destruct fields as [|g fields]; [by apply split_on_free|].
  change (String.concat (String sep "") (f :: g :: fields))
    with (f ++ String sep (String.concat (String sep "") (g :: fields)))
           %string.
  rewrite split_on_app, (split_on_free _ _ Hf), IH by done. done.
Qed.

Lemma concat_split_on sep s :
  String.concat (String sep EmptyString) (split_on sep s) = s.
Proof.
  induction s as [|c s IH]; [done|]. cbn [split_on].
  pose proof (split_on_nonempty sep s) as Hne.
  destruct (Ascii.eqb_spec c sep) as [->|Hc].
  - destruct (split_on sep s) as [|w ws]; [done|].
    change (String.concat (String sep "") ("" :: w :: ws))
      with (String sep (String.concat (String sep "") (w :: ws))).
    by rewrite IH.
  - destruct (split_on sep s) as [|w ws]; [done|]. rewrite <- IH.
    by destruct ws.
Qed.

Lemma basename_app d b :
  sep_free "/" b = true → basename (d ++ String "/" b) = b.
Proof.
  intros Hb. unfold basename.
  by rewrite split_on_app, (split_on_free _ _ Hb), last_snoc.
Qed.

Lemma basename_free b : sep_free "/" b = true → basename b = b.
Proof. intros Hb. unfold basename. by rewrite (split_on_free _ _ Hb). Qed.

Lemma sep_free_app c a b :
  sep_free c (a ++ b) = sep_free c a && sep_free c b.
Proof.
  induction a as [|x a IH]; [done|]. rewrite append_cons.
  cbn [sep_free]. by rewrite IH, andb_assoc.
Qed.

Lemma sep_free_concat c sep fields :
  sep_free c (String sep EmptyString) = true →
  Forall (λ f, sep_free c f = true) fields →
  sep_free c (String.concat (String sep EmptyString) fields) = true.
Proof.
  intros Hsep Hall. induction Hall as [|f fields Hf Hall IH]; [done|].
  destruct fields as [|g fields]; [done|].
  change (String.concat (String sep "") (f :: g :: fields))
    with (f ++ String sep "" ++ String.concat (String sep "") (g :: fields))
           %string.
  by rewrite !sep_free_app, Hf, Hsep, IH.
Qed.

(** [s[0:n] == p] for [s] that continues a separator-free field [f0] with
    the separator: the field starts with [p]. *)
Lemma substring_prefix sep p : ∀ f0 x,
  sep_free sep p = true →
  String.eqb (substring 0 (String.length p) (f0 ++ String sep x)) p
  = String.prefix p f0.
Proof.
  induction p as [|a p IH]; intros f0 x Hp.
  - by destruct f0.
  - cbn [sep_free] in Hp. apply andb_true_iff in Hp as [Ha Hp].
    apply negb_true_iff in Ha. cbn [String.length].
    destruct f0 as [|b f0]; rewrite ?append_nil_l, ?append_cons;
      cbn [substring String.eqb String.prefix].
    + rewrite Ascii.eqb_sym. by rewrite Ha.
    + rewrite IH by done.
      destruct (Ascii.eqb_spec b a) as [->|Hba];
        destruct (ascii_dec a a); try done;
        destruct (ascii_dec a b); try done; congruence.
Qed.

Lemma str_remove_free c s : sep_free c s = true → str_remove c s = s.
Proof.
  induction s as [|a s IH]; [done|]. cbn [sep_free str_remove].
  intros [Ha Hs]%andb_true_iff. apply negb_true_iff in Ha.
  by rewrite Ha, (IH Hs).
Qed.

(** The base name of a path whose last component is the fields joined by
    underscores, and its fields. *)
Lemma basename_fields (dir : string) (fields : list string) (path : string) :
  fields ≠ [] →
  Forall (λ f, sep_free "_" f = true ∧ sep_free "/" f = true) fields →
  path = String.concat "_" fields
  ∨ path = (dir ++ "/" ++ String.concat "_" fields)%string →
  basename path = String.concat "_" fields
  ∧ split_on "_" (basename path) = fields.
Proof.
  intros Hne Hall Hpath.
  assert (sep_free "/" (String.concat "_" fields) = true) as Hfree.
  { apply sep_free_concat; [done|]. eapply Forall_impl; [done|].
    by intros f [_ ?]. }
  assert (basename path = String.concat "_" fields) as ->.
  { destruct Hpath as [->| ->]; [by apply basename_free|].
    by apply basename_app. }
  split; [done|]. apply split_on_concat; [done|].
  eapply Forall_impl; [done|]. by intros f [? _].
Qed.

(** [_get_expccd_and_key] on a base name of at least three fields. *)
Lemma get_expccd_and_key_three (dir f0 f1 f2 : string) (rest : list string)
    (path : string) :
  Forall (λ f, sep_free "_" f = true ∧ sep_free "/" f = true)
    (f0 :: f1 :: f2 :: rest) →
  path = String.concat "_" (f0 :: f1 :: f2 :: rest)
  ∨ path = (dir ++ "/"
            ++ String.concat "_" (f0 :: f1 :: f2 :: rest))%string →
  Y3DESMEDSImageIO._get_expccd_and_key path =
  if String.prefix "DES" f0 then
    match rest with
    | _ :: f4 :: _ => Ok (f2, str_tail f4, (f2 ++ "-" ++ str_tail f4)%string)
    | _ => Raise IndexError
    end
  else Ok (f0, str_tail f2, (f0 ++ "-" ++ str_tail f2)%string).
Proof.
  intros Hall Hpath.
  assert (f0 :: f1 :: f2 :: rest ≠ []) as Hne by done.
  destruct (basename_fields dir _ path Hne Hall Hpath) as [Hb Hs].
  unfold Y3DESMEDSImageIO._get_expccd_and_key. rewrite Hs. cbv zeta.
  rewrite Hb.
  change (String.concat "_" (f0 :: f1 :: f2 :: rest))
    with (f0 ++ String "_" (String.concat "_" (f1 :: f2 :: rest)))%string.
  rewrite (substring_prefix "_" "DES" f0 _ eq_refl).
  destruct (String.prefix "DES" f0); [|done].
  destruct rest as [|f3 [|f4 rest]]; done.
Qed.

(** X11.  [_get_expccd_and_key] on a path whose last component is a list of
    fields joined by underscores (the fields contain neither underscore
    nor slash): the directory plays no role; the exposure name is field 0
    and the detector is field 2 without its first character, or fields 2
    and 4 when the name starts with DES; the key joins the two with a
    dash; and a name with too few fields raises [IndexError]. *)
Theorem expccd_key_fields (dir : string) (fields : list string)
    (path : string) :
  fields ≠ [] →
  Forall (λ f, sep_free "_" f = true ∧ sep_free "/" f = true) fields →
  path = String.concat "_" fields
  ∨ path = (dir ++ "/" ++ String.concat "_" fields)%string →
  Y3DESMEDSImageIO._get_expccd_and_key path =
  let pick i j :=
    expname ← index fields i ;;;
    f ← index fields j ;;;
    Ok (expname, str_tail f, (expname ++ "-" ++ str_tail f)%string) in
  if String.prefix "DES" (hd EmptyString fields) then pick 2%nat 4%nat
  else pick 0%nat 2%nat.
Proof.
  intros Hne Hall Hpath.
  destruct fields as [|f0 [|f1 [|f2 rest]]]; [done|..].
  - destruct (basename_fields dir _ path Hne Hall Hpath) as [_ Hs].
    unfold Y3DESMEDSImageIO._get_expccd_and_key. rewrite Hs. cbv zeta.
    cbn [hd index lookup list_lookup rbind].
    by destruct (String.eqb _ _), (String.prefix _ _).
  - destruct (basename_fields dir _ path Hne Hall Hpath) as [_ Hs].
    unfold Y3DESMEDSImageIO._get_expccd_and_key. rewrite Hs. cbv zeta.
    cbn [hd index lookup list_lookup rbind].
    by destruct (String.eqb _ _), (String.prefix _ _).
  - rewrite (get_expccd_and_key_three dir f0 f1 f2 rest path Hall Hpath).
    cbn [hd]. destruct (String.prefix "DES" f0); [|done].
    destruct rest as [|f3 [|f4 rest]]; done.
Qed.

Lemma expccd_key_fields_witness :
  Y3DESMEDSImageIO._get_expccd_and_key
    "/data/red/D00243626_i_c30_r2363p01_immasked.fits.fz"
  = Ok ("D00243626", "30", "D00243626-30").
Proof.
  apply (expccd_key_fields "/data/red"
           ["D00243626"; "i"; "c30"; "r2363p01"; "immasked.fits.fz"]).
  - done.
  - repeat constructor.
  - by right.
Defined.

(** X12.  On a path whose last component is a list of fields joined by
    underscores, with a field 0 that does not start with DES and a field 2
    that is a [c] followed by a detector number without [c],
    [_extract_piff_key] builds the key of [_get_expccd_and_key]. *)
Theorem piff_key_agrees (dir f0 f1 ccd : string) (rest : list string)
    (path : string) :
  Forall (λ f, sep_free "_" f = true ∧ sep_free "/" f = true)
    (f0 :: f1 :: String "c" ccd :: rest) →
  sep_free "c" ccd = true →
  String.prefix "DES" f0 = false →
  path = String.concat "_" (f0 :: f1 :: String "c" ccd :: rest)
  ∨ path = (dir ++ "/"
            ++ String.concat "_" (f0 :: f1 :: String "c" ccd :: rest))%string →
  _extract_piff_key path = Ok (f0 ++ "-" ++ ccd)%string
  ∧ Y3DESMEDSImageIO._get_expccd_and_key path
    = Ok (f0, ccd, (f0 ++ "-" ++ ccd)%string).
Proof.
  intros Hall Hccd Hdes Hpath.
  assert (f0 :: f1 :: String "c" ccd :: rest ≠ []) as Hne by done. split.
  - destruct (basename_fields dir _ path Hne Hall Hpath) as [_ Hs].
    unfold _extract_piff_key. rewrite Hs.
    cbn [index lookup list_lookup rbind str_remove].
    by rewrite Ascii.eqb_refl, (str_remove_free _ _ Hccd).
  - rewrite (get_expccd_and_key_three dir _ _ _ _ path Hall Hpath).
    by rewrite Hdes.
Qed.

Lemma piff_key_agrees_witness :
  _extract_piff_key "/y3/243626/D00243626_i_c30_r2363p01_piff.fits"
  = Ok "D00243626-30"
  ∧ Y3DESMEDSImageIO._get_expccd_and_key
      "/y3/243626/D00243626_i_c30_r2363p01_piff.fits"
    = Ok ("D00243626", "30", "D00243626-30").
Proof.
  apply (piff_key_agrees "/y3/243626" "D00243626" "i" "30"
           ["r2363p01"; "piff.fits"]).
  - repeat constructor.
  - reflexivity.
  - reflexivity.
  - by right.
Defined.

(** X13.  [_replace_piff_dir] keeps the last three components of the path and
    puts [$PIFF_DATA_DIR] in front of them, whatever came before them: a
    path it has produced is mapped to itself; and a path of at most three
    components is kept whole. *)
Theorem replace_piff_dir_components (env : environment)
    (edir d a b c : string) :
  PIFF_DATA_DIR env = Some edir →
  sep_free "/" a = true → sep_free "/" b = true → sep_free "/" c = true →
  let kept := (a ++ "/" ++ b ++ "/" ++ c)%string in
  _replace_piff_dir env (d ++ "/" ++ kept) = Ok (edir ++ "/" ++ kept)%string
  ∧ _replace_piff_dir env (edir ++ "/" ++ kept)
    = Ok (edir ++ "/" ++ kept)%string
  ∧ ∀ path, (length (split_on "/" path) ≤ 3)%nat →
      _replace_piff_dir env path = Ok (edir ++ "/" ++ path)%string.
Proof.
  intros Hdir Ha Hb Hc kept.
  assert (∀ p, _replace_piff_dir env (p ++ "/" ++ kept)
               = Ok (edir ++ "/" ++ kept)%string) as Hkept.
  { intros p. unfold _replace_piff_dir, kept. rewrite Hdir.
    change (p ++ "/" ++ a ++ "/" ++ b ++ "/" ++ c)%string
      with (p ++ String "/" (a ++ String "/" (b ++ String "/" c)))%string.
    rewrite !split_on_app.
    rewrite (split_on_free _ _ Ha), (split_on_free _ _ Hb),
      (split_on_free _ _ Hc).
    unfold last_n. rewrite length_app. cbn [length app].
    replace (length (split_on "/" p) + 3 - 3)%nat
      with (length (split_on "/" p)) by lia.
    by rewrite drop_app_length. }
  split; [apply Hkept|]. split; [apply Hkept|].
  intros path Hlen. unfold _replace_piff_dir. rewrite Hdir.
  unfold last_n. replace (length (split_on "/" path) - 3)%nat with 0%nat
    by lia.
  rewrite drop_0. pose proof (split_on_nonempty "/" path) as Hne.
  pose proof (concat_split_on "/" path) as Hcat.
  destruct (split_on "/" path) as [|w ws]; [done|].
  change (String.concat "/" (edir :: w :: ws))
    with (edir ++ "/" ++ String.concat "/" (w :: ws))%string.
  by rewrite Hcat.
Qed.

Lemma replace_piff_dir_components_witness :
  _replace_piff_dir Examples.env0
    "/old/base/y3/243626/D00243626_i_c30_piff.fits"
  = Ok "/data/y3/243626/D00243626_i_c30_piff.fits".
Proof.
  apply (replace_piff_dir_components Examples.env0 "/data" "/old/base"
           "y3" "243626" "D00243626_i_c30_piff.fits");
    reflexivity.
Defined.
End file_name_facts.

(** ** Observations of a band (SVDESMEDSImageIO._get_band_observations) *)

Section band_observations_facts.
Import SVDESMEDSImageIO.

Lemma for_each_Forall2 {A B} (R : A → B → Prop) (f : A → result B) l l' :
  (∀ x y, f x = Ok y → R x y) → for_each f l = Ok l' → Forall2 R l l'.
Proof.
  intros HR. revert l'. induction l as [|x l IH]; intros l'.
  - intros [= <-]. constructor.
  - cbn [for_each]. destruct (f x) as [y|] eqn:Hy; [|done]. cbn [rbind].
    destruct (for_each f l) as [ys|]; [|done]. cbn [rbind].
    intros [= <-]. constructor; [by apply HR|by apply IH].
Qed.

Lemma get2_amap (f : Q → Q) (a : farray) i j :
  get2 (amap f a) i j = f <$> get2 a i j.
Proof.
  unfold get2, amap. rewrite list_lookup_fmap.
  destruct (a !! i) as [row|]; [|done]. cbn. by rewrite list_lookup_fmap.
Qed.

(** What [obs.set_weight] changes. *)
Lemma set_weight_Ok env obs w obs' :
  set_weight env obs w = Ok obs' →
  obs' = {| image := image obs; weight := w; weight_raw := weight_raw obs;
            weight_us := weight_us obs; weight_orig := weight_orig obs;
            seg := seg obs; jacobian := jacobian obs; psf := psf obs;
            meta_flags := meta_flags obs; meta_icut := meta_icut obs |}.
Proof.
  unfold set_weight. destruct (set_weight_error env w); [done|].
  by intros [= <-].
Qed.

(** What the [try] block changes: the image is the given one, and the
    weight map is the given one except perhaps at pixel (0, 0). *)
Lemma set_image_and_weight_Ok env obs im w obs' :
  set_image_and_weight env obs im w = Ok obs' →
  same_frame obs obs' ∧ image obs' = im
  ∧ weight_raw obs' = weight_raw obs ∧ weight_us obs' = weight_us obs
  ∧ ∀ i j, (i, j) ≠ (0, 0)%nat → get2 (weight obs') i j = get2 w i j.
Proof.
  unfold set_image_and_weight. cbv zeta.
  destruct (set_weight env (set_image obs im) w) as [o|e] eqn:H1.
  - intros [= <-]. apply set_weight_Ok in H1 as ->. by repeat split.
  - destruct e; try done. unfold setitem2.
    destruct (bool_decide (is_Some (get2 w 0 0))); [|done]. cbn [rbind].
    intros ->%set_weight_Ok. cbn. repeat split; try done.
    intros i j Hij. rewrite get2_set2.
    destruct (decide (0%nat = i ∧ 0%nat = j)) as [[<- <-]|]; done.
Qed.

Lemma convert_obs_Ok env op_image op_weight obs obs' :
  convert_obs env op_image op_weight obs = Ok obs' →
  same_frame obs obs'
  ∧ (meta_flags obs ≠ 0 → obs' = obs)
  ∧ (meta_flags obs = 0 →
       let s2 := Qpower (scale (jacobian obs)) 2 in
       let s4 := (s2 * s2)%Q in
       image obs' = amap (λ x, op_image x s2) (image obs)
       ∧ ∀ i j, (i, j) ≠ (0, 0)%nat →
           get2 (weight obs') i j
           = get2 (amap (λ x, op_weight x s4) (weight obs)) i j).
Proof.
  unfold convert_obs. destruct (meta_flags obs =? 0) eqn:Hfl.
  2:{ apply Z.eqb_neq in Hfl. intros [= <-]. by repeat split. }
  apply Z.eqb_eq in Hfl.
  destruct (set_image_and_weight env obs _ _) as [o|] eqn:H1; [|done].
  cbn [rbind].
  apply set_image_and_weight_Ok in H1
    as ((? & ? & ? & ? & ? & ?) & Him & Hraw & Hus & Hw).
  destruct (scale_attr _ (weight_raw o)) as [w_raw|]; [|done].
  cbn [rbind].
  destruct (scale_attr _ (weight_us o)) as [w_us|]; [|done].
  cbn [rbind]. intros [= <-]. cbn. repeat split; try done.
Qed.

Lemma to_flux_converted env obs obs' :
  to_flux env obs = Ok obs' → converted obs obs'.
Proof.
  intros (Hfr & Hflag & Hconv)%convert_obs_Ok.
  split; [done|]. split; [done|]. intros Hs i j x w Hij Hx Hw.
  destruct (decide (meta_flags obs = 0)) as [Hfl|Hfl];
    [|rewrite (Hflag Hfl); by exists x, w].
  destruct (Hconv Hfl) as [-> Hw'].
  rewrite (Hw' i j Hij), !get2_amap, Hx, Hw. cbn.
  eexists _, _. split; [done|]. split; [done|].
  destruct (Qpower_2_nonzero _ Hs) as [H2 H4]. by field.
Qed.

Lemma to_surface_brightness_converted env obs obs' :
  to_surface_brightness env obs = Ok obs' → converted obs obs'.
Proof.
  intros (Hfr & Hflag & Hconv)%convert_obs_Ok.
  split; [done|]. split; [done|]. intros Hs i j x w Hij Hx Hw.
  destruct (decide (meta_flags obs = 0)) as [Hfl|Hfl];
    [|rewrite (Hflag Hfl); by exists x, w].
  destruct (Hconv Hfl) as [-> Hw'].
  rewrite (Hw' i j Hij), !get2_amap, Hx, Hw. cbn.
  eexists _, _. split; [done|]. split; [done|].
  destruct (Qpower_2_nonzero _ Hs) as [H2 H4]. by field.
Qed.

Lemma converted_refl obs : converted obs obs.
Proof.
  split; [done|]. split; [done|]. intros _ i j x w _ Hx Hw.
  by exists x, w.
Qed.

(** X14.  When [_get_band_observations] returns, each of the two lists has its
    length and its order; no observation has its segmentation map,
    Jacobian, PSF, meta data or [weight_orig] changed, whichever
    conversion runs; a flagged observation is returned as it is; and for
    a nonzero pixel scale every pixel other than (0, 0) keeps its
    [image^2 * weight]: the conversion between surface brightness and flux
    changes no signal-to-noise ratio (in exact arithmetic), also when the
    fallback for a rejected weight map has run. *)
Theorem band_observations_converted (env : environment) (conf : config)
    (coadd_obs_list obs_list coadd_obs_list' obs_list' : list Observation) :
  _get_band_observations env conf coadd_obs_list obs_list
    = Ok (coadd_obs_list', obs_list') →
  Forall2 converted coadd_obs_list coadd_obs_list'
  ∧ Forall2 converted obs_list obs_list'.
Proof.
  unfold _get_band_observations. cbv zeta.
  destruct (_ && _).
  { destruct (for_each (to_flux env) coadd_obs_list) as [c|] eqn:Hc;
      [|done].
    cbn [rbind].
    destruct (for_each (to_flux env) obs_list) as [o|] eqn:Ho; [|done].
    intros [= <- <-].
    split; (eapply for_each_Forall2; [apply to_flux_converted|done]). }
  destruct (_ && _).
  { destruct (for_each (to_surface_brightness env) coadd_obs_list)
      as [c|] eqn:Hc; [|done].
    cbn [rbind].
    destruct (for_each (to_surface_brightness env) obs_list)
      as [o|] eqn:Ho; [|done].
    intros [= <- <-].
    split; (eapply for_each_Forall2;
            [apply to_surface_brightness_converted|done]). }
  intros [= <- <-].
  split; (apply Forall2_same_length_lookup_2; [done|]);
    intros k x y Hx Hy; simplify_eq; apply converted_refl.
Qed.

Lemma band_observations_converted_witness :
  ∃ c o,
    _get_band_observations Examples.env0 Examples.conf0
      [Examples.obs_cen] [Examples.obs_cen; Examples.obs_zero_weight]
    = Ok (c, o)
    ∧ Forall2 converted [Examples.obs_cen] c
    ∧ Forall2 converted [Examples.obs_cen; Examples.obs_zero_weight] o.
Proof.
  eexists _, _. split; [by vm_compute|].
  apply (band_observations_converted Examples.env0 Examples.conf0).
  by vm_compute.
Defined.
End band_observations_facts.

(** ** Off-chip neighbours: edge cases
       (Y1DESMEDSImageIO._get_offchip_nbr_psf_obs_and_jac) *)

Section offchip_outcome_facts.
Import Y1DESMEDSImageIO.

(** X15.  The outcomes of the off-chip placement.  It returns [(None, None)]
    exactly for a neighbour without cutouts, whatever the other inputs
    are; it raises [AssertionError] exactly when the neighbour has
    cutouts and its coadd file id differs from that of the central
    object; with a coadd WCS for that file id it raises [LinAlgError]
    exactly when, in addition, the Jacobian matrix of the central
    observation is singular; and whenever it returns a pair, the pair is
    the PSF of the central observation and a Jacobian with the matrix and
    scale of the central one. *)
Theorem offchip_nbr_outcomes (s : sky) (cen nbr : meds_object)
    (cen_obs : Observation) :
  let out := _get_offchip_nbr_psf_obs_and_jac s cen nbr cen_obs in
  let J := jacobian cen_obs in
  (out = Ok None ↔ ncutout nbr = 0)
  ∧ (out = Raise AssertionError ↔
       ncutout nbr ≠ 0 ∧ file_id cen 0 ≠ file_id nbr 0)
  ∧ (is_Some (coadd_wcs s (file_id cen 0)) →
       (out = Raise LinAlgError ↔
          ncutout nbr ≠ 0 ∧ file_id cen 0 = file_id nbr 0
          ∧ (dudrow J * dvdcol J - dudcol J * dvdrow J == 0)%Q))
  ∧ ∀ p J', out = Ok (Some (p, J')) →
      p = psf cen_obs
      ∧ dudrow J' = dudrow J ∧ dudcol J' = dudcol J
      ∧ dvdrow J' = dvdrow J ∧ dvdcol J' = dvdcol J
      ∧ scale J' = scale J.
Proof.
  intros out J. subst out. unfold _get_offchip_nbr_psf_obs_and_jac.
  destruct (Z.eqb_spec (ncutout nbr) 0) as [Hn|Hn].
  { split; [done|]. split; [by split; [|intros [? _]]|].
    split; [intros _; by split; [|intros [? _]]|]. done. }
  destruct (Z.eqb_spec (file_id cen 0) (file_id nbr 0)) as [Hid|Hid];
    cbn [negb].
  2:{ split; [by split|]. split; [by split|].
      split; [intros _; by split; [|intros (_ & ? & _)]|]. done. }
  destruct (coadd_wcs s (file_id cen 0)) as [image2sky|].
  2:{ split; [by split|]. split; [by split; [|intros [_ ?]]|].
      split; [by intros [? ?]|]. done. }
  fold J. unfold inv2.
  destruct (Qeq_bool _ 0) eqn:Hdet; cbn [rbind].
  - apply Qeq_bool_iff in Hdet.
    split; [by split|]. split; [by split; [|intros [_ ?]]|].
    split; [by intros _; split|]. done.
  - apply Qeq_bool_neq in Hdet.
    split; [by split|]. split; [by split; [|intros [_ ?]]|].
    split; [intros _; by split; [|intros (_ & _ & ?)]|].
    intros p J' [= <- <-]. done.
Qed.
End offchip_outcome_facts.

(** ** The propagation of the combined mask
       (Y1DESMEDSImageIO._prop_extra_bitmasks) *)

Section propagation_facts.
Import Y1DESMEDSImageIO.

Lemma shape_set2 {A} (a : list (list A)) i j v :
  length <$> set2 a i j v = length <$> a.
Proof.
  unfold set2. apply list_eq. intros k. rewrite !list_lookup_fmap.
  destruct (decide (i = k)) as [->|Hne].
  - rewrite list_lookup_alter_eq. destruct (a !! k); [|done]. cbn.
    by rewrite length_insert.
  - by rewrite list_lookup_alter_ne.
Qed.

Lemma shape_set_where {A} (a : list (list A)) q v :
  length <$> set_where a q v = length <$> a.
Proof.
  unfold set_where. revert a. induction q as [|p q IH]; intros a; [done|].
  cbn [foldl]. by rewrite IH, shape_set2.
Qed.

(** Writing [v] where [v] stands, or out of range, changes nothing. *)
Lemma set2_id {A} (a : list (list A)) i j v :
  get2 a i j = Some v ∨ get2 a i j = None → set2 a i j v = a.
Proof.
  unfold get2, set2. intros H. apply list_eq. intros k.
  destruct (decide (i = k)) as [->|Hne];
    [|by rewrite list_lookup_alter_ne].
  rewrite list_lookup_alter_eq. destruct (a !! k) as [row|]; [|done].
  cbn in *. f_equal. destruct H as [H|H].
  - by apply list_insert_id.
  - apply list_insert_ge. by apply lookup_ge_None.
Qed.

Lemma set_where_id {A} (a : list (list A)) q v :
  (∀ p, p ∈ q → get2 a p.1 p.2 = Some v ∨ get2 a p.1 p.2 = None) →
  set_where a q v = a.
Proof.
  unfold set_where. induction q as [|p q IH]; intros H; [done|].
  cbn [foldl]. rewrite set2_id by (apply H; by left).
  apply IH. intros p' Hp'. apply H. by right.
Qed.

Lemma set_where_idem {A} (a : list (list A)) q v :
  set_where (set_where a q v) q v = set_where a q v.
Proof.
  apply set_where_id. intros [i j] Hp. cbn. rewrite get2_set_where.
  rewrite decide_True by done. destruct (get2 a i j); cbn; auto.
Qed.

Lemma assign_where_inv {A} (a a' : list (list A)) q v :
  assign_where a q v = Ok a' →
  a' = set_where a q v ∧ assign_where a' q v = Ok a'.
Proof.
  unfold assign_where.
  destruct (forallb _ q) eqn:Hall; [|done]. intros [= <-].
  split; [done|].
  rewrite (proj2 (forallb_forall _ _)); [by rewrite set_where_idem|].
  intros p Hp. rewrite forallb_forall in Hall.
  specialize (Hall p Hp). apply bool_decide_eq_true in Hall.
  apply bool_decide_eq_true. rewrite get2_set_where.
  destruct (decide (_ ∈ q)); [|done]. by apply fmap_is_Some.
Qed.

Lemma set_where_kept_or_zeroed (a : farray) q :
  kept_or_zeroed a (set_where a q 0%Q).
Proof.
  split; [apply shape_set_where|]. intros i j. rewrite get2_set_where.
  destruct (decide ((i, j) ∈ q)); [|by left].
  destruct (get2 a i j); cbn; auto.
Qed.

Lemma zero_attr_inv (w w' : attr farray) q :
  zero_attr w q = Ok w' → attr_masked w w' ∧ zero_attr w' q = Ok w'.
Proof.
  destruct w as [| |a]; cbn; [by intros [= <-]|done|].
  destruct (assign_where a q 0%Q) as [a'|] eqn:Ha; [|done].
  cbn. intros [= <-]. apply assign_where_inv in Ha as [-> Ha].
  split; [apply set_where_kept_or_zeroed|]. cbn. by rewrite Ha.
Qed.

Lemma kept_or_zeroed_refl a : kept_or_zeroed a a.
Proof. split; [done|]. by left. Qed.

Lemma attr_masked_refl w : attr_masked w w.
Proof. destruct w; cbn; try done. apply kept_or_zeroed_refl. Qed.

Lemma masked_refl obs : masked obs obs.
Proof.
  repeat split; try done; try apply attr_masked_refl. by left.
Qed.

(** The loop body on one observation: only weight pixels change, and only
    to zero; and on its own result it changes nothing. *)
Lemma prop_obs_inv interp m bmask obs obs' :
  prop_obs interp m bmask obs = Ok obs' →
  masked obs obs' ∧ prop_obs interp m bmask obs' = Ok obs'.
Proof.
  unfold prop_obs. destruct (meta_flags obs =? 0) eqn:Hfl.
  2:{ intros [= <-]. rewrite Hfl. split; [apply masked_refl|done]. }
  cbv zeta.
  destruct (zip2 _ (dilated_mask interp m bmask obs) (seg obs))
    as [cond|] eqn:Hcond; [|done].
  cbn [rbind]. set (q := where2 (λ c : bool, c) cond).
  destruct (0 <? Z.of_nat (length q)) eqn:Hq.
  2:{ intros [= <-]. rewrite Hfl, Hcond. cbn [rbind]. fold q.
      rewrite Hq. split; [apply masked_refl|done]. }
  destruct (zero_attr (weight_raw obs) q) as [w_raw|] eqn:Hraw; [|done].
  cbn [rbind].
  destruct (zero_attr (weight_us obs) q) as [w_us|] eqn:Hus; [|done].
  cbn [rbind].
  destruct (assign_where (weight obs) q 0%Q) as [w|] eqn:Hw; [|done].
  cbn [rbind].
  destruct (zero_attr (weight_orig obs) q) as [w_orig|] eqn:Horig; [|done].
  cbn [rbind]. intros [= <-].
  apply zero_attr_inv in Hraw as [Hraw Hraw'].
  apply zero_attr_inv in Hus as [Hus Hus'].
  apply zero_attr_inv in Horig as [Horig Horig'].
  apply assign_where_inv in Hw as [-> Hw'].
  split.
  - repeat split; try done; cbn.
    + apply shape_set_where.
    + apply set_where_kept_or_zeroed.
    + apply Z.eqb_eq in Hfl. by intros ?.
  - cbn [meta_flags seg weight_raw weight_us weight weight_orig image
         jacobian psf meta_icut].
    rewrite Hfl.
    change (dilated_mask interp m bmask _)
      with (dilated_mask interp m bmask obs).
    rewrite Hcond. cbn [rbind]. fold q. rewrite Hq, Hraw', Hus', Hw', Horig'.
    done.
Qed.

Lemma for_each_idem {A} (R : A → A → Prop) (f : A → result A) l l' :
  (∀ x y, f x = Ok y → R x y ∧ f y = Ok y) →
  for_each f l = Ok l' → Forall2 R l l' ∧ for_each f l' = Ok l'.
Proof.
  intros Hf. revert l'. induction l as [|x l IH]; intros l'.
  - intros [= <-]. by split; [constructor|].
  - cbn [for_each]. destruct (f x) as [y|] eqn:Hy; [|done]. cbn [rbind].
    destruct (for_each f l) as [ys|] eqn:Hys; [|done]. cbn [rbind].
    intros [= <-]. destruct (Hf _ _ Hy) as [HR Hy'].
    destruct (IH _ eq_refl) as [HRs Hys']. split; [by constructor|].
    cbn [for_each]. by rewrite Hy', Hys'.
Qed.

Lemma for_each_imap_idem {A} (R : A → A → Prop) (f : nat * A → result A) l :
  (∀ i x y, f (i, x) = Ok y → R x y ∧ f (i, y) = Ok y) →
  ∀ k l',
  for_each f (imap (λ i, pair (k + i)%nat) l) = Ok l' →
  Forall2 R l l' ∧ for_each f (imap (λ i, pair (k + i)%nat) l') = Ok l'.
Proof.
  intros Hf. induction l as [|x l IH]; intros k l'.
  - intros [= <-]. by split; [constructor|].
  - cbn [imap for_each]. rewrite Nat.add_0_r.
    destruct (f (k, x)) as [y|] eqn:Hy; [|done]. cbn [rbind].
    rewrite (imap_ext _ (λ i, pair (S k + i)%nat))
      by (intros; cbn; f_equal; lia).
    destruct (for_each f _) as [ys|] eqn:Hys; [|done]. cbn [rbind].
    intros [= <-]. destruct (Hf _ _ _ Hy) as [HR Hy'].
    destruct (IH _ _ Hys) as [HRs Hys']. split; [by constructor|].
    cbn [imap for_each]. rewrite Nat.add_0_r, Hy'. cbn [rbind].
    rewrite (imap_ext _ (λ i, pair (S k + i)%nat))
      by (intros; cbn; f_equal; lia).
    by rewrite Hys'.
Qed.

(** X16.  When [_prop_extra_bitmasks] returns, the bands and their observations
    are those it was given, in their order; of an observation only the
    weight maps have changed, each keeps its shape, and each of its
    pixels has its old value or zero; a flagged observation is returned
    as it is; and running the propagation again on the result, with the
    same masks, changes nothing. *)
Theorem prop_extra_bitmasks_idempotent (interp : interpolator)
    (meds_list : list meds_object) (bmasks : list iarray)
    (mb_obs_list mb_obs_list' : list (list Observation)) :
  _prop_extra_bitmasks interp meds_list bmasks mb_obs_list
    = Ok mb_obs_list' →
  Forall2 (Forall2 masked) mb_obs_list mb_obs_list'
  ∧ _prop_extra_bitmasks interp meds_list bmasks mb_obs_list'
    = Ok mb_obs_list'.
Proof.
  unfold _prop_extra_bitmasks. intros Hcall.
  apply (for_each_imap_idem (Forall2 masked)
           (prop_band interp meds_list bmasks) mb_obs_list) with (k := 0%nat);
    [|done].
  intros band ol ol'. unfold prop_band. cbn [fst snd].
  destruct (meds_list !! band) as [m|]; [|done].
  destruct (bmasks !! band) as [bmask|]; [|done].
  apply for_each_idem. apply prop_obs_inv.
Qed.

Lemma prop_extra_bitmasks_idempotent_witness :
  ∃ mb',
    _prop_extra_bitmasks Examples.same_grid [Examples.meds3]
      [Examples.bmask3] [[Examples.obs3]] = Ok mb'
    ∧ _prop_extra_bitmasks Examples.same_grid [Examples.meds3]
        [Examples.bmask3] mb' = Ok mb'.
Proof.
  eexists. split; [by vm_compute|].
  apply (prop_extra_bitmasks_idempotent Examples.same_grid
           [Examples.meds3] [Examples.bmask3] [[Examples.obs3]]).
  by vm_compute.
Defined.
End propagation_facts.

(** ** The PSF image of a cutout (SVDESMEDSImageIO._get_psf_image) *)

Section psf_image_facts.
Import SVDESMEDSImageIO.

Lemma int_of_float_eq (x : Q) (z : Z) :
  (x == inject_Z z)%Q → int_of_float x = z.
Proof.
  unfold Qeq, inject_Z, int_of_float. cbn. intros H.
  rewrite Z.mul_1_r in H. rewrite H. by apply Z.quot_mul.
Qed.

Lemma shape_amap (f : Q → Q) (a : farray) : shape (amap f a) = shape a.
Proof.
  unfold shape, amap. rewrite length_fmap. destruct a as [|row a]; [done|].
  cbn. by rewrite length_fmap.
Qed.

Lemma rect_amap m (f : Q → Q) (a : farray) : rect m a → rect m (amap f a).
Proof.
  unfold rect, amap. rewrite !Forall_lookup. intros H i row.
  rewrite list_lookup_fmap. destruct (a !! i) as [r|] eqn:E; [|done].
  cbn. intros [= <-]. rewrite length_fmap. eauto.
Qed.

Lemma shape_square {A} (n : nat) (a : list (list A)) :
  (0 < n)%nat → length a = n → rect n a →
  shape a = (Z.of_nat n, Z.of_nat n).
Proof.
  intros Hn Hlen Hr. unfold shape. rewrite Hlen.
  destruct a as [|row a]; [cbn in Hlen; lia|]. cbn.
  by rewrite (Forall_inv Hr).
Qed.

(** X17.  A square PIFF stamp of odd size [2c + 1] trimmed to odd dimensions
    [2k + 1 <= 2c + 1] in both directions stays centred.  For a
    single-epoch cutout ([icut > 0]) [_get_psf_image] returns the central
    [2k+1] by [2k+1] pixels of the normalised stamp with the centre
    [(k, k)]; for the coadd cutout it returns the whole stamp with the
    centre [(c, c)]. *)
Theorem psf_image_centred (env : environment) (conf : config)
    (sqrt : Q → Q) (m : meds_object) (psf_obj : PIFFWrapper.t)
    (icut c k : Z) :
  let row := orig_row m icut in
  let col := orig_col m icut in
  let stamp := (PIFFWrapper.get_rec env psf_obj row col).2 in
  0 ≤ k ≤ c →
  length stamp = Z.to_nat (2 * c + 1) →
  rect (Z.to_nat (2 * c + 1)) stamp →
  trim_psf_dims conf = Some (inject_Z (2 * k + 1), inject_Z (2 * k + 1)) →
  ∃ im cen,
    (_get_psf_image env conf sqrt m psf_obj icut).2
      = Ok (im, cen, PIFFWrapper.get_sigma sqrt,
            PIFFWrapper.filename psf_obj)
    ∧ (icut ≤ 0 → im = stamp ∧ (cen.1 == inject_Z c ∧ cen.2 == inject_Z c)%Q)
    ∧ (0 < icut →
         length im = Z.to_nat (2 * k + 1)
         ∧ rect (Z.to_nat (2 * k + 1)) im
         ∧ (cen.1 == inject_Z k ∧ cen.2 == inject_Z k)%Q
         ∧ ∀ i j, Z.of_nat i < 2 * k + 1 → Z.of_nat j < 2 * k + 1 →
             get2 im i j
             = get2 stamp (Z.to_nat (c - k) + i) (Z.to_nat (c - k) + j)).
Proof.
  intros row col stamp Hk Hlen Hrect Hdims.
  unfold _get_psf_image. cbv zeta. fold row col.
  destruct (get_center_after_get_rec env psf_obj row col)
    as (cen0 & Hcache & Hget).
  rewrite Hget. cbn [fst snd rbind].
  rewrite get_rec_cache, lookup_insert_eq in Hcache. fold stamp in Hcache.
  rewrite (shape_square (Z.to_nat (2 * c + 1)) stamp) in Hcache
    by (done || lia).
  cbn [fst snd] in Hcache. rewrite Z2Nat.id in Hcache by lia.
  injection Hcache as <-.
  set (cen0 := ((inject_Z (2 * c + 1) - 1) / 2,
                (inject_Z (2 * c + 1) - 1) / 2)%Q).
  assert (cen0.1 == inject_Z c ∧ cen0.2 == inject_Z c)%Q as [Hc1 Hc2].
  { unfold cen0. cbn [fst snd]. rewrite !inject_Z_plus, !inject_Z_mult.
    split; field. }
  fold stamp. unfold trim_if_configured. rewrite Hdims.
  destruct (Z.ltb_spec 0 icut) as [Hicut|Hicut].
  2:{ exists stamp, cen0. split; [done|]. split; [done|]. lia. }
  eexists _, _. split; [done|]. split; [lia|]. intros _.
  unfold _trim_psf. cbv zeta. cbn [fst snd].
  assert (int_of_float (cen0.1 - inject_Z (2 * k + 1) / 2 + 0.5)
          = c - k) as Hs1.
  { apply int_of_float_eq. rewrite Hc1.
    unfold Zminus. rewrite !inject_Z_plus, inject_Z_opp, inject_Z_mult.
    field. }
  assert (int_of_float (cen0.1 + inject_Z (2 * k + 1) / 2 + 0.5)
          = c + k + 1) as Hs2.
  { apply int_of_float_eq. rewrite Hc1.
    rewrite !inject_Z_plus, inject_Z_mult. field. }
  assert (int_of_float (cen0.2 - inject_Z (2 * k + 1) / 2 + 0.5)
          = c - k) as Hs3.
  { apply int_of_float_eq. rewrite Hc2.
    unfold Zminus. rewrite !inject_Z_plus, inject_Z_opp, inject_Z_mult.
    field. }
  assert (int_of_float (cen0.2 + inject_Z (2 * k + 1) / 2 + 0.5)
          = c + k + 1) as Hs4.
  { apply int_of_float_eq. rewrite Hc2.
    rewrite !inject_Z_plus, inject_Z_mult. field. }
  rewrite Hs1, Hs2, Hs3, Hs4.
  assert (c + k + 1 - (c - k) = 2 * k + 1) as Hsize by lia.
  split; [|split; [|split]].
  - unfold py_slice2. rewrite length_fmap, py_slice_length by lia.
    by rewrite Hsize.
  - unfold py_slice2, rect. apply Forall_fmap, Forall_forall.
    intros r Hr. cbn.
    assert (length r = Z.to_nat (2 * c + 1)) as Hlr.
    { unfold rect in Hrect. rewrite Forall_forall in Hrect.
      apply Hrect. unfold py_slice in Hr.
      by apply subseteq_take, subseteq_drop in Hr. }
    rewrite py_slice_length by lia. by rewrite Hsize.
  - rewrite Hc1, Hc2. unfold Zminus.
    rewrite !inject_Z_plus, inject_Z_opp. split; ring.
  - intros i j Hi Hj.
    apply (py_slice2_get2 stamp (Z.to_nat (2 * c + 1))); (done || lia).
Qed.

Lemma psf_image_centred_witness :
  ∃ im cen,
    (_get_psf_image Examples.env0 Examples.conf0 (λ x, x) Examples.meds3
       (PIFFWrapper.__init__ Examples.env0 "D00243626_i_c30_piff.fits" 3)
       1).2
    = Ok (im, cen, PIFFWrapper.get_sigma (λ x, x),
          "D00243626_i_c30_piff.fits")
    ∧ length im = 3%nat
    ∧ (cen.1 == 1 ∧ cen.2 == 1)%Q.
Proof.
  destruct (psf_image_centred Examples.env0 Examples.conf0 (λ x, x)
              Examples.meds3
              (PIFFWrapper.__init__ Examples.env0
                 "D00243626_i_c30_piff.fits" 3) 1 1 1)
    as (im & cen & H & _ & H');
    [lia|reflexivity|repeat constructor|reflexivity|].
  exists im, cen. split; [exact H|].
  destruct (H' ltac:(lia)) as (Hl & _ & Hc & _). split; [exact Hl|exact Hc].
Defined.
End psf_image_facts.

(** ** Replacement image flags (SVDESMEDSImageIO._load_meds_files) *)

Section replacement_flags_facts.
Import SVDESMEDSImageIO.

(** X18.  With a replacement-flag file configured and at least one exposure
    besides the coadd, the flags that [_load_meds_files] stores do not
    depend on the exposure flags of the image info table: the coadd entry
    is the one of the table, and the entry of exposure [i] is the
    reduction of the replacement flag of its image path (of the single
    replacement flag, if the reader returns one value for several paths);
    a reader that returns another number of values makes the assignment
    raise [ValueError]. *)
Theorem replacement_flags_override (conf : config) (reader : flags_reader)
    (fname : string) (image_path : list string) (f0 : Z) (fl fl' : list Z) :
  replacement_flags conf = Some fname →
  (1 ≤ length fl)%nat → length fl' = length fl →
  let vals := _get_replacement_flags conf reader fname (drop 1 image_path) in
  let reduced g :=
    if Z.land g (image_flags2check conf) =? 0 then 0 else IMAGE_FLAGS_SET in
  load_image_flags conf reader image_path (f0 :: fl')
    = load_image_flags conf reader image_path (f0 :: fl)
  ∧ load_image_flags conf reader image_path (f0 :: fl)
    = if (length vals =? length fl)%nat then Ok (f0 :: (reduced <$> vals))
      else match vals with
           | [v] => Ok (f0 :: replicate (length fl) (reduced v))
           | _ => Raise ValueError
           end.
Proof.
  intros Hconf Hlen Hlen' vals reduced.
  assert (∀ l, length l = length fl →
            load_image_flags conf reader image_path (f0 :: l)
            = if (length vals =? length fl)%nat
              then Ok (f0 :: (reduced <$> vals))
              else match vals with
                   | [v] => Ok (f0 :: replicate (length fl) (reduced v))
                   | _ => Raise ValueError
                   end) as H.
  { intros l Hl. unfold load_image_flags, replace_image_flags.
    rewrite Hconf. cbn [length].
    rewrite (proj2 (Nat.ltb_lt 1 (S (length l)))) by lia.
    fold vals. unfold assign_tail. cbn [length take].
    replace (S (length l) - 1)%nat with (length fl) by lia.
    rewrite take_0.
    assert (∀ xs, length xs = length fl →
              reduce_image_flags conf (f0 :: xs) = f0 :: (reduced <$> xs))
      as Hred.
    { intros xs Hxs. apply list_eq. intros [|i].
      - by rewrite reduce_image_flags_lookup.
      - rewrite reduce_image_flags_lookup.
        change ((f0 :: xs) !! S i) with (xs !! i).
        change ((f0 :: (reduced <$> xs)) !! S i)
          with ((reduced <$> xs) !! i).
        by rewrite list_lookup_fmap. }
    destruct (length vals =? length fl)%nat eqn:E.
    - apply Nat.eqb_eq in E. cbn [rbind app]. by rewrite Hred.
    - destruct vals as [|v [|? ?]]; [done| |done].
      cbn [rbind app]. rewrite Hred by apply length_replicate.
      by rewrite fmap_replicate. }
  split; [by rewrite (H fl'), (H fl)|by apply H].
Qed.

Lemma replacement_flags_override_witness :
  let conf :=
    {| image_flags2check := 3; fit_coadd_galaxy := false;
       replacement_flags := Some "flags.json"; psfs_type := "piff";
       psfs_piff_run := "run1"; psfs_allow_missing := false;
       psfs_stamp_size := 3; image_type := "surface_brightness";
       fitter_type := "galsimsimple"; trim_psf_dims := None |} in
  load_image_flags conf Examples.no_replacement Examples.paths0 [8; 0; 4; 1]
  = load_image_flags conf Examples.no_replacement Examples.paths0 [8; 1; 1; 0].
Proof.
  intros conf.
  apply (replacement_flags_override conf Examples.no_replacement
           "flags.json" Examples.paths0 8 [1; 1; 0] [0; 4; 1]).
  - reflexivity.
  - cbn. lia.
  - reflexivity.
Defined.
End replacement_flags_facts.
